(** * Particle lifecycle and animation engine of [js/main.js]

    A shallow embedding of the particle engine: the lifecycle alpha
    calculator, the three particle classes ([GlowParticle], [WeldingSpark],
    [Comet]) with their managers, the colour assignment, the three path
    generators (Viviani, Lorenz, juggling) with the choice among them, and
    the one particle class of the earlier version of the engine.

    Numbers.  The engine only adds, subtracts, multiplies, divides and
    compares its numbers, so JavaScript doubles are idealised as exact
    rationals ([Q]); rounding of doubles and of [Float32Array] cells is
    outside the model.  A division by zero is 0 in [Q] where JavaScript
    answers [Infinity] or [NaN]; the theorems about a quotient assume or
    prove its divisor positive.  The Viviani and juggling path generators
    need [cos] and [sin] and are stated over the real numbers of the
    Standard Library; there too a division by zero is 0, so their theorems
    assume a positive number of samples.

    Randomness.  [Math.random()] reads the next value of an explicit
    stream; every function that draws threads the stream.

    Three.js.  A curve ([THREE.CatmullRomCurve3]) is a record of its
    [getPointAt], [getTangentAt] and [closed] members; materials, shaders
    and the scene graph are left out, the uniforms the engine writes are
    fields of the particle records. *)

From Stdlib Require Import QArith Qround Reals Qreals Lra Lqa String.
From stdpp Require Import base list.

Local Open Scope Q_scope.

(** ** Numbers and [Math] *)

(** [a < b] and friends as the booleans JavaScript computes. *)
Definition ltb (a b : Q) : bool := if Qlt_le_dec a b then true else false.
Definition geb (a b : Q) : bool := negb (ltb a b).
Definition gtb (a b : Q) : bool := ltb b a.

Definition Math_max (a b : Q) : Q := if ltb a b then b else a.
Definition Math_min (a b : Q) : Q := if ltb b a then b else a.

(** [Math.floor], as an integer. *)
Definition Math_floor (x : Q) : Z := Qfloor x.

(** [x % 1]: the remainder of the division truncated toward zero, with the
    sign of [x]. *)
Definition Qtrunc (x : Q) : Z := Z.quot (Qnum x) (Zpos (Qden x)).
Definition rem1 (x : Q) : Q := x - inject_Z (Qtrunc x).

(** A natural number used as a JavaScript number. *)
Definition num (n : nat) : Q := inject_Z (Z.of_nat n).

(** ** [Math.random] *)

Record Rng := mkRng { draws : nat -> Q; cursor : nat }.

Definition Math_random (g : Rng) : Q * Rng :=
  (draws g (cursor g), mkRng (draws g) (S (cursor g))).

(** [Math.random()] returns a value in [0, 1). *)
Definition rng_ok (g : Rng) : Prop := forall n, 0 <= draws g n /\ draws g n < 1.

(** ** Vectors and curves *)

Record Vector3 := mkVector3 { x : Q; y : Q; z : Q }.

Definition add (a b : Vector3) : Vector3 :=
  mkVector3 (x a + x b) (y a + y b) (z a + z b).

Definition multiplyScalar (a : Vector3) (s : Q) : Vector3 :=
  mkVector3 (x a * s) (y a * s) (z a * s).

Definition addScaledVector (a v : Vector3) (s : Q) : Vector3 :=
  mkVector3 (x a + x v * s) (y a + y v * s) (z a + z v * s).

Record Curve := mkCurve {
  getPointAt : Q -> Vector3;
  getTangentAt : Q -> Vector3;
  closed : bool
}.

(** ** Typed arrays

    A [Float32Array] is a list of fixed length.  A write outside the array
    is ignored, as in JavaScript; a read outside it (which JavaScript
    answers with [undefined]) is given the value 0 here and never happens
    on the buffers the constructors allocate (see the [wf] lemmas). *)

Definition Float32Array (n : nat) : list Q := replicate n 0.
Definition read (a : list Q) (i : nat) : Q := default 0 (a !! i).
Definition write (a : list Q) (i : nat) (v : Q) : list Q := <[i:=v]> a.

(** [v.toArray(array, offset)] *)
Definition toArray (v : Vector3) (a : list Q) (offset : nat) : list Q :=
  write (write (write a offset (x v)) (offset + 1) (y v)) (offset + 2) (z v).

(** The point stored at sample [i] of a position buffer. *)
Definition sample (a : list Q) (i : nat) : Vector3 :=
  mkVector3 (read a (i * 3)) (read a (i * 3 + 1)) (read a (i * 3 + 2)).

(** ** Configuration ([params]) *)

Inductive Theme := dark | light.
Inductive ColorMode := rainbow | single | palette | otherMode.

(** The argument of [THREE.Color.set]: a CSS string, a hex number, or the
    arguments of [setHSL]. *)
Inductive Color :=
| css (s : string)
| hex (n : Z)
| hsl (h s l : Q).

Record Params := mkParams {
  numParticles : nat;
  particleScatterRadius : Q;
  lifecycle_enabled : bool;
  lifecycle_fadeInTime : Q;
  lifecycle_stableTime : Q;
  lifecycle_fadeOutTime : Q;
  lifecycle_randomOffset : Q;
  currentTheme : Theme;
  glow_trailLength : nat;
  glow_speedFactor : Q;
  glow_boldness : Q;
  weldingSpark_trailLength : nat;
  weldingSpark_speedFactor : Q;
  weldingSpark_sparkSize : Q;
  weldingSpark_pathFollowing : Q;
  comet_tailLength : nat;
  comet_tailWidth : Q;
  comet_speedFactor : Q;
  comet_colorMode : ColorMode;
  comet_cometColor : string;
  colorMode : ColorMode;
  singleColorValue : string;
  paletteColor1 : string; paletteColor1Enabled : bool;
  paletteColor2 : string; paletteColor2Enabled : bool;
  paletteColor3 : string; paletteColor3Enabled : bool;
  paletteColor4 : string; paletteColor4Enabled : bool;
  paletteColor5 : string; paletteColor5Enabled : bool
}.

(** ** [ParticleSystem.calculateLifecycleAlpha]

    The method reads two members of whatever particle it is given. *)

Class Particle (P : Type) := {
  lifecycleOffset_of : P -> Q;
  currentT_of : P -> Q
}.

Definition lifecyclePos {P} `{Particle P} (particle : P) : Q :=
  rem1 (lifecycleOffset_of particle + currentT_of particle).

Definition calculateLifecycleAlpha {P} `{Particle P} (params : Params) (particle : P) : Q :=
  if negb (lifecycle_enabled params) then 1 else
  let fadeInTime := lifecycle_fadeInTime params in
  let stableTime := lifecycle_stableTime params in
  let fadeOutTime := lifecycle_fadeOutTime params in
  let lifecyclePos := lifecyclePos particle in
  let alpha :=
    if ltb lifecyclePos fadeInTime then
      lifecyclePos / fadeInTime
    else if geb lifecyclePos (fadeInTime + stableTime) then
      let fadeOutPosition := (lifecyclePos - fadeInTime - stableTime) / fadeOutTime in
      1 - fadeOutPosition
    else 1 in
  Math_max 0 (Math_min 1 alpha).

(** The random scatter vector every class draws at construction and at
    each wrap: three draws, each mapped to [-radius, radius). *)
Definition randomScatter (radius : Q) (g : Rng) : Vector3 * Rng :=
  let '(r1, g) := Math_random g in
  let '(r2, g) := Math_random g in
  let '(r3, g) := Math_random g in
  (mkVector3 ((r1 - (1#2)) * 2 * radius)
             ((r2 - (1#2)) * 2 * radius)
             ((r3 - (1#2)) * 2 * radius), g).

(** [for (let i = 0; i < n; i++) body] over a state. *)
Definition for_up {S} (n : nat) (body : S -> nat -> S) (s : S) : S :=
  fold_left body (seq 0 n) s.

(** [for (let i = n - 1; i > 0; i--) body] over a state. *)
Definition for_down {S} (n : nat) (body : S -> nat -> S) (s : S) : S :=
  fold_left body (rev (seq 1 (n - 1))) s.

(** The linear fade ramp written into [trailAlphas] and [tailFades]. *)
Definition ramp (length i : nat) : Q :=
  1 - num i / Math_max 1 (num length - 1).

(** ** [GlowParticle] *)

Module GlowParticle.

Record t := mk {
  path : Curve;
  trailLength : nat;
  currentT : Q;
  baseSpeedRandomness : Q;
  speed : Q;
  lifecycleOffset : Q;
  justReset : bool;
  scatterOffset : Vector3;
  trailPositions : list Q;
  trailAlphas : list Q;
  color : Color;
  uBoldness : Q;
  uLifecycleAlpha : Q
}.

Definition constructor (params : Params) (path : Curve)
    (o_trailLength : nat) (o_speedFactor o_boldness o_scatterRadius : Q)
    (g : Rng) : t * Rng :=
  let trailLength := o_trailLength in
  let '(currentT, g) := Math_random g in
  let '(r, g) := Math_random g in
  let baseSpeedRandomness := (1#2) + r * 1 in
  let speed := o_speedFactor * baseSpeedRandomness in
  let '(r, g) := Math_random g in
  let lifecycleOffset := r * lifecycle_randomOffset params in
  let justReset := false in
  let '(scatterOffset, g) := randomScatter o_scatterRadius g in
  let trailPositions := Float32Array (trailLength * 3) in
  let trailAlphas := Float32Array trailLength in
  let segmentDeltaT := 1#1000 in
  let '(trailPositions, trailAlphas) :=
    for_up trailLength (fun '(trailPositions, trailAlphas) i =>
      let t := currentT - num i * segmentDeltaT in
      let t := rem1 (rem1 t + 1) in
      let posOnCurve := getPointAt path t in
      let scatteredPos := add posOnCurve scatterOffset in
      (toArray scatteredPos trailPositions (i * 3),
       write trailAlphas i (ramp trailLength i)))
      (trailPositions, trailAlphas) in
  let trailAlphas :=
    if (0 <? trailLength)%nat then write trailAlphas 0 1 else trailAlphas in
  (mk path trailLength currentT baseSpeedRandomness speed lifecycleOffset
      justReset scatterOffset trailPositions trailAlphas
      (hex 16777215) o_boldness 1, g).

(** One step of the loop that moves the trail one slot toward the tail. *)
Definition shift (positions : list Q) (i : nat) : list Q :=
  let positions := write positions (i * 3) (read positions ((i - 1) * 3)) in
  let positions := write positions (i * 3 + 1) (read positions ((i - 1) * 3 + 1)) in
  write positions (i * 3 + 2) (read positions ((i - 1) * 3 + 2)).

Definition update (params : Params) (p : t) (g : Rng) : t * Rng :=
  let speed := glow_speedFactor params * baseSpeedRandomness p in
  let currentT := currentT p + speed in
  let positions := trailPositions p in
  let alphas := trailAlphas p in
  let '(currentT, scatterOffset, justReset, positions, g) :=
    if geb currentT 1 then
      let currentT := 0 in
      let '(scatterOffset, g) := randomScatter (particleScatterRadius params) g in
      let justReset := if negb (closed (path p)) then true else justReset p in
      let startPos := add (getPointAt (path p) 0) scatterOffset in
      let positions :=
        for_up (trailLength p) (fun positions i => toArray startPos positions (i * 3))
          positions in
      (currentT, scatterOffset, justReset, positions, g)
    else (currentT, scatterOffset p, justReset p, positions, g) in
  let posOnCurve := getPointAt (path p) currentT in
  let newHeadPos := add posOnCurve scatterOffset in
  let positions := for_down (trailLength p) shift positions in
  let positions := toArray newHeadPos positions 0 in
  let alphas :=
    for_up (trailLength p) (fun alphas i => write alphas i (ramp (trailLength p) i))
      alphas in
  let alphas := if (0 <? trailLength p)%nat then write alphas 0 1 else alphas in
  let alphas :=
    if (trailLength p <=? 1)%nat && (0 <? length alphas)%nat
    then write alphas 0 1 else alphas in
  (mk (path p) (trailLength p) currentT (baseSpeedRandomness p) speed
      (lifecycleOffset p) justReset scatterOffset positions alphas
      (color p) (uBoldness p) (uLifecycleAlpha p), g).

(** The buffers have the lengths the constructor gave them. *)
Definition wf (p : t) : Prop :=
  length (trailPositions p) = (trailLength p * 3)%nat /\
  length (trailAlphas p) = trailLength p.

Definition with_justReset (p : t) (b : bool) : t :=
  mk (path p) (trailLength p) (currentT p) (baseSpeedRandomness p) (speed p)
     (lifecycleOffset p) b (scatterOffset p) (trailPositions p) (trailAlphas p)
     (color p) (uBoldness p) (uLifecycleAlpha p).

Definition with_uLifecycleAlpha (p : t) (a : Q) : t :=
  mk (path p) (trailLength p) (currentT p) (baseSpeedRandomness p) (speed p)
     (lifecycleOffset p) (justReset p) (scatterOffset p) (trailPositions p)
     (trailAlphas p) (color p) (uBoldness p) a.

Definition with_color (p : t) (c : Color) : t :=
  mk (path p) (trailLength p) (currentT p) (baseSpeedRandomness p) (speed p)
     (lifecycleOffset p) (justReset p) (scatterOffset p) (trailPositions p)
     (trailAlphas p) c (uBoldness p) (uLifecycleAlpha p).

End GlowParticle.

#[export] Instance GlowParticle_Particle : Particle GlowParticle.t :=
  {| lifecycleOffset_of := GlowParticle.lifecycleOffset;
     currentT_of := GlowParticle.currentT |}.

(** ** Colour assignment *)

(** The palette entries whose checkbox is on, in palette order. *)
Definition activePalette (params : Params) : list string :=
  let activePalette := [] in
  let activePalette :=
    if paletteColor1Enabled params then activePalette ++ [paletteColor1 params] else activePalette in
  let activePalette :=
    if paletteColor2Enabled params then activePalette ++ [paletteColor2 params] else activePalette in
  let activePalette :=
    if paletteColor3Enabled params then activePalette ++ [paletteColor3 params] else activePalette in
  let activePalette :=
    if paletteColor4Enabled params then activePalette ++ [paletteColor4 params] else activePalette in
  let activePalette :=
    if paletteColor5Enabled params then activePalette ++ [paletteColor5 params] else activePalette in
  activePalette.

(** [Math.floor(Math.random() * activePalette.length)] for a draw [r]. *)
Definition randomIndex (r : Q) (activePalette : list string) : nat :=
  Z.to_nat (Math_floor (r * num (length activePalette))).

(** ** [GlowParticleSystem] *)

Module GlowParticleSystem.

(** The colour [setParticleColor] hands to the particle's [color]
    uniform.  An index outside the palette would read [undefined], which
    [Color.set] ignores: the old colour stays. *)
Definition setParticleColor (params : Params) (particle : GlowParticle.t) (g : Rng)
    : GlowParticle.t * Rng :=
  match currentTheme params with
  | light => (GlowParticle.with_color particle (hex 2236962), g)
  | dark =>
    match colorMode params with
    | rainbow =>
      let '(r, g) := Math_random g in
      (GlowParticle.with_color particle (hsl r (7#10) (6#10)), g)
    | single =>
      (GlowParticle.with_color particle (css (singleColorValue params)), g)
    | palette =>
      let activePalette := activePalette params in
      if (0 <? length activePalette)%nat then
        let '(r, g) := Math_random g in
        match activePalette !! randomIndex r activePalette with
        | Some c => (GlowParticle.with_color particle (css c), g)
        | None => (particle, g)
        end
      else (GlowParticle.with_color particle (css "#ffffff"), g)
    | otherMode =>
      let '(r, g) := Math_random g in
      (GlowParticle.with_color particle (hsl r (7#10) (6#10)), g)
    end
  end.

(** The body of the [forEach] in [update], for one particle. *)
Definition update_particle (params : Params) (p : GlowParticle.t) (g : Rng)
    : GlowParticle.t * Rng :=
  let '(p, g) := GlowParticle.update params p g in
  if lifecycle_enabled params then
    let finalAlpha := calculateLifecycleAlpha params p in
    let '(finalAlpha, p) :=
      if negb (closed (GlowParticle.path p)) then
        let fadeOutTime := lifecycle_fadeOutTime params in
        let fadeInTime := lifecycle_fadeInTime params in
        let fadeOutStartT := 1 - fadeOutTime in
        if gtb (GlowParticle.currentT p) fadeOutStartT then
          let fadeOutProgress := (GlowParticle.currentT p - fadeOutStartT) / fadeOutTime in
          (finalAlpha * (1 - fadeOutProgress), p)
        else if GlowParticle.justReset p && ltb (GlowParticle.currentT p) fadeInTime then
          let fadeInProgress := GlowParticle.currentT p / fadeInTime in
          let finalAlpha := finalAlpha * fadeInProgress in
          if geb fadeInProgress 1
          then (finalAlpha, GlowParticle.with_justReset p false)
          else (finalAlpha, p)
        else if GlowParticle.justReset p then
          (finalAlpha, GlowParticle.with_justReset p false)
        else (finalAlpha, p)
      else (finalAlpha, p) in
    (GlowParticle.with_uLifecycleAlpha p finalAlpha, g)
  else (p, g).

(** [particles.forEach] threading the random stream. *)
Definition update (params : Params) (particles : list GlowParticle.t) (g : Rng)
    : list GlowParticle.t * Rng :=
  fold_left (fun '(done, g) p =>
               let '(p, g) := update_particle params p g in (done ++ [p], g))
            particles ([], g).

End GlowParticleSystem.

(** ** The functions of [Math] and Three.js that leave the rationals

    [Math.cos], [Math.sin], [Math.PI] and [Vector3.normalize] are taken as
    an interface; nothing is assumed about them. *)

Class Trig := {
  Math_cos : Q -> Q;
  Math_sin : Q -> Q;
  Math_PI : Q;
  normalize : Vector3 -> Vector3
}.

(** ** [WeldingSpark] *)

Module WeldingSpark.

Record t := mk {
  path : Curve;
  maxLife : nat;
  currentT : Q;
  baseSpeedRandomness : Q;
  speed : Q;
  lifecycleOffset : Q;
  scatterOffset : Vector3;
  positions : list Q;
  sizes : list Q;
  sparkLives : list Q;
  velocities : list Vector3;
  activeParticles : nat;
  drawRange : nat;
  sparkHeat : Q;
  lifecycleAlpha : Q
}.

(** [velocities] is a plain array of vector objects: [velocities[i] = v]
    replaces a cell or, at [i = length], appends one.  A write further out
    would leave holes; the pool never does that (the [wf] invariant), the
    model fills them with the zero vector.  The compaction stores one
    object in two cells, the second of them past the live prefix; that
    cell is overwritten by [emitSparks] before it is live again, so the
    live cells never share an object and the cells are modelled as
    values. *)
Definition hole : Vector3 := mkVector3 0 0 0.

Definition assign (a : list Vector3) (i : nat) (v : Vector3) : list Vector3 :=
  if (i <? length a)%nat then <[i:=v]> a
  else a ++ replicate (i - length a) hole ++ [v].

Definition at_ (a : list Vector3) (i : nat) : Vector3 := default hole (a !! i).

(** The pool cells the emission loop works on. *)
Record Pool := mkPool {
  p_positions : list Q;
  p_sizes : list Q;
  p_sparkLives : list Q;
  p_velocities : list Vector3;
  p_activeParticles : nat
}.

(** The body of the emission loop after its capacity test. *)
Definition emitOne `{Trig} (params : Params) (origin tangent : Vector3)
    (s : Pool) (g : Rng) : Pool * Rng :=
  let '(r, g) := Math_random g in
  let tangentInfluence := weldingSpark_pathFollowing params * ((7#10) + r * (3#10)) in
  let randomInfluence := 1 - tangentInfluence in
  let '(r, g) := Math_random g in
  let angle := r * Math_PI * 2 in
  let '(r, g) := Math_random g in
  let elevation := r * Math_PI - Math_PI / 2 in
  let randomDir :=
    normalize (mkVector3 (Math_cos angle * Math_cos elevation)
                         (Math_sin elevation)
                         (Math_sin angle * Math_cos elevation)) in
  let direction :=
    normalize (addScaledVector
                 (addScaledVector (mkVector3 0 0 0) tangent tangentInfluence)
                 randomDir randomInfluence) in
  let direction :=
    mkVector3 (x direction)
              (y direction - (2#10) * (1 - weldingSpark_pathFollowing params))
              (z direction) in
  let direction := normalize direction in
  let '(r, g) := Math_random g in
  let speed := (5#100) + r * (15#100) in
  let velocity := multiplyScalar direction speed in
  let idx := (p_activeParticles s * 3)%nat in
  let positions := write (p_positions s) idx (x origin) in
  let positions := write positions (idx + 1) (y origin) in
  let positions := write positions (idx + 2) (z origin) in
  let '(r, g) := Math_random g in
  let sizes :=
    write (p_sizes s) (p_activeParticles s)
          (((2#10) + r * (8#10)) * weldingSpark_sparkSize params) in
  let sparkLives := write (p_sparkLives s) (p_activeParticles s) 1 in
  let velocities := assign (p_velocities s) (p_activeParticles s) velocity in
  (mkPool positions sizes sparkLives velocities (S (p_activeParticles s)), g).

(** [for (let i = 0; i < numNewSparks; i++)] with its [break]; [n] counts
    the iterations left. *)
Fixpoint emitLoop `{Trig} (params : Params) (origin tangent : Vector3)
    (n : nat) (s : Pool) (g : Rng) : Pool * Rng :=
  match n with
  | O => (s, g)
  | S n' =>
    if geb (num (p_activeParticles s)) (num (length (p_positions s)) / 3)
    then (s, g)
    else
      let '(s, g) := emitOne params origin tangent s g in
      emitLoop params origin tangent n' s g
  end.

Definition pool (p : t) : Pool :=
  mkPool (positions p) (sizes p) (sparkLives p) (velocities p) (activeParticles p).

Definition emitSparks `{Trig} (params : Params) (p : t) (g : Rng) : t * Rng :=
  let posOnCurve := getPointAt (path p) (currentT p) in
  let origin := add posOnCurve (scatterOffset p) in
  let tangent := normalize (getTangentAt (path p) (currentT p)) in
  let '(r, g) := Math_random g in
  let numNewSparks := Z.to_nat (Math_floor (2 + r * 5)) in
  let '(s, g) := emitLoop params origin tangent numNewSparks (pool p) g in
  (mk (path p) (maxLife p) (currentT p) (baseSpeedRandomness p) (speed p)
      (lifecycleOffset p) (scatterOffset p)
      (p_positions s) (p_sizes s) (p_sparkLives s) (p_velocities s)
      (p_activeParticles s) (p_activeParticles s)
      (sparkHeat p) (lifecycleAlpha p), g).

Definition constructor `{Trig} (params : Params) (path : Curve)
    (o_trailLength : nat) (o_speedFactor o_sparkHeat o_scatterRadius : Q)
    (g : Rng) : t * Rng :=
  let maxLife := o_trailLength in
  let '(currentT, g) := Math_random g in
  let '(r, g) := Math_random g in
  let baseSpeedRandomness := (1#2) + r * (15#10) in
  let speed := o_speedFactor * baseSpeedRandomness in
  let '(r, g) := Math_random g in
  let lifecycleOffset := r * lifecycle_randomOffset params in
  let '(scatterOffset, g) := randomScatter o_scatterRadius g in
  let maxParticles := (maxLife * 3)%nat in
  let positions := Float32Array (maxParticles * 3) in
  let sizes := Float32Array maxParticles in
  let sparkLives := Float32Array maxParticles in
  emitSparks params
    (mk path maxLife currentT baseSpeedRandomness speed lifecycleOffset
        scatterOffset positions sizes sparkLives [] 0 0 o_sparkHeat 1) g.

(** The state of the compaction loop of [update]. *)
Record Sweep := mkSweep {
  s_pool : Pool;
  aliveCount : nat;
  s_rng : Rng
}.

(** The body of [for (let i = 0; i < this.activeParticles; i++)]. *)
Definition sweepOne (s : Sweep) (i : nat) : Sweep :=
  let positions := p_positions (s_pool s) in
  let sizes := p_sizes (s_pool s) in
  let sparkLives := p_sparkLives (s_pool s) in
  let velocities := p_velocities (s_pool s) in
  let aliveCount := aliveCount s in
  let '(r, g) := Math_random (s_rng s) in
  let sparkLives := write sparkLives i (read sparkLives i - ((3#100) + r * (2#100))) in
  if gtb (read sparkLives i) 0 then
    let idx := (i * 3)%nat in
    let v := at_ velocities i in
    let velocities := assign velocities i (mkVector3 (x v) (y v - (1#1000)) (z v)) in
    let positions := write positions idx (read positions idx + x (at_ velocities i)) in
    let positions :=
      write positions (idx + 1) (read positions (idx + 1) + y (at_ velocities i)) in
    let positions :=
      write positions (idx + 2) (read positions (idx + 2) + z (at_ velocities i)) in
    let sizes := write sizes i (read sizes i * (98#100)) in
    let moved :=
      if negb (i =? aliveCount)%nat then
        let positions := write positions (aliveCount * 3) (read positions idx) in
        let positions := write positions (aliveCount * 3 + 1) (read positions (idx + 1)) in
        let positions := write positions (aliveCount * 3 + 2) (read positions (idx + 2)) in
        let sizes := write sizes aliveCount (read sizes i) in
        let sparkLives := write sparkLives aliveCount (read sparkLives i) in
        let velocities := assign velocities aliveCount (at_ velocities i) in
        mkPool positions sizes sparkLives velocities (p_activeParticles (s_pool s))
      else
        mkPool positions sizes sparkLives velocities (p_activeParticles (s_pool s)) in
    mkSweep moved (S aliveCount) g
  else
    mkSweep (mkPool positions sizes sparkLives velocities (p_activeParticles (s_pool s)))
            aliveCount g.

(** The first half of [update]: the guide point advances, wraps, and may
    emit. *)
Definition advance `{Trig} (params : Params) (p : t) (g : Rng) : t * Rng :=
  let speed := weldingSpark_speedFactor params * baseSpeedRandomness p in
  let currentT := currentT p + speed in
  let '(currentT, scatterOffset, g) :=
    if geb currentT 1 then
      let '(scatterOffset, g) := randomScatter (particleScatterRadius params) g in
      (0, scatterOffset, g)
    else (currentT, scatterOffset p, g) in
  let p :=
    mk (path p) (maxLife p) currentT (baseSpeedRandomness p) speed
       (lifecycleOffset p) scatterOffset (positions p) (sizes p) (sparkLives p)
       (velocities p) (activeParticles p) (drawRange p) (sparkHeat p)
       (lifecycleAlpha p) in
  let '(r, g) := Math_random g in
  if gtb r (7#10) then emitSparks params p g else (p, g).

(** [update]: [advance], then the loop over the active sparks, then the
    new count and draw range. *)
Definition update `{Trig} (params : Params) (p : t) (g : Rng) : t * Rng :=
  let '(p, g) := advance params p g in
  let s := for_up (activeParticles p) sweepOne (mkSweep (pool p) 0 g) in
  (mk (path p) (maxLife p) (currentT p) (baseSpeedRandomness p)
      (speed p) (lifecycleOffset p) (scatterOffset p)
      (p_positions (s_pool s)) (p_sizes (s_pool s)) (p_sparkLives (s_pool s))
      (p_velocities (s_pool s)) (aliveCount s) (aliveCount s)
      (sparkHeat p) (lifecycleAlpha p), s_rng s).

(** Pool capacity: the number of sparks the buffers hold. *)
Definition capacity (p : t) : nat := (maxLife p * 3)%nat.

(** The buffers have the lengths the constructor gave them, and every live
    slot has a velocity. *)
Definition wf (p : t) : Prop :=
  length (positions p) = (capacity p * 3)%nat /\
  length (sizes p) = capacity p /\
  length (sparkLives p) = capacity p /\
  (activeParticles p <= length (velocities p))%nat.

Definition with_lifecycleAlpha (p : t) (a : Q) : t :=
  mk (path p) (maxLife p) (currentT p) (baseSpeedRandomness p) (speed p)
     (lifecycleOffset p) (scatterOffset p) (positions p) (sizes p) (sparkLives p)
     (velocities p) (activeParticles p) (drawRange p) (sparkHeat p) a.

End WeldingSpark.

#[export] Instance WeldingSpark_Particle : Particle WeldingSpark.t :=
  {| lifecycleOffset_of := WeldingSpark.lifecycleOffset;
     currentT_of := WeldingSpark.currentT |}.

(** ** [WeldingSparkParticleSystem] *)

Module WeldingSparkParticleSystem.

(** The body of the [forEach] in [update], for one particle. *)
Definition update_particle `{Trig} (params : Params) (p : WeldingSpark.t) (g : Rng)
    : WeldingSpark.t * Rng :=
  let '(p, g) := WeldingSpark.update params p g in
  if lifecycle_enabled params then
    (WeldingSpark.with_lifecycleAlpha p (calculateLifecycleAlpha params p), g)
  else (p, g).

Definition update `{Trig} (params : Params) (particles : list WeldingSpark.t) (g : Rng)
    : list WeldingSpark.t * Rng :=
  fold_left (fun '(done, g) p =>
               let '(p, g) := update_particle params p g in (done ++ [p], g))
            particles ([], g).

End WeldingSparkParticleSystem.

(** ** [Comet] *)

Module Comet.

(** One of the extra tail lines: its cloned geometry and material. *)
Record WideTail := mkWideTail {
  w_positions : list Q;
  w_cometColor : Color;
  w_glowIntensity : Q;
  w_lifecycleAlpha : Q
}.

Record t := mk {
  path : Curve;
  tailLength : nat;
  currentT : Q;
  baseSpeedRandomness : Q;
  speed : Q;
  lifecycleOffset : Q;
  scatterOffset : Vector3;
  headPosition : list Q;
  tailPositions : list Q;
  tailFades : list Q;
  headMaterial_cometColor : Color;
  headMaterial_lifecycleAlpha : Q;
  tailMaterial_cometColor : Color;
  tailMaterial_glowIntensity : Q;
  tailMaterial_lifecycleAlpha : Q;
  wideTailMeshes : list WideTail
}.

(** The lateral offset of extra line [i] out of [numExtraLines]. *)
Definition offsetVector `{Trig} (numExtraLines i : nat) : Vector3 :=
  let offset := (num i + 1) * (5#100) in
  let angle := (num i / num numExtraLines) * Math_PI * 2 in
  mkVector3 (Math_cos angle * offset) (Math_sin angle * offset) 0.

Definition constructor `{Trig} (params : Params) (path : Curve)
    (o_tailLength : nat) (o_tailWidth o_glowIntensity o_speedFactor o_scatterRadius : Q)
    (o_color : string) (g : Rng) : t * Rng :=
  let tailLength := o_tailLength in
  let '(currentT, g) := Math_random g in
  let '(r, g) := Math_random g in
  let baseSpeedRandomness := (1#2) + r * 1 in
  let speed := o_speedFactor * baseSpeedRandomness in
  let '(r, g) := Math_random g in
  let lifecycleOffset := r * lifecycle_randomOffset params in
  let '(scatterOffset, g) := randomScatter o_scatterRadius g in
  let headPosition := Float32Array 3 in
  let initialPos := add (getPointAt path currentT) scatterOffset in
  let headPosition := toArray initialPos headPosition 0 in
  let tailPositions := Float32Array (tailLength * 3) in
  let tailFades := Float32Array tailLength in
  let '(tailPositions, tailFades) :=
    for_up tailLength (fun '(tailPositions, tailFades) i =>
      (toArray initialPos tailPositions (i * 3),
       write tailFades i (ramp tailLength i)))
      (tailPositions, tailFades) in
  let numExtraLines := Z.to_nat (Math_floor (o_tailWidth * 2)) in
  let wideTailMeshes :=
    if (0 <? numExtraLines)%nat then
      for_up numExtraLines (fun wideTailMeshes i =>
        let v := offsetVector numExtraLines i in
        let positions := tailPositions in
        let positions :=
          for_up ((length positions + 2) / 3)%nat (fun positions k =>
            let j := (k * 3)%nat in
            let positions := write positions j (read positions j + x v) in
            write positions (j + 1) (read positions (j + 1) + y v))
            positions in
        wideTailMeshes ++
          [mkWideTail positions (css o_color)
             (o_glowIntensity * (1 - num i / num numExtraLines * (1#2))) 1])
        []
    else [] in
  (mk path tailLength currentT baseSpeedRandomness speed lifecycleOffset
      scatterOffset headPosition tailPositions tailFades
      (css o_color) 1 (css o_color) o_glowIntensity 1 wideTailMeshes, g).

(** [updateTailGeometry] on the position array of a geometry. *)
Definition updateTailGeometry (path : Curve) (tailLength : nat)
    (currentT : Q) (scatterOffset : Vector3)
    (positions : list Q) (tailSegmentLength : Q) (offsetVector : Vector3) : list Q :=
  for_up tailLength (fun positions i =>
    let t := currentT - num i * tailSegmentLength in
    let t := rem1 (rem1 t + 1) in
    let posOnCurve := add (getPointAt path t) scatterOffset in
    let posOnCurve := add posOnCurve offsetVector in
    toArray posOnCurve positions (i * 3))
    positions.

Definition update `{Trig} (params : Params) (p : t) (g : Rng) : t * Rng :=
  let speed := comet_speedFactor params * baseSpeedRandomness p in
  let currentT := currentT p + speed in
  let '(currentT, scatterOffset, g) :=
    if geb currentT 1 then
      let '(scatterOffset, g) := randomScatter (particleScatterRadius params) g in
      (0, scatterOffset, g)
    else (currentT, scatterOffset p, g) in
  let headPos := add (getPointAt (path p) currentT) scatterOffset in
  let headPosition := toArray headPos (headPosition p) 0 in
  let tailSegmentLength := speed * (95#100) in
  let tailPositions :=
    updateTailGeometry (path p) (tailLength p) currentT scatterOffset
      (tailPositions p) tailSegmentLength (mkVector3 0 0 0) in
  let wideTailMeshes :=
    if (0 <? length (wideTailMeshes p))%nat then
      let numExtraLines := length (wideTailMeshes p) in
      imap (fun i mesh =>
              mkWideTail
                (updateTailGeometry (path p) (tailLength p) currentT scatterOffset
                   (w_positions mesh) tailSegmentLength (offsetVector numExtraLines i))
                (w_cometColor mesh) (w_glowIntensity mesh) (w_lifecycleAlpha mesh))
           (wideTailMeshes p)
    else wideTailMeshes p in
  (mk (path p) (tailLength p) currentT (baseSpeedRandomness p) speed
      (lifecycleOffset p) scatterOffset headPosition tailPositions (tailFades p)
      (headMaterial_cometColor p) (headMaterial_lifecycleAlpha p)
      (tailMaterial_cometColor p) (tailMaterial_glowIntensity p)
      (tailMaterial_lifecycleAlpha p) wideTailMeshes, g).

Definition with_lifecycleAlpha (p : t) (a : Q) : t :=
  mk (path p) (tailLength p) (currentT p) (baseSpeedRandomness p) (speed p)
     (lifecycleOffset p) (scatterOffset p) (headPosition p) (tailPositions p)
     (tailFades p) (headMaterial_cometColor p) a
     (tailMaterial_cometColor p) (tailMaterial_glowIntensity p) a
     (map (fun mesh =>
             mkWideTail (w_positions mesh) (w_cometColor mesh) (w_glowIntensity mesh) a)
          (wideTailMeshes p)).

Definition with_cometColor (p : t) (c : Color) : t :=
  mk (path p) (tailLength p) (currentT p) (baseSpeedRandomness p) (speed p)
     (lifecycleOffset p) (scatterOffset p) (headPosition p) (tailPositions p)
     (tailFades p) c (headMaterial_lifecycleAlpha p)
     c (tailMaterial_glowIntensity p) (tailMaterial_lifecycleAlpha p)
     (wideTailMeshes p).

End Comet.

#[export] Instance Comet_Particle : Particle Comet.t :=
  {| lifecycleOffset_of := Comet.lifecycleOffset;
     currentT_of := Comet.currentT |}.

(** ** [CometParticleSystem] *)

Module CometParticleSystem.

(** The body of the [forEach] in [update], for one particle: the same
    alpha goes to the head, the tail and every extra tail line. *)
Definition update_particle `{Trig} (params : Params) (p : Comet.t) (g : Rng)
    : Comet.t * Rng :=
  let '(p, g) := Comet.update params p g in
  if lifecycle_enabled params then
    let lifecycleAlpha := calculateLifecycleAlpha params p in
    (Comet.with_lifecycleAlpha p lifecycleAlpha, g)
  else (p, g).

Definition update `{Trig} (params : Params) (particles : list Comet.t) (g : Rng)
    : list Comet.t * Rng :=
  fold_left (fun '(done, g) p =>
               let '(p, g) := update_particle params p g in (done ++ [p], g))
            particles ([], g).

(** The colour [setCometColor] copies into the head and tail materials.
    An index outside the palette would read [undefined], for which
    [new THREE.Color] keeps its default, white. *)
Definition setCometColor (params : Params) (comet : Comet.t) (g : Rng)
    : Comet.t * Rng :=
  let '(color, g) :=
    match currentTheme params with
    | light => (hex 26316, g)
    | dark =>
      match comet_colorMode params with
      | rainbow =>
        let '(r, g) := Math_random g in (hsl r (8#10) (6#10), g)
      | single => (css (comet_cometColor params), g)
      | palette =>
        let activePalette := activePalette params in
        if (0 <? length activePalette)%nat then
          let '(r, g) := Math_random g in
          match activePalette !! randomIndex r activePalette with
          | Some c => (css c, g)
          | None => (hex 16777215, g)
          end
        else (css (comet_cometColor params), g)
      | otherMode => (css (comet_cometColor params), g)
      end
    end in
  (Comet.with_cometColor comet color, g).

End CometParticleSystem.

(** ** The Viviani path generator, over the reals *)

Module Viviani.

Local Open Scope R_scope.

Record Point := mkPoint { px : R; py : R; pz : R }.

(** The body of the loop of [createVivianiCurvePoints] at parameter [t]. *)
Definition pointAt (a t : R) : Point :=
  let x := a * (1 + cos t) in
  let y := a * sin t in
  let z := 2 * a * sin (t / 2) in
  mkPoint x y z.

(** The curve parameter of sample [i]. *)
Definition parameter (numPoints i : nat) : R :=
  let tMax := 4 * PI in
  (INR i / INR numPoints) * tMax.

Definition createVivianiCurvePoints (a : R) (numPoints : nat) : list Point :=
  fold_left (fun points i => points ++ [pointAt a (parameter numPoints i)])
            (seq 0 (numPoints + 1)) [].

End Viviani.

(** ** Specification-side definitions *)

(** Clamping to [0, 1]. *)
Definition clamp01 (a : Q) : Q :=
  if Qlt_le_dec a 0 then 0 else if Qlt_le_dec 1 a then 1 else a.

(** The fade-in / hold / fade-out function of the lifecycle position, as
    the specification words it. *)
Definition lifecycleAlphaSpec (fadeIn stable fadeOut p : Q) : Q :=
  clamp01
    (if Qlt_le_dec p fadeIn then p / fadeIn
     else if Qlt_le_dec p (fadeIn + stable) then 1
     else 1 - (p - fadeIn - stable) / fadeOut).

(** [x mod 1] in the mathematical sense. *)
Definition mod1 (x : Q) : Q := x - inject_Z (Qfloor x).

(** The open-path seam multiplier, as the specification words it: a ramp
    to 0 over the last [fadeOut] fraction of the loop, a ramp from 0 over
    the first [fadeIn] fraction after a reset, 1 elsewhere. *)
Definition seamFactor (fadeIn fadeOut : Q) (justReset : bool) (currentT : Q) : Q :=
  if Qlt_le_dec (1 - fadeOut) currentT then 1 - (currentT - (1 - fadeOut)) / fadeOut
  else if justReset && ltb currentT fadeIn then currentT / fadeIn
  else 1.

(** A spark of the pool, gathered from the four parallel arrays. *)
Record Spark := mkSpark {
  position : Vector3;
  size : Q;
  life : Q;
  velocity : Vector3
}.

Definition sparkAt (s : WeldingSpark.Pool) (i : nat) : Spark :=
  mkSpark (sample (WeldingSpark.p_positions s) i)
          (read (WeldingSpark.p_sizes s) i)
          (read (WeldingSpark.p_sparkLives s) i)
          (WeldingSpark.at_ (WeldingSpark.p_velocities s) i).

(** The sparks in the first [n] slots, in slot order. *)
Definition prefix (s : WeldingSpark.Pool) (n : nat) : list Spark :=
  map (sparkAt s) (seq 0 n).

Definition liveSparks (p : WeldingSpark.t) : list Spark :=
  prefix (WeldingSpark.pool p) (WeldingSpark.activeParticles p).

(** One tick of one spark for the draw [r]: it loses life; if some is
    left it falls, moves and shrinks, otherwise it is gone. *)
Definition age (r : Q) (s : Spark) : option Spark :=
  let life := life s - ((3#100) + r * (2#100)) in
  if gtb life 0 then
    let v := mkVector3 (x (velocity s)) (y (velocity s) - (1#1000)) (z (velocity s)) in
    Some (mkSpark (add (position s) v) (size s * (98#100)) life v)
  else None.

(** The sparks that outlive a tick, in their old order; spark [i] uses
    draw [c + i]. *)
Fixpoint survivors (draws : nat -> Q) (c : nat) (l : list Spark) : list Spark :=
  match l with
  | [] => []
  | s :: l' =>
    match age (draws c) s with
    | Some s' => s' :: survivors draws (S c) l'
    | None => survivors draws (S c) l'
    end
  end.

(** Removal by swapping the last live spark into the freed slot, as the
    specification words it; [n] is the number of slots still to visit. *)
Fixpoint swapRemoval (n : nat) (draws : nat -> Q) (c : nat) (i : nat) (l : list Spark)
    : list Spark :=
  match n with
  | O => l
  | S n' =>
    match l !! i with
    | None => l
    | Some s =>
      match age (draws c) s with
      | Some s' => swapRemoval n' draws (S c) (S i) (<[i:=s']> l)
      | None =>
        let l' := match last l with
                  | Some t => take (length l - 1) (<[i:=t]> l)
                  | None => l
                  end in
        swapRemoval n' draws (S c) i l'
      end
    end
  end.

(** Sequences of calls on a [WeldingSpark]. *)
Inductive Call := callEmitSparks | callUpdate.

Definition call `{Trig} (params : Params) (c : Call) (p : WeldingSpark.t) (g : Rng)
    : WeldingSpark.t * Rng :=
  match c with
  | callEmitSparks => WeldingSpark.emitSparks params p g
  | callUpdate => WeldingSpark.update params p g
  end.

Fixpoint calls `{Trig} (params : nat -> Params) (cs : list Call) (p : WeldingSpark.t) (g : Rng)
    : WeldingSpark.t * Rng :=
  match cs with
  | [] => (p, g)
  | c :: cs' =>
    let '(p, g) := call (params 0%nat) c p g in
    calls (fun n => params (S n)) cs' p g
  end.

(** ** [createLorenzAttractorPoints] *)

(** One Euler step of the Lorenz equations. *)
Definition lorenzStep (sigma rho beta timeStep : Q) (s : Vector3) : Vector3 :=
  let dx := sigma * (y s - x s) in
  let dy := x s * (rho - z s) - y s in
  let dz := x s * y s - beta * z s in
  mkVector3 (x s + dx * timeStep) (y s + dy * timeStep) (z s + dz * timeStep).

(** The point pushed for a state: the second and third axes swapped, all
    three scaled. *)
Definition lorenzPoint (scale : Q) (s : Vector3) : Vector3 :=
  mkVector3 (x s * scale) (z s * scale) (y s * scale).

Definition createLorenzAttractorPoints (sigma rho beta scale timeStep : Q)
    (numPoints : nat) : list Vector3 :=
  snd (for_up numPoints
         (fun '(s, points) _ =>
            let s := lorenzStep sigma rho beta timeStep s in
            (s, points ++ [lorenzPoint scale s]))
         (mkVector3 1 1 1, [])).

(** ** [createJugglingPatternPoints], over the reals *)

Module Juggling.

Local Open Scope R_scope.

(** The body of the loop at parameter [t]. *)
Definition pointAt (width height centerY t : R) : Viviani.Point :=
  let x := (width * sin t) / (1 + cos t * cos t) in
  let y := (height * sin t * cos t) / (1 + cos t * cos t) + centerY in
  let z := 0 in
  Viviani.mkPoint x y z.

(** The curve parameter of sample [i]. *)
Definition parameter (numPoints i : nat) : R :=
  (INR i / INR numPoints) * 4 * PI.

Definition createJugglingPatternPoints (balls throwHeight handSeparation throwAngle
    gravity scale : R) (numPoints : nat) (pattern : string) : list Viviani.Point :=
  let width := handSeparation * scale in
  let height := throwHeight * scale in
  let centerY := height * (4 / 10) in
  fold_left (fun points i => points ++ [pointAt width height centerY (parameter numPoints i)])
            (seq 0 (numPoints + 1)) [].

End Juggling.

(** ** [ParticleSystem]: the manager as a whole

    The three subclasses as the cases of one type.  [dispose] only frees
    Three.js objects, so [clear] is the emptying of the list. *)

(** The fields of [params] that the constructors only hand to a shader
    uniform. *)
Record ShaderParams := mkShaderParams {
  weldingSpark_sparkHeat : Q;
  comet_glowIntensity : Q
}.

Module ParticleSystem.

Inductive t :=
| GlowParticleSystem (particles : list GlowParticle.t)
| WeldingSparkParticleSystem (particles : list WeldingSpark.t)
| CometParticleSystem (particles : list Comet.t).

(** [ParticleSystem.create]: the new manager, and whether [console.warn]
    was called. *)
Definition create (type : string) : t * bool :=
  if String.eqb type "glow" then (GlowParticleSystem [], false)
  else if String.eqb type "weldingSpark" then (WeldingSparkParticleSystem [], false)
  else if String.eqb type "comet" then (CometParticleSystem [], false)
  else (GlowParticleSystem [], true).

(** The [type] member the constructor of each subclass sets. *)
Definition type (s : t) : string :=
  match s with
  | GlowParticleSystem _ => "glow"
  | WeldingSparkParticleSystem _ => "weldingSpark"
  | CometParticleSystem _ => "comet"
  end.

Definition count (s : t) : nat :=
  match s with
  | GlowParticleSystem particles => length particles
  | WeldingSparkParticleSystem particles => length particles
  | CometParticleSystem particles => length particles
  end.

Definition clear (s : t) : t :=
  match s with
  | GlowParticleSystem _ => GlowParticleSystem []
  | WeldingSparkParticleSystem _ => WeldingSparkParticleSystem []
  | CometParticleSystem _ => CometParticleSystem []
  end.

(** [createParticles] of each subclass: [numParticles] pushes. *)
Definition createParticles `{Trig} (params : Params) (shader : ShaderParams)
    (curvePath : Curve) (s : t) (g : Rng) : t * Rng :=
  match s with
  | GlowParticleSystem particles =>
    let '(particles, g) :=
      for_up (numParticles params)
        (fun '(particles, g) _ =>
           let '(p, g) :=
             GlowParticle.constructor params curvePath (glow_trailLength params)
               (glow_speedFactor params) (glow_boldness params)
               (particleScatterRadius params) g in
           (particles ++ [p], g))
        (particles, g) in
    (GlowParticleSystem particles, g)
  | WeldingSparkParticleSystem particles =>
    let '(particles, g) :=
      for_up (numParticles params)
        (fun '(particles, g) _ =>
           let '(p, g) :=
             WeldingSpark.constructor params curvePath (weldingSpark_trailLength params)
               (weldingSpark_speedFactor params) (weldingSpark_sparkHeat shader)
               (particleScatterRadius params) g in
           (particles ++ [p], g))
        (particles, g) in
    (WeldingSparkParticleSystem particles, g)
  | CometParticleSystem particles =>
    let '(particles, g) :=
      for_up (numParticles params)
        (fun '(particles, g) _ =>
           let '(p, g) :=
             Comet.constructor params curvePath (comet_tailLength params)
               (comet_tailWidth params) (comet_glowIntensity shader)
               (comet_speedFactor params) (particleScatterRadius params)
               (comet_cometColor params) g in
           (particles ++ [p], g))
        (particles, g) in
    (CometParticleSystem particles, g)
  end.

Definition init `{Trig} (params : Params) (shader : ShaderParams)
    (curvePath : Curve) (s : t) (g : Rng) : t * Rng :=
  createParticles params shader curvePath (clear s) g.

Definition update `{Trig} (params : Params) (s : t) (g : Rng) : t * Rng :=
  match s with
  | GlowParticleSystem particles =>
    let '(particles, g) := GlowParticleSystem.update params particles g in
    (GlowParticleSystem particles, g)
  | WeldingSparkParticleSystem particles =>
    let '(particles, g) := WeldingSparkParticleSystem.update params particles g in
    (WeldingSparkParticleSystem particles, g)
  | CometParticleSystem particles =>
    let '(particles, g) := CometParticleSystem.update params particles g in
    (CometParticleSystem particles, g)
  end.

(** [updateColors]: a [forEach] of the colour setter for glow particles
    and comets, nothing for welding sparks. *)
Definition updateColors (params : Params) (s : t) (g : Rng) : t * Rng :=
  match s with
  | GlowParticleSystem particles =>
    let '(particles, g) :=
      fold_left (fun '(done, g) p =>
                   let '(p, g) := GlowParticleSystem.setParticleColor params p g in
                   (done ++ [p], g))
                particles ([], g) in
    (GlowParticleSystem particles, g)
  | WeldingSparkParticleSystem particles => (WeldingSparkParticleSystem particles, g)
  | CometParticleSystem particles =>
    let '(particles, g) :=
      fold_left (fun '(done, g) p =>
                   let '(p, g) := CometParticleSystem.setCometColor params p g in
                   (done ++ [p], g))
                particles ([], g) in
    (CometParticleSystem particles, g)
  end.

End ParticleSystem.

(** ** [CometParticleSystem.updateCometParams]

    The uniforms the comet record holds (the glow intensity of the tail and
    of every extra line) are rewritten from the configuration; the other
    uniforms it writes are plain copies and are left out.  The result is
    [None] when [recreateSystem] is called: that call empties the array the
    [forEach] is walking, so no later comet is visited, and the comets are
    replaced by new ones. *)

Definition updateCometParams_each (params : Params) (shader : ShaderParams)
    (p : Comet.t) : option Comet.t :=
  let glowIntensity := comet_glowIntensity shader in
  let targetExtraLines := Math_floor (comet_tailWidth params * 2) in
  let lines := length (Comet.wideTailMeshes p) in
  if (2 <? Z.abs (targetExtraLines - Z.of_nat lines))%Z then None
  else
    let wideTailMeshes :=
      imap (fun i mesh =>
              let intensityFactor := 1 - num i / num lines * (1#2) in
              Comet.mkWideTail (Comet.w_positions mesh) (Comet.w_cometColor mesh)
                (glowIntensity * intensityFactor) (Comet.w_lifecycleAlpha mesh))
           (Comet.wideTailMeshes p) in
    Some (Comet.mk (Comet.path p) (Comet.tailLength p) (Comet.currentT p)
            (Comet.baseSpeedRandomness p) (Comet.speed p) (Comet.lifecycleOffset p)
            (Comet.scatterOffset p) (Comet.headPosition p) (Comet.tailPositions p)
            (Comet.tailFades p) (Comet.headMaterial_cometColor p)
            (Comet.headMaterial_lifecycleAlpha p) (Comet.tailMaterial_cometColor p)
            glowIntensity (Comet.tailMaterial_lifecycleAlpha p) wideTailMeshes).

Fixpoint updateCometParams (params : Params) (shader : ShaderParams)
    (particles : list Comet.t) : option (list Comet.t) :=
  match particles with
  | [] => Some []
  | p :: rest =>
    match updateCometParams_each params shader p with
    | None => None
    | Some p =>
      match updateCometParams params shader rest with
      | None => None
      | Some rest => Some (p :: rest)
      end
    end
  end.

(** ** [recreateSystem]: the choice of the path

    The first half of [recreateSystem]: the points handed to
    [THREE.CatmullRomCurve3], the camera target and the closed flag, by
    [params.curveType].  The path generators with [cos] and [sin] are over
    the reals; the Lorenz points, which are rationals, are read as reals. *)

Record PathParams := mkPathParams {
  curveType : string;
  vivianiA : R;
  lorenz_sigma : Q;
  lorenz_rho : Q;
  lorenz_beta : Q;
  lorenz_scale : Q;
  lorenz_timeStep : Q;
  lorenz_numPoints : nat;
  juggling_balls : R;
  juggling_throwHeight : R;
  juggling_handSeparation : R;
  juggling_throwAngle : R;
  juggling_gravity : R;
  juggling_scale : R;
  juggling_numPoints : nat;
  juggling_pattern : string
}.

Record Path := mkPath {
  curvePoints : list Viviani.Point;
  curveCenter : Viviani.Point;
  isCurveClosed : bool
}.

Definition asReal (v : Vector3) : Viviani.Point :=
  Viviani.mkPoint (Q2R (x v)) (Q2R (y v)) (Q2R (z v)).

Definition recreateSystem_path (params : PathParams) : Path :=
  if String.eqb (curveType params) "lorenz" then
    let curvePoints :=
      createLorenzAttractorPoints (lorenz_sigma params) (lorenz_rho params)
        (lorenz_beta params) (lorenz_scale params) (lorenz_timeStep params)
        (lorenz_numPoints params) in
    let visualCenterY := (lorenz_rho params - 1) * lorenz_scale params in
    mkPath (asReal <$> curvePoints) (asReal (mkVector3 0 visualCenterY 0)) false
  else if String.eqb (curveType params) "juggling" then
    let curvePoints :=
      Juggling.createJugglingPatternPoints (juggling_balls params)
        (juggling_throwHeight params) (juggling_handSeparation params)
        (juggling_throwAngle params) (juggling_gravity params) (juggling_scale params)
        (juggling_numPoints params) (juggling_pattern params) in
    mkPath curvePoints
      (Viviani.mkPoint 0%R (juggling_throwHeight params * (4 / 10))%R 0%R) true
  else
    let curvePoints := Viviani.createVivianiCurvePoints (vivianiA params) 256 in
    mkPath curvePoints (Viviani.mkPoint (vivianiA params) 0%R 0%R) true.

(** ** The earlier engine: class [Particle]

    The second document of [js/main.js] is the engine before the particle
    types were split.  Its one class [Particle] lays its trail along the
    path again when it wraps, and takes a new colour there.  Its settings
    [particleTrailLength] and [particleSpeedFactor] are arguments here; the
    other settings it reads have the names they have in [Params]. *)

Module Legacy.

Record t := mk {
  path : Curve;
  trailLength : nat;
  currentT : Q;
  baseSpeedRandomness : Q;
  speed : Q;
  scatterOffset : Vector3;
  trailPositions : list Q;
  trailAlphas : list Q;
  color : Color
}.

Definition with_color (p : t) (c : Color) : t :=
  mk (path p) (trailLength p) (currentT p) (baseSpeedRandomness p) (speed p)
     (scatterOffset p) (trailPositions p) (trailAlphas p) c.

(** The top-level [setParticleColor]: no theme yet. *)
Definition setParticleColor (params : Params) (particle : t) (g : Rng) : t * Rng :=
  match colorMode params with
  | rainbow =>
    let '(r, g) := Math_random g in
    (with_color particle (hsl r (7#10) (6#10)), g)
  | single => (with_color particle (css (singleColorValue params)), g)
  | palette =>
    let activePalette := activePalette params in
    if (0 <? length activePalette)%nat then
      let '(r, g) := Math_random g in
      match activePalette !! randomIndex r activePalette with
      | Some c => (with_color particle (css c), g)
      | None => (particle, g)
      end
    else (with_color particle (css "#ffffff"), g)
  | otherMode =>
    let '(r, g) := Math_random g in
    (with_color particle (hsl r (7#10) (6#10)), g)
  end.

Definition constructor (params : Params) (particleTrailLength : nat)
    (particleSpeedFactor : Q) (path : Curve) (g : Rng) : t * Rng :=
  let trailLength := particleTrailLength in
  let '(currentT, g) := Math_random g in
  let '(r, g) := Math_random g in
  let baseSpeedRandomness := (1#2) + r * 1 in
  let speed := particleSpeedFactor * baseSpeedRandomness in
  let '(scatterOffset, g) := randomScatter (particleScatterRadius params) g in
  let trailPositions := Float32Array (trailLength * 3) in
  let trailAlphas := Float32Array trailLength in
  let segmentDeltaT := 1#1000 in
  let '(trailPositions, trailAlphas) :=
    for_up trailLength (fun '(trailPositions, trailAlphas) i =>
      let t := currentT - num i * segmentDeltaT in
      let t := rem1 (rem1 t + 1) in
      let posOnCurve := getPointAt path t in
      let scatteredPos := add posOnCurve scatterOffset in
      (toArray scatteredPos trailPositions (i * 3),
       write trailAlphas i (ramp trailLength i)))
      (trailPositions, trailAlphas) in
  let trailAlphas :=
    if (0 <? trailLength)%nat then write trailAlphas 0 1 else trailAlphas in
  setParticleColor params
    (mk path trailLength currentT baseSpeedRandomness speed scatterOffset
        trailPositions trailAlphas (hex 16777215)) g.

Definition update (params : Params) (particleSpeedFactor : Q) (p : t) (g : Rng)
    : t * Rng :=
  let speed := particleSpeedFactor * baseSpeedRandomness p in
  let currentT := currentT p + speed in
  let positions := trailPositions p in
  let alphas := trailAlphas p in
  let '(currentT, scatterOffset, color, positions, g) :=
    if geb currentT 1 then
      let currentT := 0 in
      let '(recoloured, g) := setParticleColor params p g in
      let '(scatterOffset, g) := randomScatter (particleScatterRadius params) g in
      let tempSegmentDeltaT := 1#1000 in
      let positions :=
        for_up (trailLength p) (fun positions i =>
          let tForSegment := currentT - num i * tempSegmentDeltaT in
          let tForSegment := rem1 (rem1 tForSegment + 1) in
          let posOnCurve := getPointAt (path p) tForSegment in
          let scatteredPos := add posOnCurve scatterOffset in
          toArray scatteredPos positions (i * 3))
          positions in
      (currentT, scatterOffset, color recoloured, positions, g)
    else
      let posOnCurve := getPointAt (path p) currentT in
      let newHeadPos := add posOnCurve (scatterOffset p) in
      let positions := for_down (trailLength p) GlowParticle.shift positions in
      let positions := toArray newHeadPos positions 0 in
      (currentT, scatterOffset p, color p, positions, g) in
  let alphas :=
    for_up (trailLength p) (fun alphas i => write alphas i (ramp (trailLength p) i))
      alphas in
  let alphas := if (0 <? trailLength p)%nat then write alphas 0 1 else alphas in
  let alphas :=
    if (trailLength p <=? 1)%nat && (0 <? length alphas)%nat
    then write alphas 0 1 else alphas in
  (mk (path p) (trailLength p) currentT (baseSpeedRandomness p) speed
      scatterOffset positions alphas color, g).

(** [initParticles], after [clearParticles]. *)
Definition initParticles (params : Params) (particleTrailLength : nat)
    (particleSpeedFactor : Q) (curvePath : Curve) (g : Rng) : list t * Rng :=
  for_up (numParticles params)
    (fun '(particles, g) _ =>
       let '(p, g) := constructor params particleTrailLength particleSpeedFactor curvePath g in
       (particles ++ [p], g))
    ([], g).

End Legacy.

(** A particle of the earlier engine and a glow particle that are at the
    same place with the same trail. *)
Definition sameTrail (p : Legacy.t) (q : GlowParticle.t) : Prop :=
  Legacy.path p = GlowParticle.path q /\
  Legacy.trailLength p = GlowParticle.trailLength q /\
  Legacy.currentT p = GlowParticle.currentT q /\
  Legacy.baseSpeedRandomness p = GlowParticle.baseSpeedRandomness q /\
  Legacy.speed p = GlowParticle.speed q /\
  Legacy.scatterOffset p = GlowParticle.scatterOffset q /\
  Legacy.trailPositions p = GlowParticle.trailPositions q /\
  Legacy.trailAlphas p = GlowParticle.trailAlphas q.

(** The buffers of a comet have the lengths the constructor gave them. *)
Definition cometWf (p : Comet.t) : Prop :=
  length (Comet.headPosition p) = 3%nat /\
  length (Comet.tailPositions p) = (Comet.tailLength p * 3)%nat /\
  length (Comet.tailFades p) = Comet.tailLength p /\
  Forall (fun mesh => length (Comet.w_positions mesh) = (Comet.tailLength p * 3)%nat)
         (Comet.wideTailMeshes p).

(** [((t % 1) + 1) % 1]: the wrap of a curve parameter into [0, 1). *)
Definition wrap (t : Q) : Q := rem1 (rem1 t + 1).

(** A spark as an emission leaves it: at the emission point, with full
    life and a size between 0.2 and 1 times the configured spark size. *)
Definition newborn (params : Params) (origin : Vector3) (sp : Spark) : Prop :=
  position sp = origin /\ life sp = 1 /\
  (2 # 10) * weldingSpark_sparkSize params <= size sp /\
  size sp <= weldingSpark_sparkSize params.

(** A spark one tick older: it has lost between 0.03 and 0.05 of life and
    still has some, it has shrunk by the factor 0.98, its velocity has
    fallen by 0.001 and has been added to its position. *)
Definition aged (old new : Spark) : Prop :=
  life old - (5 # 100) < life new /\ life new <= life old - (3 # 100) /\ 0 < life new /\
  size new = size old * (98 # 100) /\
  velocity new =
    mkVector3 (x (velocity old)) (y (velocity old) - (1 # 1000)) (z (velocity old)) /\
  position new = add (position old) (velocity new).

(** ** Sample inputs *)

(** A stand-in for the [Trig] interface, to run the examples; the theorems
    hold for every instance. *)
Definition demoTrig : Trig :=
  {| Math_cos := fun _ => 1; Math_sin := fun _ => 0; Math_PI := 355 # 113;
     normalize := fun v => v |}.

(** The defaults of [params], but for the lifecycle switch, the theme, the
    two colour modes and the five palette checkboxes. *)
Definition configure (enabled : bool) (theme : Theme) (glowMode cometMode : ColorMode)
    (e1 e2 e3 e4 e5 : bool) (cometColor : string) : Params :=
  {| numParticles := 406; particleScatterRadius := 11 # 10;
     lifecycle_enabled := enabled; lifecycle_fadeInTime := 9 # 100;
     lifecycle_stableTime := 9 # 10; lifecycle_fadeOutTime := 2 # 10;
     lifecycle_randomOffset := 1; currentTheme := theme;
     glow_trailLength := 22; glow_speedFactor := 7 # 10000; glow_boldness := 1;
     weldingSpark_trailLength := 16; weldingSpark_speedFactor := 6 # 1000;
     weldingSpark_sparkSize := 1 # 2; weldingSpark_pathFollowing := 7 # 10;
     comet_tailLength := 20; comet_tailWidth := 8 # 10;
     comet_speedFactor := 5 # 1000; comet_colorMode := cometMode;
     comet_cometColor := cometColor;
     colorMode := glowMode; singleColorValue := "#ffffff";
     paletteColor1 := "#667fff"; paletteColor1Enabled := e1;
     paletteColor2 := "#734ef9"; paletteColor2Enabled := e2;
     paletteColor3 := "#ffc21a"; paletteColor3Enabled := e3;
     paletteColor4 := "#b39eff"; paletteColor4Enabled := e4;
     paletteColor5 := "#007bff"; paletteColor5Enabled := e5 |}.

(** The defaults of [params]. *)
Definition demoParams : Params :=
  configure true dark palette single true true true true true "#80ffff".

(** An open curve: a straight segment along the first axis. *)
Definition demoCurve : Curve :=
  {| getPointAt := fun t => mkVector3 (10 * t) 0 0;
     getTangentAt := fun _ => mkVector3 1 0 0;
     closed := false |}.

(** A stream whose first draw is 9/10, third 2/10, all others 1/2. *)
Definition demoRng : Rng :=
  mkRng (fun n => match n with
                  | 0%nat => 9 # 10
                  | 2%nat => 2 # 10
                  | _ => 1 # 2
                  end) 0.

Definition demoGlow : GlowParticle.t :=
  fst (GlowParticle.constructor demoParams demoCurve 3 (7 # 10000) 1 (11 # 10) demoRng).

(** A stream whose first draw is 9999/10000, all others 1/2. *)
Definition demoRngLate : Rng :=
  mkRng (fun n => match n with
                  | 0%nat => 9999 # 10000
                  | _ => 1 # 2
                  end) 0.

(** A glow particle with three trail samples, one tick before its wrap. *)
Definition demoGlowLate : GlowParticle.t :=
  fst (GlowParticle.constructor demoParams demoCurve 3 (7 # 10000) 1 (11 # 10) demoRngLate).

(** A comet and a welding spark on the open curve, built by their
    constructors: [currentT] is 9/10 and [lifecycleOffset] is 2/10. *)
Definition demoComet : Comet.t :=
  fst (@Comet.constructor demoTrig demoParams demoCurve 2 (8 # 10) (8 # 10) (5 # 1000)
         (11 # 10) "#80ffff" demoRng).

Definition demoSpark : WeldingSpark.t :=
  fst (@WeldingSpark.constructor demoTrig demoParams demoCurve 1 (6 # 1000) (8 # 10)
         (11 # 10) demoRng).

(** A stream whose every draw is 9/10. *)
Definition demoRngHigh : Rng := mkRng (fun _ => 9 # 10) 0.

(** A stream whose every draw is 1/2. *)
Definition demoRngHalf : Rng := mkRng (fun _ => 1 # 2) 0.

(** A welding spark with three slots, all live: the oldest spark, in slot
    0, is about to expire. *)
Definition demoPool : WeldingSpark.t :=
  WeldingSpark.mk demoCurve 1 (1 # 10) 1 (6 # 1000) 0 (mkVector3 0 0 0)
    (Float32Array 9) [1; 1; 1] [1 # 100; 6 # 10; 8 # 10]
    [mkVector3 0 0 0; mkVector3 0 0 0; mkVector3 0 0 0] 3 3 (8 # 10) 1.

(** The defaults of the path parameters, for a curve type. *)
Definition demoPathParams (curveType : string) : PathParams :=
  {| curveType := curveType; vivianiA := 5;
     lorenz_sigma := 95 # 10; lorenz_rho := 262 # 10; lorenz_beta := 25 # 10;
     lorenz_scale := 1; lorenz_timeStep := 12 # 1000; lorenz_numPoints := 1600;
     juggling_balls := 4; juggling_throwHeight := 15;
     juggling_handSeparation := (39 / 10)%R; juggling_throwAngle := (41 / 100)%R;
     juggling_gravity := (93 / 10)%R; juggling_scale := (11 / 10)%R;
     juggling_numPoints := 1500; juggling_pattern := "3" |}.

(** A particle of the earlier engine one tick before the end of the path. *)
Definition demoLegacy : Legacy.t :=
  Legacy.mk demoCurve 2 (999 # 1000) 1 (4 # 1000) (mkVector3 0 0 0)
    (Float32Array 6) (Float32Array 2) (hex 16777215).

(** * Properties *)

(** ** Comparisons, [Math.max], [Math.min] *)

Lemma ltb_true (a b : Q) : ltb a b = true <-> a < b.
Proof.
  unfold ltb. destruct (Qlt_le_dec a b) as [Hlt | Hle]; split; intros; try easy.
  exfalso. apply (Qlt_irrefl a). eapply Qlt_le_trans; eauto.
Qed.

Lemma ltb_false (a b : Q) : ltb a b = false <-> b <= a.
Proof.
  unfold ltb. destruct (Qlt_le_dec a b) as [Hlt | Hle]; split; intros; try easy.
  exfalso. apply (Qlt_irrefl a). eapply Qlt_le_trans; eauto.
Qed.

Lemma geb_true (a b : Q) : geb a b = true <-> b <= a.
Proof. unfold geb. rewrite negb_true_iff. apply ltb_false. Qed.

Lemma geb_false (a b : Q) : geb a b = false <-> a < b.
Proof. unfold geb. rewrite negb_false_iff. apply ltb_true. Qed.

Lemma gtb_true (a b : Q) : gtb a b = true <-> b < a.
Proof. apply ltb_true. Qed.

Lemma gtb_false (a b : Q) : gtb a b = false <-> a <= b.
Proof. apply ltb_false. Qed.

(** Case analysis on a JavaScript comparison, leaving the order fact. *)
Ltac cmp a b :=
  let H := fresh "Hcmp" in
  destruct (ltb a b) eqn:H;
  [apply ltb_true in H | apply ltb_false in H]; cbv beta iota.

Lemma Math_clamp_range (a : Q) : 0 <= Math_max 0 (Math_min 1 a) /\ Math_max 0 (Math_min 1 a) <= 1.
Proof.
  unfold Math_max, Math_min. cmp a 1.
  - cmp 0 a; lra.
  - cmp 0 1; lra.
Qed.

Lemma Math_clamp_clamp01 (a : Q) : Math_max 0 (Math_min 1 a) == clamp01 a.
Proof.
  unfold Math_max, Math_min, clamp01. cmp a 1.
  - cmp 0 a; destruct (Qlt_le_dec a 0); try destruct (Qlt_le_dec 1 a); lra.
  - cmp 0 1; destruct (Qlt_le_dec a 0); try destruct (Qlt_le_dec 1 a); lra.
Qed.

Lemma clamp01_proper (a b : Q) : a == b -> clamp01 a == clamp01 b.
Proof.
  intros E. unfold clamp01.
  destruct (Qlt_le_dec a 0), (Qlt_le_dec b 0); try lra;
  destruct (Qlt_le_dec 1 a), (Qlt_le_dec 1 b); lra.
Qed.

Lemma Qdiv_0_l (a b : Q) : a == 0 -> a / b == 0.
Proof. intros E. unfold Qdiv. rewrite E. ring. Qed.


Lemma Qdiv_unit_range (a b : Q) : 0 < b -> 0 <= a -> a <= b -> 0 <= a / b /\ a / b <= 1.
Proof.
  intros Hb H0 H1. split.
  - apply Qle_shift_div_l; lra.
  - apply Qle_shift_div_r; lra.
Qed.

(** ** The remainder [x % 1] *)

Lemma rem1_mod1 (a : Q) : 0 <= a -> rem1 a = mod1 a.
Proof.
  intros Ha. unfold rem1, mod1, Qtrunc. destruct a as [n d]. cbn [Qnum Qden Qfloor].
  rewrite Z.quot_div_nonneg; [reflexivity | | reflexivity].
  unfold Qle in Ha. cbn in Ha. lia.
Qed.

Lemma mod1_range (a : Q) : 0 <= mod1 a /\ mod1 a < 1.
Proof.
  unfold mod1. pose proof (Qfloor_le a) as Hl. pose proof (Qlt_floor a) as Hu.
  rewrite inject_Z_plus in Hu. change (inject_Z 1) with 1 in Hu. split; lra.
Qed.

(** ** The lifecycle alpha *)

Lemma calculateLifecycleAlpha_enabled {P} `{Particle P} (params : Params) (particle : P) :
  lifecycle_enabled params = true ->
  calculateLifecycleAlpha params particle ==
  lifecycleAlphaSpec (lifecycle_fadeInTime params) (lifecycle_stableTime params)
    (lifecycle_fadeOutTime params) (lifecyclePos particle).
Proof.
  intros Hen. unfold calculateLifecycleAlpha, lifecycleAlphaSpec. rewrite Hen. cbn [negb].
  cbv zeta. rewrite Math_clamp_clamp01. apply clamp01_proper.
  cmp (lifecyclePos particle) (lifecycle_fadeInTime params);
    destruct (Qlt_le_dec (lifecyclePos particle) (lifecycle_fadeInTime params)); try lra.
  unfold geb.
  cmp (lifecyclePos particle) (lifecycle_fadeInTime params + lifecycle_stableTime params);
    destruct (Qlt_le_dec (lifecyclePos particle)
                (lifecycle_fadeInTime params + lifecycle_stableTime params));
    cbn [negb]; lra.
Qed.

Lemma calculateLifecycleAlpha_range {P} `{Particle P} (params : Params) (particle : P) :
  0 <= calculateLifecycleAlpha params particle /\
  calculateLifecycleAlpha params particle <= 1.
Proof.
  unfold calculateLifecycleAlpha. destruct (negb (lifecycle_enabled params)).
  - lra.
  - apply Math_clamp_range.
Qed.

(** C1.  With the lifecycle enabled and positive fade-in, stable and
    fade-out times, the alpha of a particle is the clamped piecewise
    function of its lifecycle position [p = (lifecycleOffset + currentT) % 1]:
    [p / fadeIn] below [fadeIn], 1 on the plateau, and
    [1 - (p - fadeIn - stable) / fadeOut] from [fadeIn + stable] on.  It is 0
    at [p = 0], 1 at [p = fadeIn] and at [p = fadeIn + stable], and always
    lies in [0, 1].  For a non-negative sum the position is the sum modulo 1
    and lies in [0, 1). *)
Theorem calculateLifecycleAlpha_piecewise {P} `{Particle P}
    (params : Params) (particle : P) :
  lifecycle_enabled params = true ->
  0 < lifecycle_fadeInTime params ->
  0 < lifecycle_stableTime params ->
  0 < lifecycle_fadeOutTime params ->
  let fadeIn := lifecycle_fadeInTime params in
  let stable := lifecycle_stableTime params in
  let fadeOut := lifecycle_fadeOutTime params in
  let p := lifecyclePos particle in
  let alpha := calculateLifecycleAlpha params particle in
  alpha == lifecycleAlphaSpec fadeIn stable fadeOut p /\
  (p < fadeIn -> alpha == clamp01 (p / fadeIn)) /\
  (fadeIn <= p -> p < fadeIn + stable -> alpha == 1) /\
  (fadeIn + stable <= p -> alpha == clamp01 (1 - (p - fadeIn - stable) / fadeOut)) /\
  (0 <= p -> p < fadeIn -> alpha == p / fadeIn) /\
  (fadeIn + stable <= p -> p <= fadeIn + stable + fadeOut ->
   alpha == 1 - (p - fadeIn - stable) / fadeOut) /\
  (p == 0 -> alpha == 0) /\
  (p == fadeIn -> alpha == 1) /\
  (p == fadeIn + stable -> alpha == 1) /\
  (0 <= alpha /\ alpha <= 1) /\
  (0 <= lifecycleOffset_of particle + currentT_of particle ->
   p = mod1 (lifecycleOffset_of particle + currentT_of particle) /\ 0 <= p /\ p < 1).
Proof.
  intros Hen Hin Hst Hout fadeIn stable fadeOut p alpha.
  assert (Hspec : alpha == lifecycleAlphaSpec fadeIn stable fadeOut p)
    by (apply calculateLifecycleAlpha_enabled; exact Hen).
  change (0 < fadeIn) in Hin. change (0 < stable) in Hst. change (0 < fadeOut) in Hout.
  clearbody fadeIn stable fadeOut.
  assert (Hlow : p < fadeIn -> alpha == clamp01 (p / fadeIn)).
  { intros Hp. rewrite Hspec. unfold lifecycleAlphaSpec.
    destruct (Qlt_le_dec p fadeIn); [reflexivity | lra]. }
  assert (Hmid : fadeIn <= p -> p < fadeIn + stable -> alpha == 1).
  { intros Hp1 Hp2. rewrite Hspec. unfold lifecycleAlphaSpec.
    destruct (Qlt_le_dec p fadeIn); [lra |].
    destruct (Qlt_le_dec p (fadeIn + stable)); [| lra].
    unfold clamp01. destruct (Qlt_le_dec 1 0); [lra |].
    destruct (Qlt_le_dec 1 1); lra. }
  assert (Hhigh : fadeIn + stable <= p ->
                  alpha == clamp01 (1 - (p - fadeIn - stable) / fadeOut)).
  { intros Hp. rewrite Hspec. unfold lifecycleAlphaSpec.
    destruct (Qlt_le_dec p fadeIn); [lra |].
    destruct (Qlt_le_dec p (fadeIn + stable)); [lra | reflexivity]. }
  assert (Hid : forall a, 0 <= a -> a <= 1 -> clamp01 a == a).
  { intros a H0 H1. unfold clamp01.
    destruct (Qlt_le_dec a 0); [lra |]. destruct (Qlt_le_dec 1 a); lra. }
  assert (Hlow' : 0 <= p -> p < fadeIn -> alpha == p / fadeIn).
  { intros Hp0 Hp. rewrite (Hlow Hp).
    destruct (Qdiv_unit_range p fadeIn Hin Hp0) as [H0 H1]; [lra |]. apply Hid; assumption. }
  assert (Hhigh' : fadeIn + stable <= p -> p <= fadeIn + stable + fadeOut ->
                   alpha == 1 - (p - fadeIn - stable) / fadeOut).
  { intros Hp1 Hp2. rewrite (Hhigh Hp1).
    destruct (Qdiv_unit_range (p - fadeIn - stable) fadeOut Hout) as [H0 H1]; [lra | lra |].
    apply Hid; lra. }
  repeat split; try assumption.
  - intros Hp. rewrite Hlow' by lra. apply Qdiv_0_l. exact Hp.
  - intros Hp. apply Hmid; lra.
  - intros Hp. rewrite Hhigh' by lra.
    rewrite (Qdiv_0_l (p - fadeIn - stable) fadeOut) by lra. lra.
  - apply calculateLifecycleAlpha_range.
  - apply calculateLifecycleAlpha_range.
  - unfold p, lifecyclePos. apply rem1_mod1. assumption.
  - unfold p, lifecyclePos. rewrite rem1_mod1 by assumption. apply mod1_range.
  - unfold p, lifecyclePos. rewrite rem1_mod1 by assumption. apply mod1_range.
Qed.

Lemma calculateLifecycleAlpha_piecewise_witness :
  calculateLifecycleAlpha demoParams demoGlow ==
  lifecycleAlphaSpec (9 # 100) (9 # 10) (2 # 10) (lifecyclePos demoGlow).
Proof.
  refine (proj1 (calculateLifecycleAlpha_piecewise demoParams demoGlow _ _ _ _));
    reflexivity.
Defined.

(** C10.  With the lifecycle switched off, the alpha is exactly 1 for
    every particle, whatever its [currentT] and [lifecycleOffset]. *)
Theorem calculateLifecycleAlpha_disabled {P} `{Particle P}
    (params : Params) (particle : P) :
  lifecycle_enabled params = false ->
  calculateLifecycleAlpha params particle = 1.
Proof.
  intros Hen. unfold calculateLifecycleAlpha. rewrite Hen. reflexivity.
Qed.

Lemma calculateLifecycleAlpha_disabled_witness :
  calculateLifecycleAlpha
    (configure false dark palette single true true true true true "#80ffff") demoGlow = 1.
Proof.
  apply (calculateLifecycleAlpha_disabled
           (configure false dark palette single true true true true true "#80ffff") demoGlow).
  reflexivity.
Defined.

(** ** Typed arrays and loops *)

Lemma length_write (a : list Q) (i : nat) (v : Q) : length (write a i v) = length a.
Proof. apply length_insert. Qed.

Lemma read_write_eq (a : list Q) (i : nat) (v : Q) :
  (i < length a)%nat -> read (write a i v) i = v.
Proof. intros Hi. unfold read, write. rewrite list_lookup_insert_eq by exact Hi. reflexivity. Qed.

Lemma read_write_ne (a : list Q) (i j : nat) (v : Q) :
  i <> j -> read (write a i v) j = read a j.
Proof. intros Hne. unfold read, write. rewrite list_lookup_insert_ne by exact Hne. reflexivity. Qed.

Lemma length_toArray (v : Vector3) (a : list Q) (o : nat) : length (toArray v a o) = length a.
Proof. unfold toArray. rewrite !length_write. reflexivity. Qed.

Lemma sample_toArray_eq (v : Vector3) (a : list Q) (i : nat) :
  (i * 3 + 2 < length a)%nat -> sample (toArray v a (i * 3)) i = v.
Proof.
  intros Hi. unfold sample, toArray. destruct v as [vx vy vz]. cbn [x y z]. f_equal.
  - rewrite !read_write_ne by lia. apply read_write_eq. lia.
  - rewrite read_write_ne by lia. apply read_write_eq. rewrite length_write. lia.
  - apply read_write_eq. rewrite !length_write. lia.
Qed.

Lemma sample_toArray_ne (v : Vector3) (a : list Q) (i j : nat) :
  i <> j -> sample (toArray v a (i * 3)) j = sample a j.
Proof.
  intros Hne. unfold sample, toArray. f_equal; rewrite !read_write_ne by lia; reflexivity.
Qed.

Lemma for_up_S {S} (n : nat) (body : S -> nat -> S) (s : S) :
  for_up (Datatypes.S n) body s = body (for_up n body s) n.
Proof. unfold for_up. rewrite seq_S, fold_left_app. reflexivity. Qed.

(** An invariant of every iteration is an invariant of the loop. *)
Lemma fold_left_invariant {S} (I : S -> Prop) (body : S -> nat -> S) (l : list nat) (s : S) :
  I s -> (forall s i, In i l -> I s -> I (body s i)) -> I (fold_left body l s).
Proof.
  revert s. induction l as [| i l IH]; intros s Hs Hbody; cbn.
  - exact Hs.
  - apply IH.
    + apply Hbody; [left; reflexivity | exact Hs].
    + intros s' j Hj. apply Hbody. right. exact Hj.
Qed.

Lemma for_up_invariant {S} (I : nat -> S -> Prop) (n : nat) (body : S -> nat -> S) (s : S) :
  I 0%nat s -> (forall s i, (i < n)%nat -> I i s -> I (Datatypes.S i) (body s i)) ->
  I n (for_up n body s).
Proof.
  intros H0 Hstep. induction n as [| n IH].
  - exact H0.
  - rewrite for_up_S. apply Hstep; [lia |]. apply IH. intros s' i Hi. apply Hstep. lia.
Qed.

(** ** Numbers *)

Lemma num_nonneg (n : nat) : 0 <= num n.
Proof. unfold num. change 0 with (inject_Z 0). rewrite <- Zle_Qle. lia. Qed.

Lemma num_le (i j : nat) : (i <= j)%nat -> num i <= num j.
Proof. intros H. unfold num. rewrite <- Zle_Qle. lia. Qed.




Lemma ramp_head (length : nat) : ramp length 0 == 1.
Proof. unfold ramp. change (num 0) with 0. rewrite Qdiv_0_l by reflexivity. lra. Qed.


(** ** [GlowParticle]: the trail buffers *)

(** A loop that writes [f i] into cell [i] leaves exactly that. *)
Lemma for_up_write (f : nat -> Q) (n : nat) (a : list Q) :
  (n <= length a)%nat ->
  let a' := for_up n (fun a i => write a i (f i)) a in
  length a' = length a /\ forall i, (i < n)%nat -> read a' i = f i.
Proof.
  intros Hn.
  apply (for_up_invariant
           (fun k a' => length a' = length a /\ forall i, (i < k)%nat -> read a' i = f i)).
  - split; [reflexivity | intros i Hi; lia].
  - intros a' k Hk [Hlen Hread]. split.
    + rewrite length_write. exact Hlen.
    + intros i Hi. destruct (Nat.eq_dec i k) as [-> | Hne].
      * apply read_write_eq. lia.
      * rewrite read_write_ne by lia. apply Hread. lia.
Qed.

(** The loop of the wrap branch puts [v] in every sample. *)
Lemma for_up_teleport (v : Vector3) (n : nat) (a : list Q) :
  (n * 3 <= length a)%nat ->
  let a' := for_up n (fun a i => toArray v a (i * 3)) a in
  length a' = length a /\ forall i, (i < n)%nat -> sample a' i = v.
Proof.
  intros Hn.
  apply (for_up_invariant
           (fun k a' => length a' = length a /\ forall i, (i < k)%nat -> sample a' i = v)).
  - split; [reflexivity | intros i Hi; lia].
  - intros a' k Hk [Hlen Hsample]. split.
    + rewrite length_toArray. exact Hlen.
    + intros i Hi. destruct (Nat.eq_dec i k) as [-> | Hne].
      * apply sample_toArray_eq. lia.
      * rewrite sample_toArray_ne by lia. apply Hsample. lia.
Qed.

Lemma length_shift (a : list Q) (i : nat) : length (GlowParticle.shift a i) = length a.
Proof. unfold GlowParticle.shift. rewrite !length_write. reflexivity. Qed.

Lemma sample_shift_eq (a : list Q) (i : nat) :
  (1 <= i)%nat -> (i * 3 + 2 < length a)%nat ->
  sample (GlowParticle.shift a i) i = sample a (i - 1).
Proof.
  intros H1 Hi. unfold sample, GlowParticle.shift. f_equal.
  - rewrite !read_write_ne by lia. apply read_write_eq. lia.
  - rewrite read_write_ne by lia. rewrite read_write_eq by (rewrite length_write; lia).
    apply read_write_ne. lia.
  - rewrite read_write_eq by (rewrite !length_write; lia).
    rewrite !read_write_ne by lia. reflexivity.
Qed.

Lemma sample_shift_ne (a : list Q) (i j : nat) :
  i <> j -> sample (GlowParticle.shift a i) j = sample a j.
Proof.
  intros Hne. unfold sample, GlowParticle.shift.
  f_equal; rewrite !read_write_ne by lia; reflexivity.
Qed.

(** Shifting a trail whose samples are all [v] leaves them all [v]. *)
Lemma for_down_shift_constant (v : Vector3) (n : nat) (a : list Q) :
  length a = (n * 3)%nat -> (forall i, (i < n)%nat -> sample a i = v) ->
  let a' := for_down n GlowParticle.shift a in
  length a' = (n * 3)%nat /\ forall i, (i < n)%nat -> sample a' i = v.
Proof.
  intros Hlen Hall. unfold for_down.
  apply (fold_left_invariant
           (fun a' => length a' = (n * 3)%nat /\ forall i, (i < n)%nat -> sample a' i = v)).
  - split; assumption.
  - intros a' k Hk [Hlen' Hall']. rewrite <- in_rev in Hk. apply in_seq in Hk. split.
    + rewrite length_shift. exact Hlen'.
    + intros i Hi. destruct (Nat.eq_dec i k) as [-> | Hne].
      * rewrite sample_shift_eq by lia. apply Hall'. lia.
      * rewrite sample_shift_ne by lia. apply Hall'. exact Hi.
Qed.

Lemma update_trailAlphas (params : Params) (p : GlowParticle.t) (g : Rng) :
  GlowParticle.trailAlphas (fst (GlowParticle.update params p g)) =
  let n := GlowParticle.trailLength p in
  let alphas := for_up n (fun alphas i => write alphas i (ramp n i)) (GlowParticle.trailAlphas p) in
  let alphas := if (0 <? n)%nat then write alphas 0 1 else alphas in
  if (n <=? 1)%nat && (0 <? length alphas)%nat then write alphas 0 1 else alphas.
Proof.
  unfold GlowParticle.update.
  destruct (geb _ 1); [destruct (randomScatter _ g) |]; reflexivity.
Qed.

Lemma update_wrap (params : Params) (p : GlowParticle.t) (g : Rng) :
  1 <= GlowParticle.currentT p + glow_speedFactor params * GlowParticle.baseSpeedRandomness p ->
  let p' := fst (GlowParticle.update params p g) in
  let fresh := fst (randomScatter (particleScatterRadius params) g) in
  let startPos := add (getPointAt (GlowParticle.path p) 0) fresh in
  GlowParticle.currentT p' = 0 /\
  GlowParticle.scatterOffset p' = fresh /\
  GlowParticle.justReset p' =
    (if negb (closed (GlowParticle.path p)) then true else GlowParticle.justReset p) /\
  GlowParticle.trailPositions p' =
    toArray startPos
      (for_down (GlowParticle.trailLength p) GlowParticle.shift
         (for_up (GlowParticle.trailLength p) (fun a i => toArray startPos a (i * 3))
            (GlowParticle.trailPositions p))) 0.
Proof.
  intros Hwrap. apply geb_true in Hwrap. unfold GlowParticle.update. rewrite Hwrap.
  destruct (randomScatter _ g) as [fresh g']. cbn. repeat split.
Qed.

Lemma update_advance (params : Params) (p : GlowParticle.t) (g : Rng) :
  GlowParticle.currentT p + glow_speedFactor params * GlowParticle.baseSpeedRandomness p < 1 ->
  let p' := fst (GlowParticle.update params p g) in
  GlowParticle.currentT p' =
    GlowParticle.currentT p + glow_speedFactor params * GlowParticle.baseSpeedRandomness p /\
  GlowParticle.scatterOffset p' = GlowParticle.scatterOffset p /\
  GlowParticle.justReset p' = GlowParticle.justReset p.
Proof.
  intros Hadv. apply geb_false in Hadv. unfold GlowParticle.update. rewrite Hadv.
  cbn. repeat split.
Qed.

(** C3.  On the tick where [currentT] reaches 1, a glow particle with at
    least one trail sample resets [currentT] to 0, draws a fresh scatter
    offset, and ends the tick with every sample of its trail buffer at the
    new head position: the path point at 0 plus the new scatter offset. *)
Theorem wrap_teleports_trail (params : Params) (p : GlowParticle.t) (g : Rng) :
  GlowParticle.wf p ->
  (1 <= GlowParticle.trailLength p)%nat ->
  1 <= GlowParticle.currentT p + glow_speedFactor params * GlowParticle.baseSpeedRandomness p ->
  let p' := fst (GlowParticle.update params p g) in
  let fresh := fst (randomScatter (particleScatterRadius params) g) in
  let head := add (getPointAt (GlowParticle.path p) 0) fresh in
  GlowParticle.currentT p' = 0 /\
  GlowParticle.scatterOffset p' = fresh /\
  length (GlowParticle.trailPositions p') = (GlowParticle.trailLength p * 3)%nat /\
  sample (GlowParticle.trailPositions p') 0 =
    add (getPointAt (GlowParticle.path p') (GlowParticle.currentT p'))
        (GlowParticle.scatterOffset p') /\
  forall i, (i < GlowParticle.trailLength p)%nat ->
            sample (GlowParticle.trailPositions p') i = head.
Proof.
  intros [Hpos Halpha] Hlen Hwrap p' fresh head.
  destruct (update_wrap params p g Hwrap) as (Ht & Hs & _ & Hp).
  fold p' in Ht, Hs, Hp. fold fresh in Hs, Hp. fold head in Hp.
  destruct (for_up_teleport head (GlowParticle.trailLength p) (GlowParticle.trailPositions p))
    as [Hl1 Hv1]; [lia |].
  rewrite Hpos in Hl1.
  destruct (for_down_shift_constant head (GlowParticle.trailLength p) _ Hl1 Hv1)
    as [Hl2 Hv2].
  assert (Hall : forall i, (i < GlowParticle.trailLength p)%nat ->
                           sample (GlowParticle.trailPositions p') i = head).
  { intros i Hi. rewrite Hp. destruct (Nat.eq_dec i 0%nat) as [-> | Hne].
    - apply (sample_toArray_eq head _ 0). rewrite Hl2. lia.
    - rewrite (sample_toArray_ne head _ 0) by lia. apply Hv2. exact Hi. }
  repeat split; try assumption.
  - rewrite Hp, length_toArray. exact Hl2.
  - rewrite Hall by lia. rewrite Ht, Hs. unfold head.
    replace (GlowParticle.path p') with (GlowParticle.path p); [reflexivity |].
    unfold p', GlowParticle.update.
    destruct (geb _ 1); [destruct (randomScatter _ g) |]; reflexivity.
Qed.

(** Closes a side condition on concrete data by evaluation. *)
Ltac evaluated :=
  first [ reflexivity
        | vm_compute;
          first [ reflexivity
                | discriminate
                | intro; discriminate
                | let H := fresh in intro H; apply H; reflexivity
                | solve [repeat constructor] ] ].

Lemma wrap_teleports_trail_witness :
  GlowParticle.currentT (fst (GlowParticle.update demoParams demoGlowLate demoRng)) = 0 /\
  forall i, (i < 3)%nat ->
    sample (GlowParticle.trailPositions
              (fst (GlowParticle.update demoParams demoGlowLate demoRng))) i =
    mkVector3 (10 * 0 + ((9 # 10) - (1 # 2)) * 2 * (11 # 10))
              (0 + ((1 # 2) - (1 # 2)) * 2 * (11 # 10))
              (0 + ((2 # 10) - (1 # 2)) * 2 * (11 # 10)).
Proof.
  assert (Hwf : GlowParticle.wf demoGlowLate) by (split; evaluated).
  assert (Hlen : (1 <= GlowParticle.trailLength demoGlowLate)%nat) by evaluated.
  assert (Hwrap : 1 <= GlowParticle.currentT demoGlowLate +
                       glow_speedFactor demoParams *
                       GlowParticle.baseSpeedRandomness demoGlowLate) by evaluated.
  destruct (wrap_teleports_trail demoParams demoGlowLate demoRng Hwf Hlen Hwrap)
    as (Ht & _ & _ & _ & Hall).
  split; [exact Ht | exact Hall].
Defined.



(** ** The managers' [update] and the open-path seam *)

Lemma seamFactor_range (fadeIn fadeOut : Q) (justReset : bool) (t : Q) :
  0 < fadeIn -> 0 < fadeOut -> 0 <= t -> t <= 1 ->
  0 <= seamFactor fadeIn fadeOut justReset t /\ seamFactor fadeIn fadeOut justReset t <= 1.
Proof.
  intros Hin Hout H0 H1. unfold seamFactor.
  destruct (Qlt_le_dec (1 - fadeOut) t).
  - destruct (Qdiv_unit_range (t - (1 - fadeOut)) fadeOut); lra.
  - destruct justReset; cbn [andb]; [| lra]. cmp t fadeIn; [| lra].
    destruct (Qdiv_unit_range t fadeIn); lra.
Qed.

Lemma glow_update_particle (params : Params) (p : GlowParticle.t) (g : Rng) :
  lifecycle_enabled params = true ->
  0 < lifecycle_fadeInTime params ->
  let fadeIn := lifecycle_fadeInTime params in
  let fadeOut := lifecycle_fadeOutTime params in
  let p1 := fst (GlowParticle.update params p g) in
  let q := fst (GlowParticleSystem.update_particle params p g) in
  let t := GlowParticle.currentT p1 in
  (closed (GlowParticle.path p1) = true ->
   GlowParticle.uLifecycleAlpha q = calculateLifecycleAlpha params p1 /\
   GlowParticle.justReset q = GlowParticle.justReset p1) /\
  (closed (GlowParticle.path p1) = false ->
   GlowParticle.uLifecycleAlpha q ==
     calculateLifecycleAlpha params p1 * seamFactor fadeIn fadeOut (GlowParticle.justReset p1) t /\
   (1 - fadeOut < t -> GlowParticle.justReset q = GlowParticle.justReset p1) /\
   (t <= 1 - fadeOut -> t < fadeIn -> GlowParticle.justReset q = GlowParticle.justReset p1) /\
   (t <= 1 - fadeOut -> fadeIn <= t -> GlowParticle.justReset q = false)).
Proof.
  intros Hen Hin fadeIn fadeOut p1 q t.
  unfold q, GlowParticleSystem.update_particle. fold p1.
  destruct (GlowParticle.update params p g) as [p1' g1] eqn:Hup.
  cbn [fst] in p1. subst p1. rewrite Hen.
  split; intros Hclosed; rewrite Hclosed; cbn [negb fst].
  - split; reflexivity.
  - fold fadeIn fadeOut t. unfold seamFactor, gtb.
    cmp (1 - fadeOut) t; destruct (Qlt_le_dec (1 - fadeOut) t); try lra.
    + cbn. repeat split; try reflexivity; intros; lra.
    + destruct (GlowParticle.justReset p1') eqn:Hjr; cbn [andb].
      * cmp t fadeIn.
        -- assert (Hprog : geb (t / fadeIn) 1 = false).
           { apply geb_false. apply Qlt_shift_div_r; [exact Hin | lra]. }
           rewrite Hprog. cbn. rewrite Hjr.
           repeat split; try reflexivity; intros; lra.
        -- cbn. repeat split; try reflexivity; intros; try lra.
      * destruct (ltb t fadeIn); cbn; rewrite ?Hjr;
          repeat split; try reflexivity; intros; try lra.
Qed.

(** A [forEach] that threads the random stream handles every particle by
    its body, at some state of the stream, and keeps their order. *)
Lemma forEach_each {P} (body : P -> Rng -> P * Rng) (particles done : list P) (g : Rng) :
  exists updated,
    fst (fold_left (fun '(done, g) p => let '(p, g) := body p g in (done ++ [p], g))
           particles (done, g)) = done ++ updated /\
    Forall2 (fun p q => exists g', q = fst (body p g')) particles updated.
Proof.
  revert done g. induction particles as [| p particles IH]; intros done g; cbn [fold_left].
  - exists []. split; [rewrite app_nil_r; reflexivity | constructor].
  - destruct (body p g) as [q g1] eqn:Hq.
    destruct (IH (done ++ [q]) g1) as (updated & Hfold & Hall).
    exists (q :: updated). split.
    + rewrite Hfold, <- app_assoc. reflexivity.
    + constructor; [| exact Hall]. exists g. rewrite Hq. reflexivity.
Qed.

Lemma glow_update_path (params : Params) (p : GlowParticle.t) (g : Rng) :
  GlowParticle.path (fst (GlowParticle.update params p g)) = GlowParticle.path p.
Proof.
  unfold GlowParticle.update.
  destruct (geb _ 1); [destruct (randomScatter _ g) |]; reflexivity.
Qed.

Lemma spark_update_particle `{Trig} (params : Params) (p : WeldingSpark.t) (g : Rng) :
  lifecycle_enabled params = true ->
  WeldingSpark.lifecycleAlpha (fst (WeldingSparkParticleSystem.update_particle params p g)) =
  calculateLifecycleAlpha params (fst (WeldingSpark.update params p g)).
Proof.
  intros Hen. unfold WeldingSparkParticleSystem.update_particle.
  destruct (WeldingSpark.update params p g) as [p1 g1]. rewrite Hen. reflexivity.
Qed.

Lemma comet_update_particle `{Trig} (params : Params) (p : Comet.t) (g : Rng) :
  lifecycle_enabled params = true ->
  let alpha := calculateLifecycleAlpha params (fst (Comet.update params p g)) in
  let q := fst (CometParticleSystem.update_particle params p g) in
  Comet.headMaterial_lifecycleAlpha q = alpha /\
  Comet.tailMaterial_lifecycleAlpha q = alpha /\
  Forall (fun mesh => Comet.w_lifecycleAlpha mesh = alpha) (Comet.wideTailMeshes q).
Proof.
  intros Hen alpha q. unfold q, alpha, CometParticleSystem.update_particle.
  destruct (Comet.update params p g) as [p1 g1]. rewrite Hen. cbn [fst].
  repeat split. cbn.
  induction (Comet.wideTailMeshes p1) as [| mesh meshes IH]; constructor; [reflexivity | exact IH].
Qed.

(** C2.  The claim asks the seam correction of every variant riding an
    open path.  On one and the same open path, past [1 - fadeOut] and with
    the lifecycle enabled, the three managers disagree: the glow manager
    writes the lifecycle alpha times the ramp toward 0 (993/2000 at
    [currentT] 0.9007), while the comet manager writes the plain lifecycle
    alpha 1 into the head and tail uniforms where the ramp gives 19/40
    (at 0.905), and the welding-spark manager writes 1 where the ramp
    gives 37/80 (at 0.9075). *)
Theorem seam_correction_missing_for_comet_and_spark :
  let fadeOut := lifecycle_fadeOutTime demoParams in
  let ramp t := 1 - (t - (1 - fadeOut)) / fadeOut in
  let c1 := fst (@Comet.update demoTrig demoParams demoComet demoRng) in
  let c := fst (@CometParticleSystem.update_particle demoTrig demoParams demoComet demoRng) in
  let s1 := fst (@WeldingSpark.update demoTrig demoParams demoSpark demoRng) in
  let s :=
    fst (@WeldingSparkParticleSystem.update_particle demoTrig demoParams demoSpark demoRng) in
  let g1 := fst (GlowParticle.update demoParams demoGlow demoRng) in
  let g := fst (GlowParticleSystem.update_particle demoParams demoGlow demoRng) in
  lifecycle_enabled demoParams = true /\
  (closed (Comet.path c1) = false /\ closed (WeldingSpark.path s1) = false /\
   closed (GlowParticle.path g1) = false) /\
  (1 - fadeOut < Comet.currentT c1 /\ 1 - fadeOut < WeldingSpark.currentT s1 /\
   1 - fadeOut < GlowParticle.currentT g1) /\
  (GlowParticle.uLifecycleAlpha g == 993 # 2000 /\
   GlowParticle.uLifecycleAlpha g ==
     calculateLifecycleAlpha demoParams g1 * ramp (GlowParticle.currentT g1)) /\
  (Comet.headMaterial_lifecycleAlpha c == 1 /\
   Comet.tailMaterial_lifecycleAlpha c == 1 /\
   calculateLifecycleAlpha demoParams c1 * ramp (Comet.currentT c1) == 19 # 40 /\
   ~ Comet.headMaterial_lifecycleAlpha c ==
     calculateLifecycleAlpha demoParams c1 * ramp (Comet.currentT c1)) /\
  (WeldingSpark.lifecycleAlpha s == 1 /\
   calculateLifecycleAlpha demoParams s1 * ramp (WeldingSpark.currentT s1) == 37 # 80 /\
   ~ WeldingSpark.lifecycleAlpha s ==
     calculateLifecycleAlpha demoParams s1 * ramp (WeldingSpark.currentT s1)).
Proof.
  cbv zeta. repeat split; try evaluated.
Qed.

(** X29.  The seam correction of the glow manager.  With the lifecycle
    enabled and positive fade times, for a glow particle on an open path
    the manager writes the lifecycle alpha times a seam factor: once
    [currentT] exceeds [1 - fadeOut], the ramp
    [1 - (currentT - (1 - fadeOut)) / fadeOut] toward 0; up to there, while
    the reset flag is up and [currentT] is below [fadeIn], the ramp
    [currentT / fadeIn] from 0; and 1 otherwise.  On the tick that wraps
    (with [fadeOut] at most 1) the value written is 0 and the flag is up.
    The manager takes the flag down exactly on a tick that ends with
    [currentT] from [fadeIn] to [1 - fadeOut] and leaves it alone on every
    other tick, so where the two ramps overlap ([fadeIn + fadeOut] above 1)
    it never takes it down.  [update] handles every particle it owns this
    way, in order. *)
Theorem glow_seam_correction (params : Params) (g : Rng) :
  lifecycle_enabled params = true ->
  0 < lifecycle_fadeInTime params ->
  0 < lifecycle_fadeOutTime params ->
  let fadeIn := lifecycle_fadeInTime params in
  let fadeOut := lifecycle_fadeOutTime params in
  (forall p : GlowParticle.t,
     closed (GlowParticle.path p) = false ->
     let p1 := fst (GlowParticle.update params p g) in
     let q := fst (GlowParticleSystem.update_particle params p g) in
     let t := GlowParticle.currentT p1 in
     let alpha := calculateLifecycleAlpha params p1 in
     (1 - fadeOut < t ->
      GlowParticle.uLifecycleAlpha q == alpha * (1 - (t - (1 - fadeOut)) / fadeOut) /\
      GlowParticle.justReset q = GlowParticle.justReset p1) /\
     (t <= 1 - fadeOut -> t < fadeIn ->
      GlowParticle.uLifecycleAlpha q ==
        (if GlowParticle.justReset p1 then alpha * (t / fadeIn) else alpha) /\
      GlowParticle.justReset q = GlowParticle.justReset p1) /\
     (t <= 1 - fadeOut -> fadeIn <= t ->
      GlowParticle.uLifecycleAlpha q == alpha /\ GlowParticle.justReset q = false) /\
     (1 < fadeIn + fadeOut -> GlowParticle.justReset q = GlowParticle.justReset p1) /\
     (1 <= GlowParticle.currentT p + glow_speedFactor params * GlowParticle.baseSpeedRandomness p ->
      fadeOut <= 1 ->
      GlowParticle.uLifecycleAlpha q == 0 /\ GlowParticle.justReset q = true)) /\
  (forall particles,
     Forall2 (fun p q => exists g', q = fst (GlowParticleSystem.update_particle params p g'))
       particles (fst (GlowParticleSystem.update params particles g))).
Proof.
  intros Hen Hin Hout fadeIn fadeOut. split.
  - intros p Hopen p1 q t alpha.
    assert (Hopen1 : closed (GlowParticle.path p1) = false)
      by (unfold p1; rewrite glow_update_path; exact Hopen).
    destruct (glow_update_particle params p g Hen Hin) as [_ Hseam].
    destruct (Hseam Hopen1) as (Halpha & Hf1 & Hf2 & Hf3).
    fold fadeIn fadeOut p1 q t alpha in Halpha, Hf1, Hf2, Hf3.
    unfold seamFactor in Halpha.
    split; [| split; [| split; [| split]]].
    + intros Hlate. split; [| exact (Hf1 Hlate)].
      destruct (Qlt_le_dec (1 - fadeOut) t); [exact Halpha | lra].
    + intros Hearly Hramp. split; [| exact (Hf2 Hearly Hramp)].
      destruct (Qlt_le_dec (1 - fadeOut) t); [lra |].
      assert (Hlt : ltb t fadeIn = true) by (apply ltb_true; exact Hramp).
      rewrite Hlt in Halpha. destruct (GlowParticle.justReset p1); cbn [andb] in Halpha.
      * exact Halpha.
      * rewrite Halpha. ring.
    + intros Hearly Hpast. split; [| exact (Hf3 Hearly Hpast)].
      destruct (Qlt_le_dec (1 - fadeOut) t); [lra |].
      assert (Hge : ltb t fadeIn = false) by (apply ltb_false; exact Hpast).
      rewrite Hge, andb_false_r in Halpha. rewrite Halpha. ring.
    + intros Hover. destruct (Qlt_le_dec (1 - fadeOut) t) as [Hlate | Hearly].
      * exact (Hf1 Hlate).
      * apply (Hf2 Hearly). lra.
    + intros Hwrap Hone.
      destruct (update_wrap params p g Hwrap) as (Ht & _ & Hjr & _).
      fold p1 in Ht, Hjr. fold t in Ht. rewrite Hopen in Hjr. cbn in Hjr. split.
      * rewrite Halpha, Hjr.
        destruct (Qlt_le_dec (1 - fadeOut) t); [rewrite Ht in *; lra |].
        assert (Hlt : ltb t fadeIn = true) by (apply ltb_true; rewrite Ht; exact Hin).
        rewrite Hlt. cbn [andb]. rewrite (Qdiv_0_l t fadeIn) by (rewrite Ht; reflexivity). ring.
      * rewrite Hf2; [exact Hjr | rewrite Ht; lra | rewrite Ht; exact Hin].
  - intros particles. unfold GlowParticleSystem.update.
    destruct (forEach_each (GlowParticleSystem.update_particle params) particles [] g)
      as (updated & -> & Hall). exact Hall.
Qed.

Lemma glow_seam_correction_witness :
  GlowParticle.uLifecycleAlpha
    (fst (GlowParticleSystem.update_particle demoParams demoGlow demoRng)) ==
  calculateLifecycleAlpha demoParams (fst (GlowParticle.update demoParams demoGlow demoRng)) *
  (1 - (GlowParticle.currentT (fst (GlowParticle.update demoParams demoGlow demoRng))
        - (1 - lifecycle_fadeOutTime demoParams)) / lifecycle_fadeOutTime demoParams).
Proof.
  assert (Hen : lifecycle_enabled demoParams = true) by evaluated.
  assert (Hin : 0 < lifecycle_fadeInTime demoParams) by evaluated.
  assert (Hout : 0 < lifecycle_fadeOutTime demoParams) by evaluated.
  assert (Hopen : closed (GlowParticle.path demoGlow) = false) by evaluated.
  assert (Hlate : 1 - lifecycle_fadeOutTime demoParams <
                  GlowParticle.currentT (fst (GlowParticle.update demoParams demoGlow demoRng)))
    by evaluated.
  exact (proj1 (proj1 (proj1 (glow_seam_correction demoParams demoRng Hen Hin Hout)
                         demoGlow Hopen) Hlate)).
Defined.

(** ** The speed multiplier *)

Lemma glow_constructor_speed (params : Params) (path : Curve) (n : nat)
    (speedFactor boldness scatterRadius : Q) (g : Rng) :
  let p := fst (GlowParticle.constructor params path n speedFactor boldness scatterRadius g) in
  GlowParticle.baseSpeedRandomness p = (1 # 2) + draws g (S (cursor g)) * 1 /\
  GlowParticle.speed p = speedFactor * GlowParticle.baseSpeedRandomness p.
Proof.
  unfold GlowParticle.constructor, randomScatter, Math_random. cbn [draws cursor].
  destruct (for_up n _ _) as [positions alphas]. cbn. split; reflexivity.
Qed.

Lemma comet_constructor_speed `{Trig} (params : Params) (path : Curve) (n : nat)
    (tailWidth glowIntensity speedFactor scatterRadius : Q) (color : string) (g : Rng) :
  let p := fst (Comet.constructor params path n tailWidth glowIntensity speedFactor
                  scatterRadius color g) in
  Comet.baseSpeedRandomness p = (1 # 2) + draws g (S (cursor g)) * 1 /\
  Comet.speed p = speedFactor * Comet.baseSpeedRandomness p.
Proof.
  unfold Comet.constructor, randomScatter, Math_random. cbn [draws cursor].
  destruct (for_up n _ _) as [positions fades]. cbn. split; reflexivity.
Qed.

Lemma emitSparks_speed `{Trig} (params : Params) (p : WeldingSpark.t) (g : Rng) :
  let q := fst (WeldingSpark.emitSparks params p g) in
  WeldingSpark.baseSpeedRandomness q = WeldingSpark.baseSpeedRandomness p /\
  WeldingSpark.speed q = WeldingSpark.speed p.
Proof.
  unfold WeldingSpark.emitSparks, Math_random.
  destruct (WeldingSpark.emitLoop _ _ _ _ _ _) as [s g']. cbn. split; reflexivity.
Qed.

Lemma spark_constructor_speed `{Trig} (params : Params) (path : Curve) (n : nat)
    (speedFactor sparkHeat scatterRadius : Q) (g : Rng) :
  let p := fst (WeldingSpark.constructor params path n speedFactor sparkHeat scatterRadius g) in
  WeldingSpark.baseSpeedRandomness p = (1 # 2) + draws g (S (cursor g)) * (15 # 10) /\
  WeldingSpark.speed p = speedFactor * WeldingSpark.baseSpeedRandomness p.
Proof.
  unfold WeldingSpark.constructor, randomScatter, Math_random. cbn [draws cursor].
  match goal with
  | |- context [WeldingSpark.emitSparks params ?p0 ?g0] =>
    destruct (emitSparks_speed params p0 g0) as [Hb Hs]
  end.
  cbv zeta in *. rewrite Hb, Hs. cbn. split; reflexivity.
Qed.

Lemma glow_update_speed (params : Params) (p : GlowParticle.t) (g : Rng) :
  let q := fst (GlowParticle.update params p g) in
  GlowParticle.baseSpeedRandomness q = GlowParticle.baseSpeedRandomness p /\
  GlowParticle.speed q = glow_speedFactor params * GlowParticle.baseSpeedRandomness p.
Proof.
  unfold GlowParticle.update.
  destruct (geb _ 1); [destruct (randomScatter _ g) |]; cbn; split; reflexivity.
Qed.

Lemma comet_update_speed `{Trig} (params : Params) (p : Comet.t) (g : Rng) :
  let q := fst (Comet.update params p g) in
  Comet.baseSpeedRandomness q = Comet.baseSpeedRandomness p /\
  Comet.speed q = comet_speedFactor params * Comet.baseSpeedRandomness p.
Proof.
  unfold Comet.update.
  destruct (geb _ 1); [destruct (randomScatter _ g) |]; cbn; split; reflexivity.
Qed.

Lemma spark_advance_speed `{Trig} (params : Params) (p : WeldingSpark.t) (g : Rng) :
  let q := fst (WeldingSpark.advance params p g) in
  WeldingSpark.baseSpeedRandomness q = WeldingSpark.baseSpeedRandomness p /\
  WeldingSpark.speed q = weldingSpark_speedFactor params * WeldingSpark.baseSpeedRandomness p.
Proof.
  unfold WeldingSpark.advance.
  destruct (geb _ 1); [destruct (randomScatter _ g) as [so g1] |];
    (destruct (Math_random _) as [r g2]; destruct (gtb r _);
     [match goal with
      | |- context [WeldingSpark.emitSparks params ?p0 ?g0] =>
        destruct (emitSparks_speed params p0 g0) as [Hb Hs]
      end; cbv zeta in *; rewrite Hb, Hs
     |]; cbn; split; reflexivity).
Qed.

Lemma spark_update_speed `{Trig} (params : Params) (p : WeldingSpark.t) (g : Rng) :
  let q := fst (WeldingSpark.update params p g) in
  WeldingSpark.baseSpeedRandomness q = WeldingSpark.baseSpeedRandomness p /\
  WeldingSpark.speed q = weldingSpark_speedFactor params * WeldingSpark.baseSpeedRandomness p.
Proof.
  pose proof (spark_advance_speed params p g) as Hadv. cbv zeta in Hadv.
  unfold WeldingSpark.update. destruct (WeldingSpark.advance params p g) as [p1 g1].
  cbn in *. exact Hadv.
Qed.

(** C6, as the code has it.  With draws in [0, 1), the speed multiplier
    drawn at construction lies in [0.5, 1.5] for a glow particle and for a
    comet, and in [0.5, 2] for a welding spark; no later operation changes
    it, and after each tick the speed is the configured speed factor times
    that multiplier. *)
Theorem speed_multiplier `{Trig} (params : Params) (path : Curve) (g : Rng) :
  rng_ok g ->
  (forall n speedFactor boldness scatterRadius,
     let p := fst (GlowParticle.constructor params path n speedFactor boldness scatterRadius g) in
     1 # 2 <= GlowParticle.baseSpeedRandomness p /\
     GlowParticle.baseSpeedRandomness p <= 3 # 2 /\
     GlowParticle.speed p = speedFactor * GlowParticle.baseSpeedRandomness p) /\
  (forall n tailWidth glowIntensity speedFactor scatterRadius color,
     let p := fst (Comet.constructor params path n tailWidth glowIntensity speedFactor
                     scatterRadius color g) in
     1 # 2 <= Comet.baseSpeedRandomness p /\
     Comet.baseSpeedRandomness p <= 3 # 2 /\
     Comet.speed p = speedFactor * Comet.baseSpeedRandomness p) /\
  (forall n speedFactor sparkHeat scatterRadius,
     let p := fst (WeldingSpark.constructor params path n speedFactor sparkHeat scatterRadius g) in
     1 # 2 <= WeldingSpark.baseSpeedRandomness p /\
     WeldingSpark.baseSpeedRandomness p < 2 /\
     WeldingSpark.speed p = speedFactor * WeldingSpark.baseSpeedRandomness p) /\
  (forall (p : GlowParticle.t) g',
     let q := fst (GlowParticleSystem.update_particle params p g') in
     GlowParticle.baseSpeedRandomness q = GlowParticle.baseSpeedRandomness p /\
     GlowParticle.speed q = glow_speedFactor params * GlowParticle.baseSpeedRandomness p /\
     GlowParticle.baseSpeedRandomness (fst (GlowParticleSystem.setParticleColor params p g')) =
       GlowParticle.baseSpeedRandomness p) /\
  (forall (p : Comet.t) g',
     let q := fst (CometParticleSystem.update_particle params p g') in
     Comet.baseSpeedRandomness q = Comet.baseSpeedRandomness p /\
     Comet.speed q = comet_speedFactor params * Comet.baseSpeedRandomness p /\
     Comet.baseSpeedRandomness (fst (CometParticleSystem.setCometColor params p g')) =
       Comet.baseSpeedRandomness p) /\
  (forall (p : WeldingSpark.t) g',
     let q := fst (WeldingSparkParticleSystem.update_particle params p g') in
     WeldingSpark.baseSpeedRandomness q = WeldingSpark.baseSpeedRandomness p /\
     WeldingSpark.speed q = weldingSpark_speedFactor params * WeldingSpark.baseSpeedRandomness p /\
     WeldingSpark.baseSpeedRandomness (fst (WeldingSpark.emitSparks params p g')) =
       WeldingSpark.baseSpeedRandomness p).
Proof.
  intros Hg. destruct (Hg (S (cursor g))) as [Hr0 Hr1].
  split; [| split; [| split; [| split; [| split]]]].
  - intros n sf b sr p. destruct (glow_constructor_speed params path n sf b sr g) as [Hb Hs].
    fold p in Hb, Hs. rewrite Hs, Hb. repeat split; lra.
  - intros n tw gi sf sr c p.
    destruct (comet_constructor_speed params path n tw gi sf sr c g) as [Hb Hs].
    fold p in Hb, Hs. rewrite Hs, Hb. repeat split; lra.
  - intros n sf sh sr p. destruct (spark_constructor_speed params path n sf sh sr g) as [Hb Hs].
    fold p in Hb, Hs. rewrite Hs, Hb. repeat split; lra.
  - intros p g' q. destruct (glow_update_speed params p g') as [Hb Hs].
    unfold q, GlowParticleSystem.update_particle, GlowParticleSystem.setParticleColor.
    destruct (GlowParticle.update params p g') as [p1 g1]. cbn [fst] in Hb, Hs.
    repeat split.
    + destruct (lifecycle_enabled params); [| exact Hb].
      destruct (negb (closed _)); [| exact Hb].
      repeat match goal with
             | |- context [if ?c then _ else _] => destruct c
             end; exact Hb.
    + destruct (lifecycle_enabled params); [| exact Hs].
      destruct (negb (closed _)); [| exact Hs].
      repeat match goal with
             | |- context [if ?c then _ else _] => destruct c
             end; exact Hs.
    + destruct (currentTheme params); [| reflexivity].
      destruct (colorMode params); try reflexivity.
      destruct (0 <? _)%nat; [| reflexivity]. cbn.
      destruct (activePalette params !! _); reflexivity.
  - intros p g' q. destruct (comet_update_speed params p g') as [Hb Hs].
    unfold q, CometParticleSystem.update_particle, CometParticleSystem.setCometColor.
    destruct (Comet.update params p g') as [p1 g1]. cbn [fst] in Hb, Hs.
    repeat split.
    + destruct (lifecycle_enabled params); exact Hb.
    + destruct (lifecycle_enabled params); exact Hs.
    + destruct (currentTheme params); [| reflexivity].
      destruct (comet_colorMode params); try reflexivity.
      destruct (0 <? _)%nat; [| reflexivity]. cbn.
      destruct (activePalette params !! _); reflexivity.
  - intros p g' q. destruct (spark_update_speed params p g') as [Hb Hs].
    unfold q, WeldingSparkParticleSystem.update_particle.
    destruct (WeldingSpark.update params p g') as [p1 g1]. cbn [fst] in Hb, Hs.
    repeat split.
    + destruct (lifecycle_enabled params); exact Hb.
    + destruct (lifecycle_enabled params); exact Hs.
    + apply emitSparks_speed.
Qed.

Lemma speed_multiplier_witness :
  1 # 2 <= GlowParticle.baseSpeedRandomness demoGlow /\
  GlowParticle.baseSpeedRandomness demoGlow <= 3 # 2.
Proof.
  assert (Hg : rng_ok demoRng).
  { intros n. destruct n as [| [| [| n]]]; split; evaluated. }
  destruct (proj1 (@speed_multiplier demoTrig demoParams demoCurve demoRng Hg)
              3%nat (7 # 10000) 1 (11 # 10)) as (Hlo & Hhi & _).
  split; [exact Hlo | exact Hhi].
Defined.

(** Against C6 as stated: a welding spark whose draw is 9/10 gets the
    multiplier 0.5 + 0.9 * 1.5 = 1.85, above 1.5. *)
Lemma spark_multiplier_above_range :
  rng_ok demoRngHigh /\
  WeldingSpark.baseSpeedRandomness
    (fst (@WeldingSpark.constructor demoTrig demoParams demoCurve 16 (6 # 1000) (8 # 10)
            (11 # 10) demoRngHigh)) == 37 # 20 /\
  ~ WeldingSpark.baseSpeedRandomness
      (fst (@WeldingSpark.constructor demoTrig demoParams demoCurve 16 (6 # 1000) (8 # 10)
              (11 # 10) demoRngHigh)) <= 3 # 2.
Proof.
  split; [intros n; split; evaluated |].
  rewrite (proj1 (@spark_constructor_speed demoTrig demoParams demoCurve 16 (6 # 1000)
                    (8 # 10) (11 # 10) demoRngHigh)).
  split; evaluated.
Qed.

(** ** The Viviani curve *)

Lemma fold_left_push {A B} (f : A -> B) (l : list A) (acc : list B) :
  fold_left (fun points i => points ++ [f i]) l acc = acc ++ (f <$> l).
Proof.
  revert acc. induction l as [| a l IH]; intros acc; cbn.
  - rewrite app_nil_r. reflexivity.
  - rewrite IH, <- app_assoc. reflexivity.
Qed.

Lemma createVivianiCurvePoints_lookup (a : R) (numPoints i : nat) :
  (i <= numPoints)%nat ->
  Viviani.createVivianiCurvePoints a numPoints !! i =
  Some (Viviani.pointAt a (Viviani.parameter numPoints i)).
Proof.
  intros Hi. unfold Viviani.createVivianiCurvePoints.
  rewrite fold_left_push. cbn [app]. rewrite list_lookup_fmap.
  rewrite lookup_seq_lt by lia. reflexivity.
Qed.

Lemma createVivianiCurvePoints_length (a : R) (numPoints : nat) :
  length (Viviani.createVivianiCurvePoints a numPoints) = (numPoints + 1)%nat.
Proof.
  unfold Viviani.createVivianiCurvePoints.
  rewrite fold_left_push. cbn [app]. rewrite length_fmap, length_seq. reflexivity.
Qed.

Lemma parameter_first (numPoints : nat) : Viviani.parameter numPoints 0 = 0%R.
Proof. unfold Viviani.parameter. cbn [INR]. unfold Rdiv. ring. Qed.

Lemma parameter_quarter : Viviani.parameter 256 64 = PI.
Proof.
  unfold Viviani.parameter. rewrite !INR_IZR_INZ.
  change (Z.of_nat 64) with 64%Z. change (Z.of_nat 256) with 256%Z. Lra.lra.
Qed.

Lemma pointAt_zero (a : R) : Viviani.pointAt a 0 = Viviani.mkPoint (2 * a) 0 0.
Proof.
  unfold Viviani.pointAt. replace (0 / 2)%R with 0%R by Lra.lra.
  rewrite cos_0, sin_0. f_equal; ring.
Qed.

Lemma pointAt_PI (a : R) : Viviani.pointAt a PI = Viviani.mkPoint 0 0 (2 * a).
Proof.
  unfold Viviani.pointAt. rewrite cos_PI, sin_PI, sin_PI2. f_equal; ring.
Qed.

(** No point of the curve is the origin: where the first coordinate
    vanishes, [cos t = -1], the third is [2 a] or [- 2 a]. *)
Lemma viviani_misses_origin (a t : R) :
  a <> 0%R -> Viviani.pointAt a t <> Viviani.mkPoint 0 0 0.
Proof.
  intros Ha E. unfold Viviani.pointAt in E. injection E as Ex _ Ez.
  assert (Hc : cos t = (-1)%R).
  { apply Rmult_integral in Ex. destruct Ex as [Ex | Ex]; [contradiction | Lra.lra]. }
  assert (Hs : sin (t / 2) = 0%R).
  { apply Rmult_integral in Ez. destruct Ez as [Ez | Ez]; [| exact Ez].
    apply Rmult_integral in Ez. destruct Ez as [Ez | Ez]; [Lra.lra | contradiction]. }
  replace t with (2 * (t / 2))%R in Hc by Lra.lra.
  rewrite cos_2a_sin, Hs in Hc. Lra.lra.
Qed.

(** C7, as the code has it.  With scale 5 the Viviani generator gives the
    position (10, 0, 0) at curve parameter 0 and the position (0, 0, 10)
    at curve parameter pi: the third coordinate is [2 a sin(t / 2)], which
    is [2 a] at pi.  In the list built for 256 points these are the
    samples 0 and 64. *)
Theorem viviani_positions :
  Viviani.pointAt 5 0 = Viviani.mkPoint 10 0 0 /\
  Viviani.pointAt 5 PI = Viviani.mkPoint 0 0 10 /\
  Viviani.parameter 256 0 = 0%R /\
  Viviani.parameter 256 64 = PI /\
  length (Viviani.createVivianiCurvePoints 5 256) = 257%nat /\
  Viviani.createVivianiCurvePoints 5 256 !! 0%nat = Some (Viviani.mkPoint 10 0 0) /\
  Viviani.createVivianiCurvePoints 5 256 !! 64%nat = Some (Viviani.mkPoint 0 0 10).
Proof.
  assert (H0 : Viviani.pointAt 5 0 = Viviani.mkPoint 10 0 0).
  { rewrite pointAt_zero. f_equal; Lra.lra. }
  assert (HPI : Viviani.pointAt 5 PI = Viviani.mkPoint 0 0 10).
  { rewrite pointAt_PI. f_equal; Lra.lra. }
  split; [exact H0 |]. split; [exact HPI |]. split; [apply parameter_first |].
  split; [apply parameter_quarter |].
  split; [apply (createVivianiCurvePoints_length 5 256) |]. split.
  - rewrite createVivianiCurvePoints_lookup by lia. rewrite parameter_first, H0. reflexivity.
  - rewrite createVivianiCurvePoints_lookup by lia. rewrite parameter_quarter, HPI. reflexivity.
Qed.

(** Against C7 as stated: at curve parameter pi the position is not the
    origin. *)
Lemma viviani_at_PI_not_origin :
  Viviani.parameter 256 64 = PI /\
  Viviani.pointAt 5 PI <> Viviani.mkPoint 0 0 0 /\
  Viviani.createVivianiCurvePoints 5 256 !! 64%nat <> Some (Viviani.mkPoint 0 0 0) /\
  forall t, Viviani.pointAt 5 t <> Viviani.mkPoint 0 0 0.
Proof.
  assert (Hall : forall t, Viviani.pointAt 5 t <> Viviani.mkPoint 0 0 0).
  { intros t. apply viviani_misses_origin. Lra.lra. }
  split; [apply parameter_quarter |]. split; [apply Hall |]. split; [| exact Hall].
  rewrite createVivianiCurvePoints_lookup by lia.
  intros E. apply (Hall (Viviani.parameter 256 64)). congruence.
Qed.

(** ** Colour assignment *)

Lemma activePalette_In (params : Params) (c : string) :
  In c (activePalette params) <->
  (paletteColor1Enabled params = true /\ c = paletteColor1 params) \/
  (paletteColor2Enabled params = true /\ c = paletteColor2 params) \/
  (paletteColor3Enabled params = true /\ c = paletteColor3 params) \/
  (paletteColor4Enabled params = true /\ c = paletteColor4 params) \/
  (paletteColor5Enabled params = true /\ c = paletteColor5 params).
Proof.
  unfold activePalette.
  destruct (paletteColor1Enabled params), (paletteColor2Enabled params),
           (paletteColor3Enabled params), (paletteColor4Enabled params),
           (paletteColor5Enabled params); cbn; intuition congruence.
Qed.

Lemma floor_index (r : Q) (n k : nat) :
  0 <= r ->
  Z.to_nat (Math_floor (r * num n)) = k <-> num k <= r * num n /\ r * num n < num k + 1.
Proof.
  intros Hr. unfold Math_floor.
  assert (Hnn : 0 <= r * num n) by (apply Qmult_le_0_compat; [exact Hr | apply num_nonneg]).
  assert (Hf0 : (0 <= Qfloor (r * num n))%Z).
  { change 0%Z with (Qfloor 0). apply Qfloor_resp_le. exact Hnn. }
  pose proof (Qfloor_le (r * num n)) as Hle.
  pose proof (Qlt_floor (r * num n)) as Hlt.
  rewrite inject_Z_plus in Hlt. change (inject_Z 1) with 1 in Hlt.
  split.
  - intros <-. unfold num. rewrite Z2Nat.id by exact Hf0. split; assumption.
  - intros [Hk1 Hk2].
    assert (H1 : (Z.of_nat k < Qfloor (r * num n) + 1)%Z).
    { rewrite Zlt_Qlt, inject_Z_plus. change (inject_Z 1) with 1.
      change (inject_Z (Z.of_nat k)) with (num k). lra. }
    assert (H2 : (Qfloor (r * num n) < Z.of_nat k + 1)%Z).
    { rewrite Zlt_Qlt, inject_Z_plus. change (inject_Z 1) with 1.
      change (inject_Z (Z.of_nat k)) with (num k). lra. }
    lia.
Qed.

(** Colour [k] of [n] is chosen exactly by the draws in [k/n, (k+1)/n). *)
Lemma randomIndex_interval (r : Q) (l : list string) (k : nat) :
  0 <= r -> (0 < length l)%nat ->
  randomIndex r l = k <->
  num k / num (length l) <= r /\ r < (num k + 1) / num (length l).
Proof.
  intros Hr Hl. unfold randomIndex. rewrite floor_index by exact Hr.
  assert (Hn : 0 < num (length l)).
  { change 0 with (num 0). unfold num. rewrite <- Zlt_Qlt. lia. }
  split; intros [H1 H2]; split.
  - apply Qle_shift_div_r; assumption.
  - apply Qlt_shift_div_l; assumption.
  - assert (E : num k == num k / num (length l) * num (length l)) by (field; lra).
    rewrite E. apply Qmult_le_compat_r; [exact H1 | lra].
  - assert (E : num k + 1 == (num k + 1) / num (length l) * num (length l)) by (field; lra).
    rewrite E. apply Qmult_lt_compat_r; [exact Hn | exact H2].
Qed.

Lemma randomIndex_in_range (r : Q) (l : list string) :
  0 <= r -> r < 1 -> (0 < length l)%nat -> (randomIndex r l < length l)%nat.
Proof.
  intros Hr0 Hr1 Hl.
  destruct (proj1 (floor_index r (length l) (randomIndex r l) Hr0) eq_refl) as [Hk _].
  assert (Hn : 0 < num (length l)).
  { change 0 with (num 0). unfold num. rewrite <- Zlt_Qlt. lia. }
  assert (Hlt : num (randomIndex r l) < num (length l)).
  { eapply Qle_lt_trans; [exact Hk |].
    assert (Hlt : r * num (length l) < 1 * num (length l))
      by (apply Qmult_lt_compat_r; assumption).
    lra. }
  unfold num in Hlt. rewrite <- Zlt_Qlt in Hlt. lia.
Qed.

(** The palette entry both colour setters pick for the draw [r]. *)
Lemma palette_pick (params : Params) (r : Q) :
  0 <= r -> r < 1 -> (0 < length (activePalette params))%nat ->
  exists c, activePalette params !! randomIndex r (activePalette params) = Some c /\
            In c (activePalette params).
Proof.
  intros Hr0 Hr1 Hl.
  destruct (lookup_lt_is_Some_2 (activePalette params)
              (randomIndex r (activePalette params))) as [c Hc].
  - apply randomIndex_in_range; assumption.
  - exists c. split; [exact Hc |]. apply list_elem_of_In. eapply list_elem_of_lookup_2. exact Hc.
Qed.

(** C9, as the code has it.  Under the dark theme and in palette mode, a
    glow particle or a comet gets one of the enabled palette colours: the
    entry of the enabled list at index [floor(r * n)] for the draw [r], so
    that entry [k] of [n] is chosen exactly by the draws in
    [k/n, (k+1)/n).  With no colour enabled a glow particle falls back to
    white, a comet to the configured comet colour. *)
Theorem palette_assignment (params : Params) (g : Rng) :
  rng_ok g ->
  currentTheme params = dark ->
  let r := draws g (cursor g) in
  let enabled := activePalette params in
  (forall c, In c enabled <->
     (paletteColor1Enabled params = true /\ c = paletteColor1 params) \/
     (paletteColor2Enabled params = true /\ c = paletteColor2 params) \/
     (paletteColor3Enabled params = true /\ c = paletteColor3 params) \/
     (paletteColor4Enabled params = true /\ c = paletteColor4 params) \/
     (paletteColor5Enabled params = true /\ c = paletteColor5 params)) /\
  (forall particle : GlowParticle.t,
     colorMode params = palette ->
     let q := fst (GlowParticleSystem.setParticleColor params particle g) in
     ((0 < length enabled)%nat ->
      exists c, enabled !! randomIndex r enabled = Some c /\ In c enabled /\
                GlowParticle.color q = css c) /\
     (enabled = [] -> GlowParticle.color q = css "#ffffff")) /\
  (forall comet : Comet.t,
     comet_colorMode params = palette ->
     let q := fst (CometParticleSystem.setCometColor params comet g) in
     ((0 < length enabled)%nat ->
      exists c, enabled !! randomIndex r enabled = Some c /\ In c enabled /\
                Comet.headMaterial_cometColor q = css c /\
                Comet.tailMaterial_cometColor q = css c) /\
     (enabled = [] ->
      Comet.headMaterial_cometColor q = css (comet_cometColor params) /\
      Comet.tailMaterial_cometColor q = css (comet_cometColor params))) /\
  (forall k, (0 < length enabled)%nat ->
     randomIndex r enabled = k <->
     num k / num (length enabled) <= r /\ r < (num k + 1) / num (length enabled)).
Proof.
  intros Hg Hdark r enabled. destruct (Hg (cursor g)) as [Hr0 Hr1]. fold r in Hr0, Hr1.
  split; [apply activePalette_In |]. split; [| split].
  - intros particle Hmode q. unfold q, GlowParticleSystem.setParticleColor.
    rewrite Hdark, Hmode. fold enabled. split.
    + intros Hl. destruct (palette_pick params r Hr0 Hr1 Hl) as (c & Hc & Hin).
      fold enabled in Hc, Hin. exists c. split; [exact Hc |]. split; [exact Hin |].
      apply Nat.ltb_lt in Hl. rewrite Hl. cbn [Math_random fst]. fold r. rewrite Hc.
      reflexivity.
    + intros ->. reflexivity.
  - intros comet Hmode q. unfold q, CometParticleSystem.setCometColor.
    rewrite Hdark, Hmode. fold enabled. split.
    + intros Hl. destruct (palette_pick params r Hr0 Hr1 Hl) as (c & Hc & Hin).
      fold enabled in Hc, Hin. exists c. split; [exact Hc |]. split; [exact Hin |].
      apply Nat.ltb_lt in Hl. rewrite Hl. cbn [Math_random fst]. fold r. rewrite Hc.
      split; reflexivity.
    + intros ->. split; reflexivity.
  - intros k Hl. apply randomIndex_interval; assumption.
Qed.

Lemma palette_assignment_witness :
  In "#734ef9"%string
     (activePalette (configure true dark palette palette true false true false false
                       "#80ffff")) <->
  (true = true /\ "#734ef9"%string = "#667fff"%string) \/
  (false = true /\ "#734ef9"%string = "#734ef9"%string) \/
  (true = true /\ "#734ef9"%string = "#ffc21a"%string) \/
  (false = true /\ "#734ef9"%string = "#b39eff"%string) \/
  (false = true /\ "#734ef9"%string = "#007bff"%string).
Proof.
  assert (Hg : rng_ok demoRng).
  { intros n. destruct n as [| [| [| n]]]; split; evaluated. }
  exact (proj1 (palette_assignment
                  (configure true dark palette palette true false true false false "#80ffff")
                  demoRng Hg eq_refl) "#734ef9"%string).
Defined.

(** Against C9 as stated: with no palette colour enabled, a comet is given
    the configured comet colour, so no one colour is the fallback; and
    under the light theme a glow particle in palette mode is given the
    theme's colour, which is none of the enabled ones. *)
Lemma palette_fallback_not_fixed :
  let none c := configure true dark palette palette false false false false false c in
  activePalette (none "#ff0000"%string) = [] /\
  Comet.headMaterial_cometColor
    (fst (CometParticleSystem.setCometColor (none "#ff0000"%string) demoComet demoRng)) =
    css "#ff0000" /\
  Comet.headMaterial_cometColor
    (fst (CometParticleSystem.setCometColor (none "#80ffff"%string) demoComet demoRng)) =
    css "#80ffff" /\
  ~ (exists neutral, forall c,
       Comet.headMaterial_cometColor
         (fst (CometParticleSystem.setCometColor (none c) demoComet demoRng)) = neutral) /\
  GlowParticle.color
    (fst (GlowParticleSystem.setParticleColor
            (configure true light palette palette true false true false false "#80ffff")
            demoGlow demoRng)) = hex 2236962.
Proof.
  cbv zeta. split; [reflexivity |]. split; [reflexivity |]. split; [reflexivity |].
  split; [| reflexivity].
  intros [neutral Hn].
  pose proof (Hn "#ff0000"%string) as H1. pose proof (Hn "#80ffff"%string) as H2.
  cbn in H1, H2. rewrite <- H2 in H1. discriminate H1.
Qed.

(** ** [WeldingSpark]: the spark pool *)

Lemma read_write (a : list Q) (i j : nat) (v : Q) :
  (i < length a)%nat -> read (write a i v) j = if (i =? j)%nat then v else read a j.
Proof.
  intros Hi. destruct (i =? j)%nat eqn:E.
  - apply Nat.eqb_eq in E. subst j. apply read_write_eq. exact Hi.
  - apply Nat.eqb_neq in E. apply read_write_ne. exact E.
Qed.

Lemma length_assign (a : list Vector3) (i : nat) (v : Vector3) :
  length (WeldingSpark.assign a i v) = Nat.max (length a) (S i).
Proof.
  unfold WeldingSpark.assign. destruct (i <? length a)%nat eqn:E.
  - apply Nat.ltb_lt in E. rewrite length_insert. lia.
  - apply Nat.ltb_ge in E. rewrite !length_app, length_replicate. cbn. lia.
Qed.

Lemma at_assign (a : list Vector3) (i j : nat) (v : Vector3) :
  (i < length a)%nat ->
  WeldingSpark.at_ (WeldingSpark.assign a i v) j =
  if (i =? j)%nat then v else WeldingSpark.at_ a j.
Proof.
  intros Hi. unfold WeldingSpark.at_, WeldingSpark.assign.
  apply Nat.ltb_lt in Hi as Hi'. rewrite Hi'. destruct (i =? j)%nat eqn:E.
  - apply Nat.eqb_eq in E. subst j. rewrite list_lookup_insert_eq by exact Hi. reflexivity.
  - apply Nat.eqb_neq in E. rewrite list_lookup_insert_ne by exact E. reflexivity.
Qed.

Lemma prefix_S (s : WeldingSpark.Pool) (n : nat) :
  prefix s (S n) = prefix s n ++ [sparkAt s n].
Proof. unfold prefix. rewrite seq_S, List.map_app. reflexivity. Qed.

Lemma prefix_length (s : WeldingSpark.Pool) (n : nat) : length (prefix s n) = n.
Proof. unfold prefix. rewrite List.length_map, length_seq. reflexivity. Qed.

Lemma prefix_ext (s s' : WeldingSpark.Pool) (n : nat) :
  (forall j, (j < n)%nat -> sparkAt s j = sparkAt s' j) -> prefix s n = prefix s' n.
Proof.
  intros Hext. unfold prefix. apply List.map_ext_in. intros j Hj.
  apply in_seq in Hj. apply Hext. lia.
Qed.

Lemma survivors_app (d : nat -> Q) (c : nat) (l1 l2 : list Spark) :
  survivors d c (l1 ++ l2) = survivors d c l1 ++ survivors d (c + length l1) l2.
Proof.
  revert c. induction l1 as [| s l1 IH]; intros c; cbn [app survivors length].
  - rewrite Nat.add_0_r. reflexivity.
  - rewrite IH. replace (S c + length l1)%nat with (c + S (length l1))%nat by lia.
    destruct (age (d c) s); reflexivity.
Qed.

Lemma survivors_alive (d : nat -> Q) (c : nat) (l : list Spark) :
  Forall (fun s => 0 < life s) (survivors d c l).
Proof.
  revert c. induction l as [| s l IH]; intros c; cbn [survivors].
  - constructor.
  - destruct (age (d c) s) as [s' |] eqn:E; [| apply IH]. constructor; [| apply IH].
    unfold age in E. destruct (gtb _ 0) eqn:Hg; [| discriminate].
    injection E as <-. cbn [life]. apply gtb_true in Hg. exact Hg.
Qed.

(** What one iteration of the compaction loop does to the pool, slot by
    slot: spark [i] ages with the next draw; if it lives it lands in slot
    [aliveCount], otherwise only its life cell changes. *)
Lemma sweepOne_spec (st : WeldingSpark.Sweep) (i cap : nat) :
  let s := WeldingSpark.s_pool st in
  let k := WeldingSpark.aliveCount st in
  let st' := WeldingSpark.sweepOne st i in
  let s' := WeldingSpark.s_pool st' in
  length (WeldingSpark.p_positions s) = (cap * 3)%nat ->
  length (WeldingSpark.p_sizes s) = cap ->
  length (WeldingSpark.p_sparkLives s) = cap ->
  (i < cap)%nat -> (i < length (WeldingSpark.p_velocities s))%nat -> (k <= i)%nat ->
  WeldingSpark.s_rng st' =
    mkRng (draws (WeldingSpark.s_rng st)) (S (cursor (WeldingSpark.s_rng st))) /\
  length (WeldingSpark.p_positions s') = (cap * 3)%nat /\
  length (WeldingSpark.p_sizes s') = cap /\
  length (WeldingSpark.p_sparkLives s') = cap /\
  length (WeldingSpark.p_velocities s') = length (WeldingSpark.p_velocities s) /\
  WeldingSpark.p_activeParticles s' = WeldingSpark.p_activeParticles s /\
  match age (draws (WeldingSpark.s_rng st) (cursor (WeldingSpark.s_rng st))) (sparkAt s i) with
  | Some born =>
    WeldingSpark.aliveCount st' = S k /\
    sparkAt s' k = born /\
    forall j, j <> i -> j <> k -> sparkAt s' j = sparkAt s j
  | None =>
    WeldingSpark.aliveCount st' = k /\
    forall j, j <> i -> sparkAt s' j = sparkAt s j
  end.
Proof.
  intros s k st' s' Hpos Hsizes Hlives Hi Hvel Hk.
  subst st' s'. unfold WeldingSpark.sweepOne, Math_random. fold s k.
  set (r := draws (WeldingSpark.s_rng st) (cursor (WeldingSpark.s_rng st))).
  cbv zeta.
  rewrite (read_write_eq (WeldingSpark.p_sparkLives s) i) by lia.
  unfold age. cbn [life sparkAt].
  destruct (gtb (read (WeldingSpark.p_sparkLives s) i - ((3 # 100) + r * (2 # 100))) 0) eqn:Halive.
  - rewrite !at_assign by lia. rewrite !Nat.eqb_refl.
    destruct (Nat.eq_dec i k) as [Eik | Nik].
    + (* the spark stays in its slot *)
      assert (E : (i =? k)%nat = true) by (apply Nat.eqb_eq; exact Eik). rewrite E.
      cbn [negb WeldingSpark.s_pool WeldingSpark.aliveCount WeldingSpark.s_rng
           WeldingSpark.p_positions WeldingSpark.p_sizes WeldingSpark.p_sparkLives
           WeldingSpark.p_velocities WeldingSpark.p_activeParticles].
      rewrite !length_write, length_assign.
      repeat split; try lia.
      * rewrite <- Eik. unfold sparkAt.
        cbn [WeldingSpark.p_positions WeldingSpark.p_sizes WeldingSpark.p_sparkLives
             WeldingSpark.p_velocities position size velocity x y z].
        f_equal.
        -- unfold sample, add. cbn [x y z].
           rewrite !read_write by (rewrite ?length_write; lia).
           repeat match goal with
                  | |- context [(?a =? ?b)%nat] =>
                    first [ rewrite (Nat.eqb_refl a)
                          | rewrite (proj2 (Nat.eqb_neq a b)) by lia ]
                  end.
           reflexivity.
        -- rewrite read_write by lia. rewrite Nat.eqb_refl. reflexivity.
        -- rewrite read_write by lia. rewrite Nat.eqb_refl. reflexivity.
        -- rewrite at_assign by lia. rewrite Nat.eqb_refl. reflexivity.
      * intros j Hji Hjk. unfold sparkAt.
        cbn [WeldingSpark.p_positions WeldingSpark.p_sizes WeldingSpark.p_sparkLives
             WeldingSpark.p_velocities].
        f_equal.
        -- unfold sample. rewrite !read_write_ne by lia. reflexivity.
        -- rewrite read_write_ne by lia. reflexivity.
        -- rewrite read_write_ne by lia. reflexivity.
        -- rewrite at_assign by lia. rewrite (proj2 (Nat.eqb_neq i j)) by lia. reflexivity.
    + (* the spark moves down to slot [k] *)
      assert (E : (i =? k)%nat = false) by (apply Nat.eqb_neq; exact Nik). rewrite E.
      cbn [negb WeldingSpark.s_pool WeldingSpark.aliveCount WeldingSpark.s_rng
           WeldingSpark.p_positions WeldingSpark.p_sizes WeldingSpark.p_sparkLives
           WeldingSpark.p_velocities WeldingSpark.p_activeParticles].
      rewrite !length_write, !length_assign.
      repeat split; try lia.
      * unfold sparkAt.
        cbn [WeldingSpark.p_positions WeldingSpark.p_sizes WeldingSpark.p_sparkLives
             WeldingSpark.p_velocities position size velocity x y z].
        f_equal.
        -- unfold sample, add. cbn [x y z].
           rewrite !read_write by (rewrite ?length_write; lia).
           repeat match goal with
                  | |- context [(?a =? ?b)%nat] =>
                    first [ rewrite (Nat.eqb_refl a)
                          | rewrite (proj2 (Nat.eqb_neq a b)) by lia ]
                  end.
           reflexivity.
        -- rewrite !read_write by (rewrite ?length_write; lia).
           rewrite !Nat.eqb_refl. reflexivity.
        -- rewrite !read_write by (rewrite ?length_write; lia).
           rewrite !Nat.eqb_refl. reflexivity.
        -- rewrite !at_assign by (rewrite ?length_assign; lia).
           rewrite !Nat.eqb_refl. reflexivity.
      * intros j Hji Hjk. unfold sparkAt.
        cbn [WeldingSpark.p_positions WeldingSpark.p_sizes WeldingSpark.p_sparkLives
             WeldingSpark.p_velocities].
        f_equal.
        -- unfold sample. rewrite !read_write_ne by lia. reflexivity.
        -- rewrite !read_write_ne by lia. reflexivity.
        -- rewrite !read_write_ne by lia. reflexivity.
        -- rewrite !at_assign by (rewrite ?length_assign; lia).
           rewrite (proj2 (Nat.eqb_neq i j)) by lia.
           rewrite (proj2 (Nat.eqb_neq k j)) by lia. reflexivity.
  - cbn [WeldingSpark.s_pool WeldingSpark.aliveCount WeldingSpark.s_rng
         WeldingSpark.p_positions WeldingSpark.p_sizes WeldingSpark.p_sparkLives
         WeldingSpark.p_velocities WeldingSpark.p_activeParticles].
    rewrite !length_write.
    repeat split; try lia.
    intros j Hji. unfold sparkAt.
    cbn [WeldingSpark.p_positions WeldingSpark.p_sizes WeldingSpark.p_sparkLives
         WeldingSpark.p_velocities].
    f_equal. rewrite read_write_ne by lia. reflexivity.
Qed.

(** The compaction loop leaves, in the first [aliveCount] slots, the
    sparks that outlive the tick, in their old order. *)
Lemma sweep_spec (s0 : WeldingSpark.Pool) (g : Rng) (n cap : nat) :
  length (WeldingSpark.p_positions s0) = (cap * 3)%nat ->
  length (WeldingSpark.p_sizes s0) = cap ->
  length (WeldingSpark.p_sparkLives s0) = cap ->
  (n <= cap)%nat -> (n <= length (WeldingSpark.p_velocities s0))%nat ->
  let st := for_up n WeldingSpark.sweepOne (WeldingSpark.mkSweep s0 0 g) in
  let s := WeldingSpark.s_pool st in
  WeldingSpark.s_rng st = mkRng (draws g) (cursor g + n) /\
  length (WeldingSpark.p_positions s) = (cap * 3)%nat /\
  length (WeldingSpark.p_sizes s) = cap /\
  length (WeldingSpark.p_sparkLives s) = cap /\
  length (WeldingSpark.p_velocities s) = length (WeldingSpark.p_velocities s0) /\
  (WeldingSpark.aliveCount st <= n)%nat /\
  prefix s (WeldingSpark.aliveCount st) = survivors (draws g) (cursor g) (prefix s0 n) /\
  forall j, (n <= j)%nat -> sparkAt s j = sparkAt s0 j.
Proof.
  intros Hpos Hsizes Hlives Hn Hvel.
  apply (for_up_invariant
    (fun i st =>
       (i <= n)%nat ->
       let s := WeldingSpark.s_pool st in
       WeldingSpark.s_rng st = mkRng (draws g) (cursor g + i) /\
       length (WeldingSpark.p_positions s) = (cap * 3)%nat /\
       length (WeldingSpark.p_sizes s) = cap /\
       length (WeldingSpark.p_sparkLives s) = cap /\
       length (WeldingSpark.p_velocities s) = length (WeldingSpark.p_velocities s0) /\
       (WeldingSpark.aliveCount st <= i)%nat /\
       prefix s (WeldingSpark.aliveCount st) = survivors (draws g) (cursor g) (prefix s0 i) /\
       forall j, (i <= j)%nat -> sparkAt s j = sparkAt s0 j)); [| | lia].
  - intros _. cbn. rewrite Nat.add_0_r. destruct g. repeat split; try assumption; lia.
  - intros st i Hi IH _.
    destruct (IH ltac:(lia)) as (Hrng & Hp & Hs & Hl & Hv & Hk & Hpre & Hsuf).
    destruct (sweepOne_spec st i cap Hp Hs Hl ltac:(lia) ltac:(lia) Hk)
      as (Hrng' & Hp' & Hs' & Hl' & Hv' & _ & Hage).
    rewrite Hrng in Hrng', Hage. cbn [draws cursor] in Hrng', Hage.
    rewrite (Hsuf i ltac:(lia)) in Hage.
    assert (Hsplit : survivors (draws g) (cursor g) (prefix s0 (S i)) =
                     survivors (draws g) (cursor g) (prefix s0 i) ++
                     match age (draws g (cursor g + i)) (sparkAt s0 i) with
                     | Some born => [born]
                     | None => []
                     end).
    { rewrite prefix_S, survivors_app, prefix_length. cbn [survivors].
      destruct (age _ _); reflexivity. }
    cbv zeta. rewrite Hsplit.
    split; [rewrite Hrng'; f_equal; lia |].
    split; [exact Hp' |]. split; [exact Hs' |]. split; [exact Hl' |].
    split; [rewrite Hv'; exact Hv |].
    destruct (age (draws g (cursor g + i)) (sparkAt s0 i)) as [born |].
    + destruct Hage as (Hk' & Hborn & Hrest). rewrite Hk'. split; [lia |]. split.
      * rewrite prefix_S, Hborn, <- Hpre. f_equal.
        apply prefix_ext. intros j Hj. apply Hrest; lia.
      * intros j Hj. rewrite Hrest by lia. apply Hsuf. lia.
    + destruct Hage as (Hk' & Hrest). rewrite Hk'. split; [lia |]. split.
      * rewrite app_nil_r, <- Hpre. apply prefix_ext. intros j Hj. apply Hrest; lia.
      * intros j Hj. rewrite Hrest by lia. apply Hsuf. lia.
Qed.

(** ** [WeldingSpark]: emission and the capacity *)

Lemma num_mul3 (n : nat) : num (n * 3) == num n * 3.
Proof.
  unfold num. rewrite Nat2Z.inj_mul, inject_Z_mult. reflexivity.
Qed.

Lemma num_lt (i j : nat) : num i < num j <-> (i < j)%nat.
Proof. unfold num. rewrite <- Zlt_Qlt. lia. Qed.

(** The [break] test of the emission loop compares the live count with
    the capacity. *)
Lemma full_test (a cap : nat) (positions : list Q) :
  length positions = (cap * 3)%nat ->
  geb (num a) (num (length positions) / 3) = true <-> (cap <= a)%nat.
Proof.
  intros Hlen. rewrite Hlen, geb_true.
  assert (E : num (cap * 3) / 3 == num cap) by (rewrite num_mul3; field).
  rewrite E. split.
  - intros Hle. destruct (Nat.lt_ge_cases a cap) as [Hlt | Hge]; [| exact Hge].
    apply num_lt in Hlt. lra.
  - apply num_le.
Qed.

Lemma emitOne_spec `{Trig} (params : Params) (origin tangent : Vector3)
    (s : WeldingSpark.Pool) (g : Rng) (cap : nat) :
  let s' := fst (WeldingSpark.emitOne params origin tangent s g) in
  let a := WeldingSpark.p_activeParticles s in
  (a <= length (WeldingSpark.p_velocities s))%nat ->
  length (WeldingSpark.p_positions s') = length (WeldingSpark.p_positions s) /\
  length (WeldingSpark.p_sizes s') = length (WeldingSpark.p_sizes s) /\
  length (WeldingSpark.p_sparkLives s') = length (WeldingSpark.p_sparkLives s) /\
  WeldingSpark.p_activeParticles s' = S a /\
  (S a <= length (WeldingSpark.p_velocities s'))%nat.
Proof.
  intros s' a Ha. subst s'. unfold WeldingSpark.emitOne, Math_random. cbn.
  rewrite !length_write, length_assign. fold a. repeat split; lia.
Qed.

Lemma emitLoop_spec `{Trig} (params : Params) (origin tangent : Vector3)
    (n : nat) (s : WeldingSpark.Pool) (g : Rng) (cap : nat) :
  let s' := fst (WeldingSpark.emitLoop params origin tangent n s g) in
  let a := WeldingSpark.p_activeParticles s in
  length (WeldingSpark.p_positions s) = (cap * 3)%nat ->
  (a <= cap)%nat ->
  (a <= length (WeldingSpark.p_velocities s))%nat ->
  length (WeldingSpark.p_positions s') = length (WeldingSpark.p_positions s) /\
  length (WeldingSpark.p_sizes s') = length (WeldingSpark.p_sizes s) /\
  length (WeldingSpark.p_sparkLives s') = length (WeldingSpark.p_sparkLives s) /\
  WeldingSpark.p_activeParticles s' = Nat.min (a + n) cap /\
  (WeldingSpark.p_activeParticles s' <= length (WeldingSpark.p_velocities s'))%nat.
Proof.
  revert s g. induction n as [| n IH]; intros s g s' a Hpos Hcap Hvel; subst s'.
  - cbn. fold a. repeat split; lia.
  - cbn [WeldingSpark.emitLoop].
    destruct (geb (num (WeldingSpark.p_activeParticles s))
                (num (length (WeldingSpark.p_positions s)) / 3)) eqn:Hfull.
    + apply (full_test _ cap _ Hpos) in Hfull. cbn. fold a in Hfull |- *. repeat split; lia.
    + assert (Hroom : (a < cap)%nat).
      { destruct (Nat.lt_ge_cases a cap) as [Hlt | Hge]; [exact Hlt |].
        apply (full_test _ cap _ Hpos) in Hge. unfold a in Hge. congruence. }
      destruct (emitOne_spec params origin tangent s g cap Hvel) as (Hp & Hs & Hl & Ha & Hv).
      destruct (WeldingSpark.emitOne params origin tangent s g) as [s1 g1]. cbn [fst] in *.
      destruct (IH s1 g1) as (Hp' & Hs' & Hl' & Ha' & Hv').
      * rewrite Hp. exact Hpos.
      * rewrite Ha. fold a. lia.
      * rewrite Ha. exact Hv.
      * rewrite Hp', Hs', Hl', Ha', Ha, Hp, Hs, Hl. fold a. repeat split; lia.
Qed.

(** At capacity the emission loop changes nothing and draws nothing. *)
Lemma emitLoop_full `{Trig} (params : Params) (origin tangent : Vector3)
    (n : nat) (s : WeldingSpark.Pool) (g : Rng) (cap : nat) :
  length (WeldingSpark.p_positions s) = (cap * 3)%nat ->
  (cap <= WeldingSpark.p_activeParticles s)%nat ->
  WeldingSpark.emitLoop params origin tangent n s g = (s, g).
Proof.
  intros Hpos Hfull. destruct n as [| n]; [reflexivity |]. cbn [WeldingSpark.emitLoop].
  apply (full_test _ cap _ Hpos) in Hfull. rewrite Hfull. reflexivity.
Qed.

Lemma emitSparks_spec `{Trig} (params : Params) (p : WeldingSpark.t) (g : Rng) :
  WeldingSpark.wf p ->
  (WeldingSpark.activeParticles p <= WeldingSpark.capacity p)%nat ->
  let q := fst (WeldingSpark.emitSparks params p g) in
  WeldingSpark.wf q /\
  WeldingSpark.maxLife q = WeldingSpark.maxLife p /\
  WeldingSpark.activeParticles q =
    Nat.min (WeldingSpark.activeParticles p +
             Z.to_nat (Math_floor (2 + draws g (cursor g) * 5)))
            (WeldingSpark.capacity p) /\
  WeldingSpark.drawRange q = WeldingSpark.activeParticles q.
Proof.
  intros (Hpos & Hsizes & Hlives & Hvel) Hcap q. subst q.
  unfold WeldingSpark.emitSparks, Math_random.
  match goal with
  | |- context [WeldingSpark.emitLoop params ?o ?t ?n ?s ?g0] =>
    destruct (emitLoop_spec params o t n s g0 (WeldingSpark.capacity p) Hpos Hcap Hvel)
      as (Hp & Hs & Hl & Ha & Hv);
    destruct (WeldingSpark.emitLoop params o t n s g0) as [s1 g1]
  end.
  cbn [fst WeldingSpark.pool WeldingSpark.p_positions WeldingSpark.p_sizes
       WeldingSpark.p_sparkLives WeldingSpark.p_velocities
       WeldingSpark.p_activeParticles] in *.
  unfold WeldingSpark.wf, WeldingSpark.capacity in *. cbn.
  rewrite Hp, Hs, Hl. repeat split; try assumption.
Qed.

Lemma emitSparks_full `{Trig} (params : Params) (p : WeldingSpark.t) (g : Rng) :
  WeldingSpark.wf p ->
  (WeldingSpark.capacity p <= WeldingSpark.activeParticles p)%nat ->
  WeldingSpark.pool (fst (WeldingSpark.emitSparks params p g)) = WeldingSpark.pool p.
Proof.
  intros (Hpos & _) Hfull. unfold WeldingSpark.emitSparks, Math_random.
  rewrite (emitLoop_full _ _ _ _ _ _ (WeldingSpark.capacity p)); [reflexivity | exact Hpos |].
  exact Hfull.
Qed.

Lemma advance_spec `{Trig} (params : Params) (p : WeldingSpark.t) (g : Rng) :
  WeldingSpark.wf p ->
  (WeldingSpark.activeParticles p <= WeldingSpark.capacity p)%nat ->
  let q := fst (WeldingSpark.advance params p g) in
  WeldingSpark.wf q /\
  WeldingSpark.maxLife q = WeldingSpark.maxLife p /\
  (WeldingSpark.activeParticles q <= WeldingSpark.capacity q)%nat.
Proof.
  intros Hwf Hcap q. subst q. unfold WeldingSpark.advance.
  destruct (geb _ 1); [destruct (randomScatter _ g) as [so g1] |];
    (destruct (Math_random _) as [r g2]; destruct (gtb r _);
     [match goal with
      | |- context [WeldingSpark.emitSparks params ?p0 ?g0] =>
        destruct (emitSparks_spec params p0 g0 Hwf Hcap) as (Hw & Hm & Ha & _)
      end;
      split; [exact Hw |]; split; [exact Hm |];
      unfold WeldingSpark.capacity in *; rewrite Hm, Ha; cbn; lia
     | repeat split; solve [apply Hwf | exact Hcap] ]).
Qed.

Lemma update_spec `{Trig} (params : Params) (p : WeldingSpark.t) (g : Rng) :
  WeldingSpark.wf p ->
  (WeldingSpark.activeParticles p <= WeldingSpark.capacity p)%nat ->
  let p1 := fst (WeldingSpark.advance params p g) in
  let g1 := snd (WeldingSpark.advance params p g) in
  let q := fst (WeldingSpark.update params p g) in
  WeldingSpark.wf q /\
  WeldingSpark.maxLife q = WeldingSpark.maxLife p /\
  (WeldingSpark.activeParticles q <= WeldingSpark.activeParticles p1)%nat /\
  (WeldingSpark.activeParticles p1 <= WeldingSpark.capacity p)%nat /\
  WeldingSpark.drawRange q = WeldingSpark.activeParticles q /\
  liveSparks q = survivors (draws g1) (cursor g1) (liveSparks p1).
Proof.
  intros Hwf Hcap p1 g1 q.
  destruct (advance_spec params p g Hwf Hcap) as ((Hpos & Hsizes & Hlives & Hvel) & Hm & Ha).
  fold p1 in Hpos, Hsizes, Hlives, Hvel, Hm, Ha.
  subst q. unfold WeldingSpark.update.
  destruct (WeldingSpark.advance params p g) as [p1' g1'] eqn:Hadv.
  cbn [fst snd] in p1, g1. subst p1 g1.
  destruct (sweep_spec (WeldingSpark.pool p1') g1' (WeldingSpark.activeParticles p1')
              (WeldingSpark.capacity p1') Hpos Hsizes Hlives Ha Hvel)
    as (_ & Hp & Hs & Hl & Hv & Hk & Hpre & _).
  unfold liveSparks, WeldingSpark.wf, WeldingSpark.capacity in *.
  cbn [fst WeldingSpark.pool WeldingSpark.maxLife WeldingSpark.positions WeldingSpark.sizes
       WeldingSpark.sparkLives WeldingSpark.velocities WeldingSpark.activeParticles
       WeldingSpark.drawRange WeldingSpark.p_positions WeldingSpark.p_sizes
       WeldingSpark.p_sparkLives WeldingSpark.p_velocities] in *.
  repeat split; try assumption; lia.
Qed.

Lemma constructor_spec `{Trig} (params : Params) (path : Curve) (n : nat)
    (speedFactor sparkHeat scatterRadius : Q) (g : Rng) :
  let p := fst (WeldingSpark.constructor params path n speedFactor sparkHeat scatterRadius g) in
  WeldingSpark.wf p /\
  WeldingSpark.maxLife p = n /\
  (WeldingSpark.activeParticles p <= WeldingSpark.capacity p)%nat.
Proof.
  unfold WeldingSpark.constructor, randomScatter, Math_random. cbn [draws cursor].
  match goal with
  | |- context [WeldingSpark.emitSparks params ?p0 ?g0] =>
    assert (Hwf : WeldingSpark.wf p0)
      by (unfold WeldingSpark.wf, WeldingSpark.capacity, Float32Array; cbn;
          rewrite !length_replicate; repeat split; lia);
    destruct (emitSparks_spec params p0 g0 Hwf ltac:(cbn; lia)) as (Hw & Hm & Ha & _)
  end.
  cbv zeta in *. split; [exact Hw |]. split; [exact Hm |].
  unfold WeldingSpark.capacity in *. rewrite Hm, Ha. cbn. lia.
Qed.

Lemma calls_spec `{Trig} (params : nat -> Params) (cs : list Call)
    (p : WeldingSpark.t) (g : Rng) :
  WeldingSpark.wf p ->
  (WeldingSpark.activeParticles p <= WeldingSpark.capacity p)%nat ->
  let q := fst (calls params cs p g) in
  WeldingSpark.wf q /\
  WeldingSpark.maxLife q = WeldingSpark.maxLife p /\
  (WeldingSpark.activeParticles q <= WeldingSpark.capacity q)%nat.
Proof.
  revert params p g. induction cs as [| c cs IH]; intros params p g Hwf Hcap.
  - cbn. repeat split; solve [apply Hwf | exact Hcap].
  - cbn [calls].
    assert (Hstep : let p1 := fst (call (params 0%nat) c p g) in
                    WeldingSpark.wf p1 /\
                    WeldingSpark.maxLife p1 = WeldingSpark.maxLife p /\
                    (WeldingSpark.activeParticles p1 <= WeldingSpark.capacity p1)%nat).
    { destruct c; cbn [call].
      - destruct (emitSparks_spec (params 0%nat) p g Hwf Hcap) as (Hw & Hm & Ha & _).
        split; [exact Hw |]. split; [exact Hm |].
        unfold WeldingSpark.capacity in *. rewrite Hm, Ha. lia.
      - destruct (update_spec (params 0%nat) p g Hwf Hcap) as (Hw & Hm & Ha & Hb & _).
        split; [exact Hw |]. split; [exact Hm |].
        unfold WeldingSpark.capacity in *. rewrite Hm. lia. }
    destruct (call (params 0%nat) c p g) as [p1 g1]. cbn [fst] in Hstep.
    destruct Hstep as (Hw & Hm & Ha).
    destruct (IH (fun n => params (S n)) p1 g1 Hw Ha) as (Hw' & Hm' & Ha').
    split; [exact Hw' |]. split; [congruence | exact Ha'].
Qed.

(** C4.  After construction and any sequence of [emitSparks] and [update]
    calls, under any configurations, the pool of a welding spark built for
    trail length [n] holds [3 n] slots and at most that many live sparks;
    the buffers keep their lengths.  An emission adds sparks up to the
    capacity and no further, and at capacity it leaves the pool as it
    is. *)
Theorem pool_never_exceeds_capacity `{Trig} (params0 : Params) (path : Curve) (n : nat)
    (speedFactor sparkHeat scatterRadius : Q) (g : Rng)
    (params : nat -> Params) (cs : list Call) :
  let start := WeldingSpark.constructor params0 path n speedFactor sparkHeat scatterRadius g in
  let p := fst (calls params cs (fst start) (snd start)) in
  WeldingSpark.capacity p = (3 * n)%nat /\
  (WeldingSpark.activeParticles p <= 3 * n)%nat /\
  length (WeldingSpark.positions p) = (3 * n * 3)%nat /\
  length (WeldingSpark.sizes p) = (3 * n)%nat /\
  length (WeldingSpark.sparkLives p) = (3 * n)%nat /\
  forall params' g',
    let q := fst (WeldingSpark.emitSparks params' p g') in
    WeldingSpark.activeParticles q =
      Nat.min (WeldingSpark.activeParticles p +
               Z.to_nat (Math_floor (2 + draws g' (cursor g') * 5)))
              (3 * n) /\
    length (WeldingSpark.positions q) = (3 * n * 3)%nat /\
    (WeldingSpark.activeParticles p = (3 * n)%nat ->
     WeldingSpark.pool q = WeldingSpark.pool p).
Proof.
  intros start p.
  destruct (constructor_spec params0 path n speedFactor sparkHeat scatterRadius g)
    as (Hw0 & Hm0 & Ha0).
  fold start in Hw0, Hm0, Ha0.
  destruct (calls_spec params cs (fst start) (snd start) Hw0 Ha0) as (Hw & Hm & Ha).
  fold p in Hw, Hm, Ha.
  assert (Hcap : WeldingSpark.capacity p = (3 * n)%nat).
  { unfold WeldingSpark.capacity. rewrite Hm, Hm0. lia. }
  pose proof Hw as (Hpos & Hsizes & Hlives & Hvel).
  split; [exact Hcap |]. split; [lia |]. split; [lia |]. split; [lia |]. split; [lia |].
  intros params' g' q.
  destruct (emitSparks_spec params' p g' Hw Ha) as ((Hpos' & _) & Hm' & Ha' & _).
  fold q in Hpos', Hm', Ha'. split; [rewrite Ha', Hcap; reflexivity |]. split.
  - rewrite Hpos'. unfold WeldingSpark.capacity. rewrite Hm', Hm, Hm0. lia.
  - intros Hfull. apply emitSparks_full; [exact Hw | lia].
Qed.

(** C5, as the code has it.  In [update] the loop over the live sparks
    moves each spark that outlives the tick down to the next free slot, so
    the order among live sparks is kept: after the tick the first
    [activeParticles] slots of the pool arrays hold exactly the sparks that
    outlived it, aged by one tick, in their old order, every one of them
    with life above zero, and the draw range is that prefix length. *)
Theorem compaction_keeps_order `{Trig} (params : Params) (p : WeldingSpark.t) (g : Rng) :
  WeldingSpark.wf p ->
  (WeldingSpark.activeParticles p <= WeldingSpark.capacity p)%nat ->
  let p1 := fst (WeldingSpark.advance params p g) in
  let g1 := snd (WeldingSpark.advance params p g) in
  let q := fst (WeldingSpark.update params p g) in
  liveSparks q = survivors (draws g1) (cursor g1) (liveSparks p1) /\
  length (liveSparks q) = WeldingSpark.activeParticles q /\
  Forall (fun s => 0 < life s) (liveSparks q) /\
  WeldingSpark.drawRange q = WeldingSpark.activeParticles q /\
  (WeldingSpark.activeParticles q <= WeldingSpark.activeParticles p1)%nat /\
  (WeldingSpark.activeParticles q <= WeldingSpark.capacity q)%nat.
Proof.
  intros Hwf Hcap p1 g1 q.
  destruct (update_spec params p g Hwf Hcap) as (Hw & Hm & Ha & Hb & Hd & Hlive).
  fold p1 g1 q in Hw, Hm, Ha, Hb, Hd, Hlive.
  split; [exact Hlive |]. split; [apply prefix_length |].
  split; [rewrite Hlive; apply survivors_alive |].
  split; [exact Hd |]. split; [exact Ha |].
  unfold WeldingSpark.capacity in *. rewrite Hm. lia.
Qed.

Lemma compaction_keeps_order_witness :
  map (fun s => Qred (life s))
      (liveSparks (fst (@WeldingSpark.update demoTrig demoParams demoPool demoRngHalf))) =
  map (fun s => Qred (life s))
      (survivors (draws demoRngHalf) 1
         (liveSparks (fst (@WeldingSpark.advance demoTrig demoParams demoPool demoRngHalf)))).
Proof.
  assert (Hwf : WeldingSpark.wf demoPool) by (repeat split; evaluated).
  assert (Hcap : (WeldingSpark.activeParticles demoPool <= WeldingSpark.capacity demoPool)%nat)
    by evaluated.
  rewrite (proj1 (@compaction_keeps_order demoTrig demoParams demoPool demoRngHalf Hwf Hcap)).
  reflexivity.
Defined.

(** Against C5 as stated: when the spark in slot 0 expires, slot 0 is
    taken by the spark of slot 1, not by the last live spark, and the two
    survivors keep their order; removal by swapping in the last live spark
    would leave them the other way round. *)
Lemma compaction_is_not_swap_removal :
  let q := fst (@WeldingSpark.update demoTrig demoParams demoPool demoRngHalf) in
  map (fun s => Qred (life s)) (liveSparks demoPool) = [1 # 100; 3 # 5; 4 # 5] /\
  map (fun s => Qred (life s)) (liveSparks q) = [14 # 25; 19 # 25] /\
  map (fun s => Qred (life s))
      (swapRemoval 3 (draws demoRngHalf) 1 0 (liveSparks demoPool)) = [19 # 25; 14 # 25] /\
  liveSparks q <> swapRemoval 3 (draws demoRngHalf) 1 0 (liveSparks demoPool).
Proof.
  cbv zeta. split; [reflexivity |]. split; [vm_compute; reflexivity |].
  split; [vm_compute; reflexivity |].
  intros E.
  apply (f_equal (map (fun s => Qred (life s)))) in E. vm_compute in E. discriminate E.
Qed.

(** * Further properties *)

(** ** Scatter offsets and wrapped curve parameters *)

(** X1.  With draws in [0, 1) and a non-negative radius, every component
    of a freshly drawn scatter offset lies between [-radius] and [radius],
    and drawing it takes exactly the next three values of the stream. *)
Theorem randomScatter_bounded (radius : Q) (g : Rng) :
  rng_ok g ->
  0 <= radius ->
  let v := fst (randomScatter radius g) in
  (- radius <= x v /\ x v <= radius) /\
  (- radius <= y v /\ y v <= radius) /\
  (- radius <= z v /\ z v <= radius) /\
  x v = (draws g (cursor g) - (1 # 2)) * 2 * radius /\
  y v = (draws g (S (cursor g)) - (1 # 2)) * 2 * radius /\
  z v = (draws g (S (S (cursor g))) - (1 # 2)) * 2 * radius /\
  snd (randomScatter radius g) = mkRng (draws g) (S (S (S (cursor g)))).
Proof.
  intros Hg Hr. cbn.
  destruct (Hg (cursor g)) as [H1 H1'].
  destruct (Hg (S (cursor g))) as [H2 H2'].
  destruct (Hg (S (S (cursor g)))) as [H3 H3'].
  repeat split; nra.
Qed.

Lemma randomScatter_bounded_witness :
  - (11 # 10) <= x (fst (randomScatter (11 # 10) demoRng)) /\
  x (fst (randomScatter (11 # 10) demoRng)) <= 11 # 10.
Proof.
  assert (Hg : rng_ok demoRng).
  { intros n. destruct n as [| [| [| n]]]; split; evaluated. }
  assert (Hr : 0 <= 11 # 10) by evaluated.
  exact (proj1 (randomScatter_bounded (11 # 10) demoRng Hg Hr)).
Defined.

Lemma rem1_fraction (a : Q) :
  rem1 a == Z.rem (Qnum a) (Zpos (Qden a)) # Qden a.
Proof.
  unfold rem1, Qtrunc. destruct a as [n d]. cbn [Qnum Qden].
  pose proof (Z.quot_rem' n (Zpos d)) as E.
  unfold Qeq, Qminus, Qplus, Qopp, inject_Z. cbn [Qnum Qden].
  rewrite E at 1. nia.
Qed.

Lemma rem1_range (a : Q) : - (1) < rem1 a /\ rem1 a < 1.
Proof.
  rewrite rem1_fraction. destruct a as [n d]. cbn [Qnum Qden].
  unfold Qlt. cbn [Qnum Qden Qopp].
  pose proof (Z.rem_bound_abs n (Zpos d) ltac:(lia)) as Hb. lia.
Qed.

(** X2.  The wrap [((t % 1) + 1) % 1] that the constructors and the comet
    tail apply to a curve parameter lands in [0, 1) for every [t], positive
    or negative, moves [t] by a whole number, and leaves a [t] already in
    [0, 1) where it is. *)
Theorem wrap_unit_interval (t : Q) :
  (0 <= wrap t /\ wrap t < 1) /\
  (exists k : Z, wrap t == t + inject_Z k) /\
  (0 <= t -> t < 1 -> wrap t == t).
Proof.
  assert (Hrange : 0 <= wrap t /\ wrap t < 1).
  { unfold wrap. destruct (rem1_range t) as [Hlo Hhi].
    rewrite rem1_mod1 by lra. apply mod1_range. }
  assert (Hint : exists k : Z, wrap t == t + inject_Z k).
  { exists (1 + - Qtrunc t + - Qtrunc (rem1 t + 1))%Z. unfold wrap, rem1.
    rewrite !inject_Z_plus, !inject_Z_opp. change (inject_Z 1) with 1. ring. }
  split; [exact Hrange |]. split; [exact Hint |].
  intros H0 H1. destruct Hint as [k Hk]. destruct Hrange as [Hw0 Hw1].
  assert (Hk0 : k = 0%Z).
  { assert (Hlo : (-1 < k)%Z).
    { rewrite Zlt_Qlt. change (inject_Z (-1)) with (- (1)). lra. }
    assert (Hhi : (k < 1)%Z).
    { rewrite Zlt_Qlt. change (inject_Z 1) with 1. lra. }
    lia. }
  rewrite Hk, Hk0. change (inject_Z 0) with 0. ring.
Qed.

(** ** The shape of the lifecycle alpha *)

Lemma clamp01_cases (a : Q) :
  (a <= 0 /\ clamp01 a == 0) \/ (0 <= a /\ a <= 1 /\ clamp01 a == a) \/
  (1 <= a /\ clamp01 a == 1).
Proof.
  unfold clamp01. destruct (Qlt_le_dec a 0); [left; split; lra |].
  destruct (Qlt_le_dec 1 a); [right; right; split; lra |].
  right; left. repeat split; lra.
Qed.

Lemma lifecycleAlphaSpec_cases (fadeIn stable fadeOut p : Q) :
  0 < fadeIn -> 0 < stable -> 0 < fadeOut ->
  let alpha := lifecycleAlphaSpec fadeIn stable fadeOut p in
  (p <= 0 /\ alpha == 0) \/
  (0 <= p /\ p < fadeIn /\ alpha * fadeIn == p) \/
  (fadeIn <= p /\ p <= fadeIn + stable /\ alpha == 1) \/
  (fadeIn + stable <= p /\ p <= fadeIn + stable + fadeOut /\
   (1 - alpha) * fadeOut == p - fadeIn - stable) \/
  (fadeIn + stable + fadeOut <= p /\ alpha == 0).
Proof.
  intros Hin Hst Hout alpha. subst alpha. unfold lifecycleAlphaSpec.
  destruct (Qlt_le_dec p fadeIn) as [H1 | H1].
  - assert (E : p / fadeIn * fadeIn == p) by (field; lra).
    destruct (clamp01_cases (p / fadeIn)) as [[Ha Hc] | [(Ha & Hb & Hc) | [Ha Hc]]].
    + left. split; [nra | exact Hc].
    + right; left. split; [nra |]. split; [exact H1 |]. rewrite Hc. exact E.
    + exfalso. nra.
  - destruct (Qlt_le_dec p (fadeIn + stable)) as [H2 | H2].
    + right; right; left. split; [exact H1 |]. split; [lra |].
      destruct (clamp01_cases 1) as [[Ha Hc] | [(Ha & Hb & Hc) | [Ha Hc]]]; lra.
    + set (d := (p - fadeIn - stable) / fadeOut).
      assert (E : d * fadeOut == p - fadeIn - stable) by (unfold d; field; lra).
      destruct (clamp01_cases (1 - d)) as [[Ha Hc] | [(Ha & Hb & Hc) | [Ha Hc]]].
      * right; right; right; right. split; [nra | exact Hc].
      * right; right; right; left. split; [exact H2 |]. split; [nra |].
        rewrite Hc. rewrite <- E. ring.
      * right; right; left. split; [exact H1 |]. split; [nra |]. exact Hc.
Qed.

(** X3.  With the lifecycle enabled and positive times, the alpha is 0
    exactly when the lifecycle position is at most 0 or at least
    [fadeIn + stable + fadeOut], and 1 exactly on the plateau from [fadeIn]
    to [fadeIn + stable].  So when the three times add up to more than 1,
    as the defaults do, a particle past its fade-in never fades out fully:
    its alpha stays positive, and during the fade-out it stays above
    [(fadeIn + stable + fadeOut - 1) / fadeOut]. *)
Theorem lifecycle_alpha_zero_and_one {P} `{Particle P} (params : Params) (particle : P) :
  lifecycle_enabled params = true ->
  0 < lifecycle_fadeInTime params ->
  0 < lifecycle_stableTime params ->
  0 < lifecycle_fadeOutTime params ->
  let fadeIn := lifecycle_fadeInTime params in
  let stable := lifecycle_stableTime params in
  let fadeOut := lifecycle_fadeOutTime params in
  let p := lifecyclePos particle in
  let alpha := calculateLifecycleAlpha params particle in
  (alpha == 0 <-> p <= 0 \/ fadeIn + stable + fadeOut <= p) /\
  (alpha == 1 <-> fadeIn <= p /\ p <= fadeIn + stable) /\
  (fadeIn <= p -> p < 1 -> 1 < fadeIn + stable + fadeOut -> 0 < alpha) /\
  (fadeIn + stable <= p -> p < 1 ->
   (fadeIn + stable + fadeOut - 1) / fadeOut < alpha).
Proof.
  intros Hen Hin Hst Hout fadeIn stable fadeOut p alpha.
  assert (Hspec : alpha == lifecycleAlphaSpec fadeIn stable fadeOut p)
    by (apply calculateLifecycleAlpha_enabled; exact Hen).
  change (0 < fadeIn) in Hin. change (0 < stable) in Hst. change (0 < fadeOut) in Hout.
  clearbody fadeIn stable fadeOut p alpha.
  pose proof (lifecycleAlphaSpec_cases fadeIn stable fadeOut p Hin Hst Hout) as Hcases.
  cbv zeta in Hcases. rewrite <- Hspec in Hcases. clear Hspec.
  split; [| split; [| split]].
  - split.
    + intros Hz.
      destruct Hcases as [[Ha Hc] | [(Ha & Hb & Hc) | [(Ha & Hb & Hc) | [(Ha & Hb & Hc) | [Ha Hc]]]]].
      * left. exact Ha.
      * left. nra.
      * lra.
      * right. nra.
      * right. exact Ha.
    + intros [Hp | Hp];
      destruct Hcases as [[Ha Hc] | [(Ha & Hb & Hc) | [(Ha & Hb & Hc) | [(Ha & Hb & Hc) | [Ha Hc]]]]];
        try lra; nra.
  - split.
    + intros Hone.
      destruct Hcases as [[Ha Hc] | [(Ha & Hb & Hc) | [(Ha & Hb & Hc) | [(Ha & Hb & Hc) | [Ha Hc]]]]];
        try lra; split; nra.
    + intros [Hp1 Hp2].
      destruct Hcases as [[Ha Hc] | [(Ha & Hb & Hc) | [(Ha & Hb & Hc) | [(Ha & Hb & Hc) | [Ha Hc]]]]];
        try lra; nra.
  - intros Hp1 Hp2 Hsum.
    destruct Hcases as [[Ha Hc] | [(Ha & Hb & Hc) | [(Ha & Hb & Hc) | [(Ha & Hb & Hc) | [Ha Hc]]]]];
      try lra; nra.
  - intros Hp1 Hp2. apply Qlt_shift_div_r; [exact Hout |].
    destruct Hcases as [[Ha Hc] | [(Ha & Hb & Hc) | [(Ha & Hb & Hc) | [(Ha & Hb & Hc) | [Ha Hc]]]]];
      try lra; nra.
Qed.

Lemma lifecycle_alpha_zero_and_one_witness :
  calculateLifecycleAlpha demoParams demoGlow == 1 <->
  9 # 100 <= lifecyclePos demoGlow /\ lifecyclePos demoGlow <= (9 # 100) + (9 # 10).
Proof.
  refine (proj1 (proj2 (lifecycle_alpha_zero_and_one demoParams demoGlow _ _ _ _)));
    reflexivity.
Defined.

(** X4.  With the lifecycle enabled and positive times, the alpha does not
    decrease with the lifecycle position up to the end of the plateau, and
    does not increase with it from the start of the plateau on. *)
Theorem lifecycle_alpha_monotone {P1 P2} `{Particle P1} `{Particle P2}
    (params : Params) (a : P1) (b : P2) :
  lifecycle_enabled params = true ->
  0 < lifecycle_fadeInTime params ->
  0 < lifecycle_stableTime params ->
  0 < lifecycle_fadeOutTime params ->
  lifecyclePos a <= lifecyclePos b ->
  let fadeIn := lifecycle_fadeInTime params in
  let stable := lifecycle_stableTime params in
  (lifecyclePos b <= fadeIn + stable ->
   calculateLifecycleAlpha params a <= calculateLifecycleAlpha params b) /\
  (fadeIn <= lifecyclePos a ->
   calculateLifecycleAlpha params b <= calculateLifecycleAlpha params a).
Proof.
  intros Hen Hin Hst Hout Hab fadeIn stable.
  pose proof (calculateLifecycleAlpha_enabled params a Hen) as Ha.
  pose proof (calculateLifecycleAlpha_enabled params b Hen) as Hb.
  pose proof (calculateLifecycleAlpha_range params a) as Ra.
  pose proof (calculateLifecycleAlpha_range params b) as Rb.
  fold fadeIn stable in Ha, Hb.
  change (0 < fadeIn) in Hin. change (0 < stable) in Hst.
  set (fadeOut := lifecycle_fadeOutTime params) in *.
  set (pa := lifecyclePos a) in *. set (pb := lifecyclePos b) in *.
  set (alphaA := calculateLifecycleAlpha params a) in *.
  set (alphaB := calculateLifecycleAlpha params b) in *.
  clearbody fadeIn stable fadeOut pa pb alphaA alphaB.
  pose proof (lifecycleAlphaSpec_cases fadeIn stable fadeOut pa Hin Hst Hout) as Ca.
  pose proof (lifecycleAlphaSpec_cases fadeIn stable fadeOut pb Hin Hst Hout) as Cb.
  cbv zeta in Ca, Cb. rewrite <- Ha in Ca. rewrite <- Hb in Cb. clear Ha Hb.
  split; intros Hp;
    destruct Ca as [[A1 A2] | [(A1 & A2 & A3) | [(A1 & A2 & A3) | [(A1 & A2 & A3) | [A1 A2]]]]];
    destruct Cb as [[B1 B2] | [(B1 & B2 & B3) | [(B1 & B2 & B3) | [(B1 & B2 & B3) | [B1 B2]]]]];
    try lra; nra.
Qed.

Lemma lifecycle_alpha_monotone_witness :
  calculateLifecycleAlpha demoParams demoGlow <= calculateLifecycleAlpha demoParams demoGlowLate.
Proof.
  refine (proj1 (lifecycle_alpha_monotone demoParams demoGlow demoGlowLate _ _ _ _ _) _);
    evaluated.
Defined.

(** ** [GlowParticle]: construction and the advancing tick *)

(** A loop that fills sample [i] with [f i] and weight [i] with [h i]. *)
Lemma for_up_fill (f : nat -> Vector3) (h : nat -> Q) (n : nat) (a b : list Q) :
  length a = (n * 3)%nat -> length b = n ->
  let r := for_up n (fun '(positions, weights) i =>
                       (toArray (f i) positions (i * 3), write weights i (h i))) (a, b) in
  length (fst r) = (n * 3)%nat /\ length (snd r) = n /\
  (forall i, (i < n)%nat -> sample (fst r) i = f i) /\
  (forall i, (i < n)%nat -> read (snd r) i = h i).
Proof.
  intros Ha Hb.
  apply (for_up_invariant
           (fun k (r : list Q * list Q) =>
              length (fst r) = (n * 3)%nat /\ length (snd r) = n /\
              (forall i, (i < k)%nat -> sample (fst r) i = f i) /\
              (forall i, (i < k)%nat -> read (snd r) i = h i))).
  - cbn. repeat split; try assumption; intros i Hi; lia.
  - intros [positions weights] k Hk (Hlp & Hlw & Hs & Hr). cbn [fst snd] in *.
    split; [rewrite length_toArray; exact Hlp |].
    split; [rewrite length_write; exact Hlw |]. split.
    + intros i Hi. destruct (Nat.eq_dec i k) as [-> | Hne].
      * apply sample_toArray_eq. lia.
      * rewrite sample_toArray_ne by lia. apply Hs. lia.
    + intros i Hi. destruct (Nat.eq_dec i k) as [-> | Hne].
      * apply read_write_eq. lia.
      * rewrite read_write_ne by lia. apply Hr. lia.
Qed.

Lemma length_Float32Array (n : nat) : length (Float32Array n) = n.
Proof. unfold Float32Array. apply length_replicate. Qed.

(** X5.  A freshly constructed glow particle, with draws in [0, 1) and a
    non-negative [randomOffset]: its buffers hold [3 n] coordinates and [n]
    weights; [currentT] lies in [0, 1) and [lifecycleOffset] between 0 and
    [randomOffset]; the reset flag is down and the lifecycle uniform is 1;
    trail sample [i] is the path point at the wrapped parameter
    [currentT - i / 1000] plus the scatter offset; the weights are the
    linear ramp with the head at exactly 1. *)
Theorem glow_constructor_state (params : Params) (path : Curve) (n : nat)
    (speedFactor boldness scatterRadius : Q) (g : Rng) :
  rng_ok g ->
  0 <= lifecycle_randomOffset params ->
  let p := fst (GlowParticle.constructor params path n speedFactor boldness scatterRadius g) in
  GlowParticle.wf p /\
  GlowParticle.trailLength p = n /\
  GlowParticle.path p = path /\
  (0 <= GlowParticle.currentT p /\ GlowParticle.currentT p < 1) /\
  (0 <= GlowParticle.lifecycleOffset p /\
   GlowParticle.lifecycleOffset p <= lifecycle_randomOffset params) /\
  GlowParticle.justReset p = false /\
  GlowParticle.uLifecycleAlpha p = 1 /\
  (forall i, (i < n)%nat ->
     sample (GlowParticle.trailPositions p) i =
     add (getPointAt path (wrap (GlowParticle.currentT p - num i * (1 # 1000))))
         (GlowParticle.scatterOffset p)) /\
  ((0 < n)%nat -> read (GlowParticle.trailAlphas p) 0 = 1) /\
  (forall i, (i < n)%nat -> read (GlowParticle.trailAlphas p) i == ramp n i).
Proof.
  intros Hg Hoff. unfold GlowParticle.constructor, randomScatter, Math_random.
  cbn [draws cursor].
  set (currentT := draws g (cursor g)).
  set (offset := draws g (S (S (cursor g))) * lifecycle_randomOffset params).
  set (scatter := mkVector3 _ _ _).
  destruct (for_up_fill
              (fun i => add (getPointAt path (wrap (currentT - num i * (1 # 1000)))) scatter)
              (ramp n) n (Float32Array (n * 3)) (Float32Array n)
              (length_Float32Array _) (length_Float32Array _))
    as (Hlp & Hlw & Hs & Hr).
  unfold wrap in Hlp, Hlw, Hs, Hr.
  destruct (for_up n _ _) as [positions weights]. cbn [fst snd] in *.
  destruct (Hg (cursor g)) as [Hc0 Hc1]. destruct (Hg (S (S (cursor g)))) as [Ho0 Ho1].
  fold currentT in Hc0, Hc1.
  cbv zeta. unfold GlowParticle.wf.
  cbn [fst GlowParticle.trailPositions GlowParticle.trailAlphas GlowParticle.trailLength
       GlowParticle.path GlowParticle.currentT GlowParticle.lifecycleOffset
       GlowParticle.justReset GlowParticle.uLifecycleAlpha GlowParticle.scatterOffset].
  assert (Hlw' : length (if (0 <? n)%nat then write weights 0 1 else weights) = n).
  { destruct (0 <? n)%nat; [rewrite length_write |]; exact Hlw. }
  split; [split; assumption |]. split; [reflexivity |]. split; [reflexivity |].
  split; [split; assumption |].
  split; [unfold offset; split; nra |].
  split; [reflexivity |]. split; [reflexivity |].
  split; [exact Hs |]. split.
  - intros Hn. apply Nat.ltb_lt in Hn as Hn'. rewrite Hn'. apply read_write_eq. lia.
  - intros i Hi. assert (Hn : (0 <? n)%nat = true) by (apply Nat.ltb_lt; lia). rewrite Hn.
    destruct (Nat.eq_dec i 0%nat) as [-> | Hne].
    + rewrite read_write_eq by lia. rewrite ramp_head. reflexivity.
    + rewrite read_write_ne by lia. rewrite Hr by exact Hi. reflexivity.
Qed.

Lemma glow_constructor_state_witness :
  GlowParticle.wf demoGlow /\ GlowParticle.trailLength demoGlow = 3%nat.
Proof.
  assert (Hg : rng_ok demoRng).
  { intros n. destruct n as [| [| [| n]]]; split; evaluated. }
  assert (Hoff : 0 <= lifecycle_randomOffset demoParams) by evaluated.
  destruct (glow_constructor_state demoParams demoCurve 3 (7 # 10000) 1 (11 # 10) demoRng
              Hg Hoff) as (Hwf & Hn & _).
  split; [exact Hwf | exact Hn].
Defined.

(** The shift loop runs from the tail to the head, so each sample takes
    the old value of its neighbour toward the head. *)
Lemma shift_loop (n m : nat) (a : list Q) :
  length a = (n * 3)%nat -> (m < n)%nat ->
  let a' := fold_left GlowParticle.shift (rev (seq 1 m)) a in
  length a' = (n * 3)%nat /\
  (forall i, (1 <= i <= m)%nat -> sample a' i = sample a (i - 1)) /\
  (forall i, (i = 0 \/ m < i)%nat -> sample a' i = sample a i).
Proof.
  revert a. induction m as [| m IH]; intros a Hlen Hm.
  - cbn. repeat split; [exact Hlen | intros i Hi; lia].
  - rewrite seq_S, rev_app_distr. cbn [rev app fold_left Nat.add].
    destruct (IH (GlowParticle.shift a (S m))) as (Hl & Hmoved & Hkept);
      [rewrite length_shift; exact Hlen | lia |].
    cbv zeta. split; [exact Hl |]. split.
    + intros i Hi. destruct (Nat.eq_dec i (S m)) as [-> | Hne].
      * rewrite Hkept by lia. apply sample_shift_eq; lia.
      * rewrite Hmoved by lia. apply sample_shift_ne. lia.
    + intros i Hi. rewrite Hkept by lia. apply sample_shift_ne. lia.
Qed.

Lemma length_for_down_shift (n : nat) (a : list Q) :
  length (for_down n GlowParticle.shift a) = length a.
Proof.
  unfold for_down. apply (fold_left_invariant (fun a' => length a' = length a)).
  - reflexivity.
  - intros a' i _ Hl. rewrite length_shift. exact Hl.
Qed.

Lemma length_for_up_toArray (v : Vector3) (n : nat) (a : list Q) :
  length (for_up n (fun a i => toArray v a (i * 3)) a) = length a.
Proof.
  unfold for_up. apply (fold_left_invariant (fun a' => length a' = length a)).
  - reflexivity.
  - intros a' i _ Hl. rewrite length_toArray. exact Hl.
Qed.

Lemma glow_update_wf (params : Params) (p : GlowParticle.t) (g : Rng) :
  GlowParticle.wf p ->
  GlowParticle.wf (fst (GlowParticle.update params p g)) /\
  GlowParticle.trailLength (fst (GlowParticle.update params p g)) = GlowParticle.trailLength p.
Proof.
  intros [Hpos Halpha]. unfold GlowParticle.wf.
  rewrite update_trailAlphas. cbv zeta.
  destruct (for_up_write (ramp (GlowParticle.trailLength p)) (GlowParticle.trailLength p)
              (GlowParticle.trailAlphas p)) as [Hl _]; [lia |].
  assert (Hla : length
                  (let alphas :=
                     if (0 <? GlowParticle.trailLength p)%nat
                     then write (for_up (GlowParticle.trailLength p)
                                   (fun alphas i => write alphas i
                                      (ramp (GlowParticle.trailLength p) i))
                                   (GlowParticle.trailAlphas p)) 0 1
                     else for_up (GlowParticle.trailLength p)
                            (fun alphas i => write alphas i
                               (ramp (GlowParticle.trailLength p) i))
                            (GlowParticle.trailAlphas p) in
                   if (GlowParticle.trailLength p <=? 1)%nat && (0 <? length alphas)%nat
                   then write alphas 0 1 else alphas) = GlowParticle.trailLength p).
  { assert (Hif : forall (c : bool) (a : list Q),
                     length (if c then write a 0 1 else a) = length a)
      by (intros [] a; rewrite ?length_write; reflexivity).
    cbv zeta. rewrite !Hif. cbv zeta in Hl. rewrite Hl. exact Halpha. }
  unfold GlowParticle.update.
  destruct (geb _ 1); [destruct (randomScatter _ g) as [fresh g1] |];
    cbn [fst GlowParticle.trailPositions GlowParticle.trailLength];
    rewrite length_toArray, length_for_down_shift, ?length_for_up_toArray;
    (split; [split; [exact Hpos | exact Hla] | reflexivity]).
Qed.

(** X6.  On a tick that does not wrap, a glow particle draws nothing and
    keeps its scatter offset; its buffers keep their lengths; the new head
    sample is the path point at the advanced [currentT] plus the scatter
    offset, and every other sample takes the position its neighbour toward
    the head had before the tick, the oldest being dropped. *)
Theorem glow_update_shifts_trail (params : Params) (p : GlowParticle.t) (g : Rng) :
  GlowParticle.wf p ->
  GlowParticle.currentT p + glow_speedFactor params * GlowParticle.baseSpeedRandomness p < 1 ->
  let p' := fst (GlowParticle.update params p g) in
  let n := GlowParticle.trailLength p in
  GlowParticle.wf p' /\
  GlowParticle.trailLength p' = n /\
  snd (GlowParticle.update params p g) = g /\
  GlowParticle.scatterOffset p' = GlowParticle.scatterOffset p /\
  GlowParticle.currentT p' =
    GlowParticle.currentT p + glow_speedFactor params * GlowParticle.baseSpeedRandomness p /\
  ((0 < n)%nat ->
   sample (GlowParticle.trailPositions p') 0 =
   add (getPointAt (GlowParticle.path p) (GlowParticle.currentT p'))
       (GlowParticle.scatterOffset p)) /\
  (forall i, (1 <= i < n)%nat ->
     sample (GlowParticle.trailPositions p') i = sample (GlowParticle.trailPositions p) (i - 1)).
Proof.
  intros Hwf Hadv p' n.
  destruct (glow_update_wf params p g Hwf) as [Hwf' Hn]. fold p' in Hwf', Hn.
  destruct Hwf as [Hpos Halpha].
  apply geb_false in Hadv as Hgeb.
  assert (Hp : GlowParticle.trailPositions p' =
               toArray (add (getPointAt (GlowParticle.path p) (GlowParticle.currentT p'))
                            (GlowParticle.scatterOffset p))
                 (for_down n GlowParticle.shift (GlowParticle.trailPositions p)) 0).
  { unfold p', GlowParticle.update. rewrite Hgeb. reflexivity. }
  split; [exact Hwf' |]. split; [exact Hn |].
  split; [unfold GlowParticle.update; rewrite Hgeb; reflexivity |].
  split; [unfold p', GlowParticle.update; rewrite Hgeb; reflexivity |].
  split; [unfold p', GlowParticle.update; rewrite Hgeb; reflexivity |].
  split.
  - intros H0. rewrite Hp. apply (sample_toArray_eq _ _ 0).
    rewrite length_for_down_shift, Hpos. fold n. lia.
  - intros i Hi. rewrite Hp. rewrite (sample_toArray_ne _ _ 0) by lia.
    destruct (shift_loop n (n - 1) (GlowParticle.trailPositions p) Hpos ltac:(lia))
      as (_ & Hmoved & _).
    apply Hmoved. lia.
Qed.

Lemma glow_update_shifts_trail_witness :
  sample (GlowParticle.trailPositions (fst (GlowParticle.update demoParams demoGlow demoRng))) 1 =
  sample (GlowParticle.trailPositions demoGlow) 0.
Proof.
  assert (Hwf : GlowParticle.wf demoGlow) by (split; evaluated).
  assert (Hadv : GlowParticle.currentT demoGlow +
                 glow_speedFactor demoParams * GlowParticle.baseSpeedRandomness demoGlow < 1)
    by evaluated.
  destruct (glow_update_shifts_trail demoParams demoGlow demoRng Hwf Hadv)
    as (_ & _ & _ & _ & _ & _ & Hshift).
  apply (Hshift 1%nat). cbn. lia.
Defined.

(** ** The guide parameter and the lifecycle uniform *)

Lemma glow_update_currentT (params : Params) (p : GlowParticle.t) (g : Rng) :
  GlowParticle.currentT (fst (GlowParticle.update params p g)) =
  let t := GlowParticle.currentT p + glow_speedFactor params * GlowParticle.baseSpeedRandomness p in
  if geb t 1 then 0 else t.
Proof.
  unfold GlowParticle.update. cbv zeta.
  destruct (geb _ 1); [destruct (randomScatter _ g) |]; reflexivity.
Qed.

Lemma comet_update_currentT `{Trig} (params : Params) (p : Comet.t) (g : Rng) :
  Comet.currentT (fst (Comet.update params p g)) =
  let t := Comet.currentT p + comet_speedFactor params * Comet.baseSpeedRandomness p in
  if geb t 1 then 0 else t.
Proof.
  unfold Comet.update. cbv zeta.
  destruct (geb _ 1); [destruct (randomScatter _ g) |]; reflexivity.
Qed.

Lemma emitSparks_currentT `{Trig} (params : Params) (p : WeldingSpark.t) (g : Rng) :
  WeldingSpark.currentT (fst (WeldingSpark.emitSparks params p g)) = WeldingSpark.currentT p.
Proof.
  unfold WeldingSpark.emitSparks, Math_random.
  destruct (WeldingSpark.emitLoop _ _ _ _ _ _) as [s g']. reflexivity.
Qed.

Lemma spark_update_currentT `{Trig} (params : Params) (p : WeldingSpark.t) (g : Rng) :
  WeldingSpark.currentT (fst (WeldingSpark.update params p g)) =
  let t := WeldingSpark.currentT p +
           weldingSpark_speedFactor params * WeldingSpark.baseSpeedRandomness p in
  if geb t 1 then 0 else t.
Proof.
  unfold WeldingSpark.update.
  assert (Hadv : WeldingSpark.currentT (fst (WeldingSpark.advance params p g)) =
                 let t := WeldingSpark.currentT p +
                          weldingSpark_speedFactor params * WeldingSpark.baseSpeedRandomness p in
                 if geb t 1 then 0 else t).
  { unfold WeldingSpark.advance. cbv zeta.
    destruct (geb _ 1); [destruct (randomScatter _ g) as [so g1] |];
      (destruct (Math_random _) as [r g2]; destruct (gtb r _);
       [rewrite emitSparks_currentT |]; reflexivity). }
  destruct (WeldingSpark.advance params p g) as [p1 g1]. exact Hadv.
Qed.

Lemma unit_interval_step (t : Q) :
  0 <= t -> let t' := if geb t 1 then 0 else t in 0 <= t' /\ t' < 1.
Proof.
  intros Ht. cbv zeta. destruct (geb t 1) eqn:E.
  - lra.
  - apply geb_false in E. lra.
Qed.

(** X7.  For each of the three particle classes, a tick from a
    non-negative [currentT] with a non-negative speed leaves [currentT] in
    [0, 1): it is the advanced value while that is below 1, and exactly 0
    on the tick it would reach 1. *)
Theorem currentT_stays_in_unit_interval `{Trig} (params : Params) (g : Rng) :
  (forall p : GlowParticle.t,
     let step := glow_speedFactor params * GlowParticle.baseSpeedRandomness p in
     let t' := GlowParticle.currentT (fst (GlowParticle.update params p g)) in
     t' = (if geb (GlowParticle.currentT p + step) 1 then 0 else GlowParticle.currentT p + step) /\
     (0 <= GlowParticle.currentT p -> 0 <= step -> 0 <= t' /\ t' < 1)) /\
  (forall p : WeldingSpark.t,
     let step := weldingSpark_speedFactor params * WeldingSpark.baseSpeedRandomness p in
     let t' := WeldingSpark.currentT (fst (WeldingSpark.update params p g)) in
     t' = (if geb (WeldingSpark.currentT p + step) 1 then 0 else WeldingSpark.currentT p + step) /\
     (0 <= WeldingSpark.currentT p -> 0 <= step -> 0 <= t' /\ t' < 1)) /\
  (forall p : Comet.t,
     let step := comet_speedFactor params * Comet.baseSpeedRandomness p in
     let t' := Comet.currentT (fst (Comet.update params p g)) in
     t' = (if geb (Comet.currentT p + step) 1 then 0 else Comet.currentT p + step) /\
     (0 <= Comet.currentT p -> 0 <= step -> 0 <= t' /\ t' < 1)).
Proof.
  split; [| split]; intros p step t'; subst t'.
  - rewrite glow_update_currentT. cbv zeta. fold step. split; [reflexivity |].
    intros H0 Hs. apply unit_interval_step. lra.
  - rewrite spark_update_currentT. cbv zeta. fold step. split; [reflexivity |].
    intros H0 Hs. apply unit_interval_step. lra.
  - rewrite comet_update_currentT. cbv zeta. fold step. split; [reflexivity |].
    intros H0 Hs. apply unit_interval_step. lra.
Qed.

(** X8.  With the lifecycle enabled and positive fade times, the value
    each manager writes into the lifecycle uniform lies in [0, 1]: for a
    glow particle (from a non-negative [currentT], with a non-negative
    speed) also on an open path, where it is the product of the lifecycle
    alpha and the seam factor. *)
Theorem lifecycle_uniform_in_unit_interval `{Trig} (params : Params) (g : Rng) :
  lifecycle_enabled params = true ->
  0 < lifecycle_fadeInTime params ->
  0 < lifecycle_fadeOutTime params ->
  (forall p : GlowParticle.t,
     0 <= GlowParticle.currentT p ->
     0 <= glow_speedFactor params * GlowParticle.baseSpeedRandomness p ->
     let q := fst (GlowParticleSystem.update_particle params p g) in
     0 <= GlowParticle.uLifecycleAlpha q /\ GlowParticle.uLifecycleAlpha q <= 1) /\
  (forall p : WeldingSpark.t,
     let q := fst (WeldingSparkParticleSystem.update_particle params p g) in
     0 <= WeldingSpark.lifecycleAlpha q /\ WeldingSpark.lifecycleAlpha q <= 1) /\
  (forall p : Comet.t,
     let q := fst (CometParticleSystem.update_particle params p g) in
     (0 <= Comet.headMaterial_lifecycleAlpha q /\ Comet.headMaterial_lifecycleAlpha q <= 1) /\
     (0 <= Comet.tailMaterial_lifecycleAlpha q /\ Comet.tailMaterial_lifecycleAlpha q <= 1)).
Proof.
  intros Hen Hin Hout. split; [| split].
  - intros p H0 Hs q.
    destruct (glow_update_particle params p g Hen Hin) as [Hclosed Hopen].
    fold q in Hclosed, Hopen.
    pose proof (calculateLifecycleAlpha_range params (fst (GlowParticle.update params p g)))
      as [Ha0 Ha1].
    destruct (closed (GlowParticle.path (fst (GlowParticle.update params p g)))) eqn:Hc.
    + destruct (Hclosed eq_refl) as [-> _]. split; assumption.
    + destruct (Hopen eq_refl) as [Halpha _]. rewrite Halpha.
      assert (Hsum : 0 <= GlowParticle.currentT p +
                          glow_speedFactor params * GlowParticle.baseSpeedRandomness p) by lra.
      pose proof (unit_interval_step _ Hsum) as Ht.
      cbv zeta in Ht. pose proof (glow_update_currentT params p g) as Hcur.
      cbv zeta in Hcur. rewrite <- Hcur in Ht.
      destruct (seamFactor_range (lifecycle_fadeInTime params) (lifecycle_fadeOutTime params)
                  (GlowParticle.justReset (fst (GlowParticle.update params p g)))
                  (GlowParticle.currentT (fst (GlowParticle.update params p g))) Hin Hout)
        as [Hs0 Hs1]; [lra | lra |].
      split; nra.
  - intros p q. subst q. rewrite spark_update_particle by exact Hen.
    apply calculateLifecycleAlpha_range.
  - intros p q. destruct (comet_update_particle params p g Hen) as (Hh & Ht & _).
    fold q in Hh, Ht. rewrite Hh, Ht. split; apply calculateLifecycleAlpha_range.
Qed.

Lemma lifecycle_uniform_in_unit_interval_witness :
  0 <= GlowParticle.uLifecycleAlpha
         (fst (GlowParticleSystem.update_particle demoParams demoGlow demoRng)) /\
  GlowParticle.uLifecycleAlpha
    (fst (GlowParticleSystem.update_particle demoParams demoGlow demoRng)) <= 1.
Proof.
  refine (proj1 (@lifecycle_uniform_in_unit_interval demoTrig demoParams demoRng _ _ _)
            demoGlow _ _);
    evaluated.
Defined.

(** X9.  On a closed path the glow manager never corrects for a seam: a
    tick leaves the reset flag as it was (so it stays down from
    construction on), and with the lifecycle enabled the uniform is the
    plain lifecycle alpha.  With the lifecycle disabled the manager does
    not touch the particle after its own tick, so the uniform keeps the
    value it had. *)
Theorem closed_path_has_no_seam (params : Params) (p : GlowParticle.t) (g : Rng) :
  closed (GlowParticle.path p) = true ->
  let p1 := fst (GlowParticle.update params p g) in
  let q := fst (GlowParticleSystem.update_particle params p g) in
  GlowParticle.justReset q = GlowParticle.justReset p /\
  (lifecycle_enabled params = true ->
   GlowParticle.uLifecycleAlpha q = calculateLifecycleAlpha params p1) /\
  (lifecycle_enabled params = false ->
   q = p1 /\ GlowParticle.uLifecycleAlpha q = GlowParticle.uLifecycleAlpha p).
Proof.
  intros Hclosed p1 q.
  assert (Hc1 : closed (GlowParticle.path p1) = true)
    by (unfold p1; rewrite glow_update_path; exact Hclosed).
  assert (Hjr : GlowParticle.justReset p1 = GlowParticle.justReset p).
  { unfold p1, GlowParticle.update. rewrite Hclosed.
    destruct (geb _ 1); [destruct (randomScatter _ g) |]; reflexivity. }
  assert (Hu : GlowParticle.uLifecycleAlpha p1 = GlowParticle.uLifecycleAlpha p).
  { unfold p1, GlowParticle.update.
    destruct (geb _ 1); [destruct (randomScatter _ g) |]; reflexivity. }
  unfold q, GlowParticleSystem.update_particle. fold p1.
  destruct (GlowParticle.update params p g) as [p1' g1]. cbn [fst] in p1. subst p1.
  destruct (lifecycle_enabled params).
  - rewrite Hc1. cbn. split; [exact Hjr |]. split; [reflexivity | discriminate].
  - cbn. split; [exact Hjr |]. split; [discriminate |]. intros _. split; [reflexivity | exact Hu].
Qed.

Lemma closed_path_has_no_seam_witness :
  GlowParticle.justReset
    (fst (GlowParticleSystem.update_particle demoParams
            (fst (GlowParticle.constructor demoParams (mkCurve (getPointAt demoCurve)
                    (getTangentAt demoCurve) true) 3 (7 # 10000) 1 (11 # 10) demoRngLate))
            demoRng)) = false.
Proof.
  refine (proj1 (closed_path_has_no_seam demoParams
                   (fst (GlowParticle.constructor demoParams (mkCurve (getPointAt demoCurve)
                           (getTangentAt demoCurve) true) 3 (7 # 10000) 1 (11 # 10)
                           demoRngLate))
                   demoRng _)).
  reflexivity.
Defined.

(** ** [WeldingSpark]: what an emission adds and what a tick does to a spark *)

(** Storing a velocity in the first free cell leaves the others alone. *)
Lemma at_assign_end (a : list Vector3) (i j : nat) (v : Vector3) :
  (i <= length a)%nat ->
  WeldingSpark.at_ (WeldingSpark.assign a i v) j =
  if (i =? j)%nat then v else WeldingSpark.at_ a j.
Proof.
  intros Hi. destruct (Nat.eq_dec i (length a)) as [E | E]; [| apply at_assign; lia].
  unfold WeldingSpark.at_, WeldingSpark.assign.
  assert (Hlt : (i <? length a)%nat = false) by (apply Nat.ltb_ge; lia). rewrite Hlt.
  replace (i - length a)%nat with 0%nat by lia. cbn [replicate app].
  destruct (i =? j)%nat eqn:Ej.
  - apply Nat.eqb_eq in Ej. subst j. rewrite E.
    rewrite lookup_app_r by lia. rewrite Nat.sub_diag. reflexivity.
  - apply Nat.eqb_neq in Ej. destruct (Nat.lt_ge_cases j (length a)) as [Hj | Hj].
    + rewrite lookup_app_l by exact Hj. reflexivity.
    + rewrite lookup_app_r by exact Hj.
      rewrite (lookup_ge_None_2 a j) by exact Hj.
      destruct (j - length a)%nat eqn:Ed; [lia | reflexivity].
Qed.

(** The spark one pass of the emission loop writes into the first free
    slot, and the slots it leaves alone. *)
Lemma emitOne_sparks `{Trig} (params : Params) (origin tangent : Vector3)
    (s : WeldingSpark.Pool) (g : Rng) (cap : nat) :
  let s' := fst (WeldingSpark.emitOne params origin tangent s g) in
  let a := WeldingSpark.p_activeParticles s in
  length (WeldingSpark.p_positions s) = (cap * 3)%nat ->
  length (WeldingSpark.p_sizes s) = cap ->
  length (WeldingSpark.p_sparkLives s) = cap ->
  (a < cap)%nat ->
  (a <= length (WeldingSpark.p_velocities s))%nat ->
  snd (WeldingSpark.emitOne params origin tangent s g) = mkRng (draws g) (cursor g + 5) /\
  position (sparkAt s' a) = origin /\
  life (sparkAt s' a) = 1 /\
  size (sparkAt s' a) =
    ((2 # 10) + draws g (cursor g + 4) * (8 # 10)) * weldingSpark_sparkSize params /\
  forall j, j <> a -> sparkAt s' j = sparkAt s j.
Proof.
  intros s' a Hpos Hsizes Hlives Ha Hvel. subst s'.
  unfold WeldingSpark.emitOne, Math_random. cbn [draws cursor fst snd].
  fold a. unfold sparkAt.
  cbn [WeldingSpark.p_positions WeldingSpark.p_sizes WeldingSpark.p_sparkLives
       WeldingSpark.p_velocities position size life velocity].
  split; [f_equal; lia |]. split; [| split; [| split]].
  - destruct origin as [ox oy oz]. cbn [x y z].
    apply (sample_toArray_eq (mkVector3 ox oy oz)). lia.
  - apply read_write_eq. lia.
  - rewrite read_write_eq by lia.
    replace (S (S (S (S (cursor g))))) with (cursor g + 4)%nat by lia. reflexivity.
  - intros j Hj. f_equal.
    + apply (sample_toArray_ne (mkVector3 (x origin) (y origin) (z origin))). lia.
    + apply read_write_ne. lia.
    + apply read_write_ne. lia.
    + rewrite at_assign_end by exact Hvel.
      rewrite (proj2 (Nat.eqb_neq a j)) by lia. reflexivity.
Qed.

Lemma emitLoop_sparks `{Trig} (params : Params) (origin tangent : Vector3)
    (n : nat) (s : WeldingSpark.Pool) (g : Rng) (cap : nat) :
  rng_ok g ->
  0 <= weldingSpark_sparkSize params ->
  length (WeldingSpark.p_positions s) = (cap * 3)%nat ->
  length (WeldingSpark.p_sizes s) = cap ->
  length (WeldingSpark.p_sparkLives s) = cap ->
  (WeldingSpark.p_activeParticles s <= cap)%nat ->
  (WeldingSpark.p_activeParticles s <= length (WeldingSpark.p_velocities s))%nat ->
  let r := WeldingSpark.emitLoop params origin tangent n s g in
  draws (snd r) = draws g /\
  exists born,
    prefix (fst r) (WeldingSpark.p_activeParticles (fst r)) =
      prefix s (WeldingSpark.p_activeParticles s) ++ born /\
    length born = Nat.min n (cap - WeldingSpark.p_activeParticles s) /\
    Forall (newborn params origin) born.
Proof.
  revert s g. induction n as [| n IH]; intros s g Hg Hsize Hpos Hsizes Hlives Hcap Hvel.
  - cbn. split; [reflexivity |]. exists []. rewrite app_nil_r. repeat split. constructor.
  - cbn [WeldingSpark.emitLoop].
    destruct (geb (num (WeldingSpark.p_activeParticles s))
                (num (length (WeldingSpark.p_positions s)) / 3)) eqn:Hfull.
    + apply (full_test _ cap _ Hpos) in Hfull. cbn [fst snd]. split; [reflexivity |].
      exists []. rewrite app_nil_r. split; [reflexivity |].
      split; [cbn [length]; lia | constructor].
    + assert (Hroom : (WeldingSpark.p_activeParticles s < cap)%nat).
      { destruct (Nat.lt_ge_cases (WeldingSpark.p_activeParticles s) cap) as [Hlt | Hge];
          [exact Hlt |].
        apply (full_test _ cap _ Hpos) in Hge. congruence. }
      destruct (emitOne_spec params origin tangent s g cap Hvel) as (Hp & Hs & Hl & Ha & Hv).
      destruct (emitOne_sparks params origin tangent s g cap Hpos Hsizes Hlives Hroom Hvel)
        as (Hrng & Hbpos & Hblife & Hbsize & Hrest).
      destruct (WeldingSpark.emitOne params origin tangent s g) as [s1 g1].
      cbn [fst snd] in *.
      assert (Hg1 : rng_ok g1) by (rewrite Hrng; exact Hg).
      assert (Hcap1 : (WeldingSpark.p_activeParticles s1 <= cap)%nat) by (rewrite Ha; lia).
      assert (Hvel1 : (WeldingSpark.p_activeParticles s1 <=
                       length (WeldingSpark.p_velocities s1))%nat) by (rewrite Ha; exact Hv).
      destruct (IH s1 g1 Hg1 Hsize ltac:(congruence) ltac:(congruence) ltac:(congruence)
                  Hcap1 Hvel1) as (Hd & born & Hpre & Hlen & Hall).
      * cbv zeta in Hd, Hpre. split; [rewrite Hd, Hrng; reflexivity |].
        exists (sparkAt s1 (WeldingSpark.p_activeParticles s) :: born).
        rewrite Hpre, Ha, prefix_S. rewrite <- app_assoc. cbn [app].
        split; [| split].
        -- f_equal. apply prefix_ext. intros j Hj. apply Hrest. lia.
        -- cbn [length]. rewrite Hlen, Ha. lia.
        -- constructor; [| exact Hall].
           unfold newborn. rewrite Hbsize.
           destruct (Hg (cursor g + 4)%nat) as [Hr0 Hr1].
           repeat split; try assumption; nra.
Qed.

Lemma emission_count (r : Q) :
  0 <= r -> r < 1 ->
  (2 <= Z.to_nat (Math_floor (2 + r * 5)) <= 6)%nat.
Proof.
  intros H0 H1. unfold Math_floor.
  pose proof (Qfloor_le (2 + r * 5)) as Hle.
  pose proof (Qlt_floor (2 + r * 5)) as Hlt.
  rewrite inject_Z_plus in Hlt. change (inject_Z 1) with 1 in Hlt.
  assert (Hlo : (2 <= Qfloor (2 + r * 5))%Z).
  { change (Qfloor 2 <= Qfloor (2 + r * 5))%Z. apply Qfloor_resp_le. lra. }
  assert (Hhi : (Qfloor (2 + r * 5) < 7)%Z).
  { rewrite Zlt_Qlt. change (inject_Z 7) with 7. lra. }
  lia.
Qed.

(** X10.  With draws in [0, 1) and a non-negative spark size, [emitSparks]
    on a pool within its capacity leaves the live sparks as they are and
    appends new ones after them: between 2 and 6 are asked for, as many as
    fit are added, each at the guide's scattered position with life 1 and
    a size between 0.2 and 1 times the configured spark size; the draw
    range is set to the new live count. *)
Theorem emitSparks_appends `{Trig} (params : Params) (p : WeldingSpark.t) (g : Rng) :
  rng_ok g ->
  0 <= weldingSpark_sparkSize params ->
  WeldingSpark.wf p ->
  (WeldingSpark.activeParticles p <= WeldingSpark.capacity p)%nat ->
  let q := fst (WeldingSpark.emitSparks params p g) in
  let n := Z.to_nat (Math_floor (2 + draws g (cursor g) * 5)) in
  let origin :=
    add (getPointAt (WeldingSpark.path p) (WeldingSpark.currentT p))
        (WeldingSpark.scatterOffset p) in
  (2 <= n <= 6)%nat /\
  WeldingSpark.drawRange q = WeldingSpark.activeParticles q /\
  draws (snd (WeldingSpark.emitSparks params p g)) = draws g /\
  exists born,
    liveSparks q = liveSparks p ++ born /\
    length born = Nat.min n (WeldingSpark.capacity p - WeldingSpark.activeParticles p) /\
    Forall (newborn params origin) born.
Proof.
  intros Hg Hsize (Hpos & Hsizes & Hlives & Hvel) Hcap q n origin.
  destruct (Hg (cursor g)) as [Hr0 Hr1].
  split; [apply emission_count; assumption |].
  subst q. unfold WeldingSpark.emitSparks, Math_random. fold origin. cbn [draws cursor].
  fold n.
  assert (Hg1 : rng_ok (mkRng (draws g) (S (cursor g)))) by exact Hg.
  destruct (emitLoop_sparks params origin
              (normalize (getTangentAt (WeldingSpark.path p) (WeldingSpark.currentT p)))
              n (WeldingSpark.pool p) (mkRng (draws g) (S (cursor g)))
              (WeldingSpark.capacity p) Hg1 Hsize Hpos Hsizes Hlives Hcap Hvel)
    as (Hd & born & Hpre & Hlen & Hall).
  destruct (WeldingSpark.emitLoop _ _ _ _ _ _) as [s1 g1]. cbn [fst snd] in *.
  split; [reflexivity |]. split; [exact Hd |].
  exists born. split; [exact Hpre |]. split; [exact Hlen | exact Hall].
Qed.

Lemma emitSparks_appends_witness :
  (2 <= Z.to_nat (Math_floor (2 + draws demoRngHalf (cursor demoRngHalf) * 5)) <= 6)%nat.
Proof.
  assert (Hg : rng_ok demoRngHalf) by (intros n; split; evaluated).
  assert (Hsize : 0 <= weldingSpark_sparkSize demoParams) by evaluated.
  assert (Hwf : WeldingSpark.wf demoPool) by (repeat split; evaluated).
  assert (Hcap : (WeldingSpark.activeParticles demoPool <= WeldingSpark.capacity demoPool)%nat)
    by evaluated.
  exact (proj1 (@emitSparks_appends demoTrig demoParams demoPool demoRngHalf Hg Hsize Hwf Hcap)).
Defined.

Lemma emitLoop_draws `{Trig} (params : Params) (origin tangent : Vector3)
    (n : nat) (s : WeldingSpark.Pool) (g : Rng) :
  draws (snd (WeldingSpark.emitLoop params origin tangent n s g)) = draws g.
Proof.
  revert s g. induction n as [| n IH]; intros s g; cbn [WeldingSpark.emitLoop].
  - reflexivity.
  - destruct (geb _ _); [reflexivity |].
    destruct (WeldingSpark.emitOne params origin tangent s g) as [s1 g1] eqn:E.
    rewrite IH. apply (f_equal snd) in E. cbn [snd] in E. rewrite <- E.
    unfold WeldingSpark.emitOne, Math_random. reflexivity.
Qed.

Lemma advance_draws `{Trig} (params : Params) (p : WeldingSpark.t) (g : Rng) :
  draws (snd (WeldingSpark.advance params p g)) = draws g.
Proof.
  unfold WeldingSpark.advance, randomScatter, Math_random.
  destruct (geb _ 1); cbn [draws cursor];
    (destruct (gtb _ (7 # 10)); [| reflexivity];
     unfold WeldingSpark.emitSparks, Math_random;
     match goal with
     | |- context [WeldingSpark.emitLoop params ?o ?t ?n ?s ?g0] =>
       pose proof (emitLoop_draws params o t n s g0) as Hd;
       destruct (WeldingSpark.emitLoop params o t n s g0) as [s1 g1]
     end; cbn [snd] in *; exact Hd).
Qed.

Lemma age_aged (r : Q) (s s' : Spark) :
  0 <= r -> r < 1 -> age r s = Some s' -> aged s s'.
Proof.
  intros H0 H1 E. unfold age in E.
  destruct (gtb (life s - ((3 # 100) + r * (2 # 100))) 0) eqn:Hg; [| discriminate].
  apply gtb_true in Hg. injection E as <-. unfold aged. cbn [life size velocity position].
  repeat split; try reflexivity; lra.
Qed.

Lemma survivors_aged (d : nat -> Q) (c : nat) (l : list Spark) :
  (forall n, 0 <= d n /\ d n < 1) ->
  Forall (fun s' => exists s, In s l /\ aged s s') (survivors d c l).
Proof.
  intros Hd. revert c. induction l as [| s l IH]; intros c; cbn [survivors].
  - constructor.
  - assert (Hrest : Forall (fun s' => exists s0, In s0 (s :: l) /\ aged s0 s')
                      (survivors d (S c) l)).
    { eapply Forall_impl; [apply IH |].
      intros s' (s0 & Hin & Ha). exists s0. split; [right; exact Hin | exact Ha]. }
    destruct (age (d c) s) as [s' |] eqn:E; [| exact Hrest].
    constructor; [| exact Hrest]. exists s. split; [left; reflexivity |].
    destruct (Hd c). apply (age_aged (d c)); assumption.
Qed.

Lemma survivors_all (d : nat -> Q) (c : nat) (l : list Spark) :
  (forall n, 0 <= d n /\ d n < 1) ->
  Forall (fun s => 5 # 100 <= life s) l ->
  length (survivors d c l) = length l.
Proof.
  intros Hd Hall. revert c. induction Hall as [| s l Hs Hall IH]; intros c; cbn [survivors].
  - reflexivity.
  - unfold age. destruct (Hd c) as [H0 H1].
    assert (Hg : gtb (life s - ((3 # 100) + d c * (2 # 100))) 0 = true)
      by (apply gtb_true; lra).
    rewrite Hg. cbn [length]. rewrite IH. reflexivity.
Qed.

Lemma survivors_none (d : nat -> Q) (c : nat) (l : list Spark) :
  (forall n, 0 <= d n /\ d n < 1) ->
  Forall (fun s => life s <= 3 # 100) l ->
  survivors d c l = [].
Proof.
  intros Hd Hall. revert c. induction Hall as [| s l Hs Hall IH]; intros c; cbn [survivors].
  - reflexivity.
  - unfold age. destruct (Hd c) as [H0 H1].
    assert (Hg : gtb (life s - ((3 # 100) + d c * (2 # 100))) 0 = false)
      by (apply gtb_false; lra).
    rewrite Hg. apply IH.
Qed.

Lemma survivors_kept (d : nat -> Q) (c : nat) (l : list Spark) :
  (forall n, 0 <= d n /\ d n < 1) ->
  exists kept,
    sublist kept (survivors d c l) /\
    Forall2 aged (List.filter (fun s => geb (life s) (5 # 100)) l) kept.
Proof.
  intros Hd. revert c. induction l as [| s l IH]; intros c; cbn [survivors List.filter].
  - exists []. split; constructor.
  - destruct (IH (S c)) as (kept & Hsub & Hall). destruct (Hd c) as [H0 H1].
    destruct (age (d c) s) as [s' |] eqn:E.
    + destruct (geb (life s) (5 # 100)).
      * exists (s' :: kept). split; [apply sublist_skip; exact Hsub |].
        constructor; [apply (age_aged (d c)); assumption | exact Hall].
      * exists kept. split; [apply sublist_cons; exact Hsub | exact Hall].
    + assert (Hshort : geb (life s) (5 # 100) = false).
      { unfold age in E.
        destruct (gtb (life s - ((3 # 100) + d c * (2 # 100))) 0) eqn:Hg; [discriminate |].
        apply gtb_false in Hg. apply geb_false. lra. }
      rewrite Hshort. exists kept. split; assumption.
Qed.

Lemma survivors_origin (d : nat -> Q) (c : nat) (l : list Spark) :
  (forall n, 0 <= d n /\ d n < 1) ->
  exists origin,
    sublist origin (List.filter (fun s => gtb (life s) (3 # 100)) l) /\
    Forall2 aged origin (survivors d c l).
Proof.
  intros Hd. revert c. induction l as [| s l IH]; intros c; cbn [survivors List.filter].
  - exists []. split; constructor.
  - destruct (IH (S c)) as (origin & Hsub & Hall). destruct (Hd c) as [H0 H1].
    destruct (age (d c) s) as [s' |] eqn:E.
    + assert (Hlong : gtb (life s) (3 # 100) = true).
      { unfold age in E.
        destruct (gtb (life s - ((3 # 100) + d c * (2 # 100))) 0) eqn:Hg; [| discriminate].
        apply gtb_true in Hg. apply gtb_true. lra. }
      rewrite Hlong. exists (s :: origin). split; [apply sublist_skip; exact Hsub |].
      constructor; [apply (age_aged (d c)); assumption | exact Hall].
    + exists origin. split; [| exact Hall].
      destruct (gtb (life s) (3 # 100)); [apply sublist_cons |]; exact Hsub.
Qed.

(** X11.  With draws in [0, 1), every spark that is live after a tick of a
    welding spark is a spark that was live before the sweep, one tick
    older: it has lost between 0.03 and 0.05 of life and still has some,
    has shrunk by 0.98, and has moved by its velocity after that fell by
    0.001.  Spark by spark, no spark with life 0.05 or more is removed by
    the tick, and every spark with life 0.03 or less is: the sparks that
    had 0.05 or more each have their own successor among the live sparks,
    in their old order, and the live sparks are, in order, the successors
    of sparks that had more than 0.03, each of its own.  So when all had
    0.05 or more the count is unchanged, and when all had 0.03 or less
    none is left. *)
Theorem sparks_age_each_tick `{Trig} (params : Params) (p : WeldingSpark.t) (g : Rng) :
  rng_ok g ->
  WeldingSpark.wf p ->
  (WeldingSpark.activeParticles p <= WeldingSpark.capacity p)%nat ->
  let p1 := fst (WeldingSpark.advance params p g) in
  let q := fst (WeldingSpark.update params p g) in
  Forall (fun s' => exists s, In s (liveSparks p1) /\ aged s s') (liveSparks q) /\
  (exists kept,
     sublist kept (liveSparks q) /\
     Forall2 aged (List.filter (fun s => geb (life s) (5 # 100)) (liveSparks p1)) kept) /\
  (exists origin,
     sublist origin (List.filter (fun s => gtb (life s) (3 # 100)) (liveSparks p1)) /\
     Forall2 aged origin (liveSparks q)) /\
  (Forall (fun s => 5 # 100 <= life s) (liveSparks p1) ->
   WeldingSpark.activeParticles q = WeldingSpark.activeParticles p1) /\
  (Forall (fun s => life s <= 3 # 100) (liveSparks p1) ->
   WeldingSpark.activeParticles q = 0%nat).
Proof.
  intros Hg Hwf Hcap p1 q.
  destruct (update_spec params p g Hwf Hcap) as (_ & _ & _ & _ & _ & Hlive).
  fold p1 q in Hlive.
  assert (Hd : forall n, 0 <= draws (snd (WeldingSpark.advance params p g)) n /\
                         draws (snd (WeldingSpark.advance params p g)) n < 1).
  { intros n. rewrite advance_draws. apply Hg. }
  assert (Hq : length (liveSparks q) = WeldingSpark.activeParticles q)
    by apply prefix_length.
  assert (Hp1 : length (liveSparks p1) = WeldingSpark.activeParticles p1)
    by apply prefix_length.
  split; [| split; [| split; [| split]]].
  - rewrite Hlive. apply survivors_aged. exact Hd.
  - rewrite Hlive. apply survivors_kept. exact Hd.
  - rewrite Hlive. apply survivors_origin. exact Hd.
  - intros Hall. rewrite <- Hq, <- Hp1, Hlive. apply survivors_all; assumption.
  - intros Hall. rewrite <- Hq, Hlive. rewrite survivors_none by assumption. reflexivity.
Qed.

Lemma sparks_age_each_tick_witness :
  exists kept,
    sublist kept
      (liveSparks (fst (@WeldingSpark.update demoTrig demoParams demoPool demoRngHalf))) /\
    Forall2 aged
      (List.filter (fun s => geb (life s) (5 # 100))
         (liveSparks (fst (@WeldingSpark.advance demoTrig demoParams demoPool demoRngHalf))))
      kept.
Proof.
  assert (Hg : rng_ok demoRngHalf) by (intros n; split; evaluated).
  assert (Hwf : WeldingSpark.wf demoPool) by (repeat split; evaluated).
  assert (Hcap : (WeldingSpark.activeParticles demoPool <= WeldingSpark.capacity demoPool)%nat)
    by evaluated.
  exact (proj1 (proj2 (@sparks_age_each_tick demoTrig demoParams demoPool demoRngHalf
                         Hg Hwf Hcap))).
Defined.

(** ** [Comet]: the tail strands *)

(** A loop that writes the point [f i] into sample [i]. *)
Lemma for_up_samples (f : nat -> Vector3) (n : nat) (a : list Q) :
  (n * 3 <= length a)%nat ->
  let a' := for_up n (fun a i => toArray (f i) a (i * 3)) a in
  length a' = length a /\ forall i, (i < n)%nat -> sample a' i = f i.
Proof.
  intros Hn.
  apply (for_up_invariant
           (fun k a' => length a' = length a /\ forall i, (i < k)%nat -> sample a' i = f i)).
  - split; [reflexivity | intros i Hi; lia].
  - intros a' k Hk [Hlen Hsample]. split.
    + rewrite length_toArray. exact Hlen.
    + intros i Hi. destruct (Nat.eq_dec i k) as [-> | Hne].
      * apply sample_toArray_eq. lia.
      * rewrite sample_toArray_ne by lia. apply Hsample. lia.
Qed.

(** The loop of the constructor that moves a cloned tail sideways. *)
Lemma for_up_offset (ox oy : Q) (n : nat) (a : list Q) :
  length a = (n * 3)%nat ->
  let a' := for_up ((length a + 2) / 3)%nat
              (fun positions k =>
                 let j := (k * 3)%nat in
                 let positions := write positions j (read positions j + ox) in
                 write positions (j + 1) (read positions (j + 1) + oy)) a in
  length a' = (n * 3)%nat /\
  forall i, (i < n)%nat ->
    sample a' i = mkVector3 (x (sample a i) + ox) (y (sample a i) + oy) (z (sample a i)).
Proof.
  intros Hlen.
  assert (Hcount : ((length a + 2) / 3 = n)%nat).
  { rewrite Hlen. symmetry. apply (Nat.div_unique _ 3 n 2); lia. }
  rewrite Hcount.
  assert (Hinv : let a' := for_up n
              (fun positions k =>
                 let j := (k * 3)%nat in
                 let positions := write positions j (read positions j + ox) in
                 write positions (j + 1) (read positions (j + 1) + oy)) a in
            (n <= n)%nat ->
            length a' = (n * 3)%nat /\
            (forall i, (i < n)%nat ->
               sample a' i = mkVector3 (x (sample a i) + ox) (y (sample a i) + oy)
                               (z (sample a i))) /\
            (forall i, (n <= i)%nat -> sample a' i = sample a i)).
  { apply (for_up_invariant
             (fun k a' =>
                (k <= n)%nat ->
                length a' = (n * 3)%nat /\
                (forall i, (i < k)%nat ->
                   sample a' i = mkVector3 (x (sample a i) + ox) (y (sample a i) + oy)
                                   (z (sample a i))) /\
                (forall i, (k <= i)%nat -> sample a' i = sample a i))).
    - intros _. split; [exact Hlen |]. split; [intros i Hi; lia | reflexivity].
    - intros a' k Hk IH _. destruct (IH ltac:(lia)) as (Hl & Hdone & Hrest).
      cbv zeta. split; [rewrite !length_write; exact Hl |]. split.
      + intros i Hi. destruct (Nat.eq_dec i k) as [-> | Hne].
        * rewrite <- (Hrest k) by lia. unfold sample. cbn [x y z]. f_equal.
          -- rewrite read_write_ne by lia. apply read_write_eq. lia.
          -- rewrite read_write_eq by (rewrite length_write; lia).
             rewrite read_write_ne by lia. reflexivity.
          -- rewrite !read_write_ne by lia. reflexivity.
        * rewrite <- Hdone by lia. unfold sample.
          f_equal; rewrite !read_write_ne by lia; reflexivity.
      + intros i Hi. rewrite <- Hrest by lia. unfold sample.
        f_equal; rewrite !read_write_ne by lia; reflexivity. }
  cbv zeta in Hinv. destruct (Hinv ltac:(lia)) as (Hl & Hdone & _). split; assumption.
Qed.

Lemma for_up_push {A} (f : nat -> A) (n : nat) (acc : list A) :
  for_up n (fun acc i => acc ++ [f i]) acc = acc ++ (f <$> seq 0 n).
Proof. unfold for_up. apply fold_left_push. Qed.

Lemma small_width_no_strands (tailWidth : Q) :
  tailWidth < 1 # 2 -> Z.to_nat (Math_floor (tailWidth * 2)) = 0%nat.
Proof.
  intros Hw. unfold Math_floor. pose proof (Qfloor_le (tailWidth * 2)) as Hle.
  assert (Hlt : (Qfloor (tailWidth * 2) < 1)%Z).
  { rewrite Zlt_Qlt. change (inject_Z 1) with 1. lra. }
  lia.
Qed.

(** X12.  A freshly constructed comet: its head, and every sample of its
    tail, is at the path point of [currentT] plus the scatter offset; the
    tail weights are the linear ramp; it has [floor(2 tailWidth)] extra
    tail lines, none when the width is below one half (also when it is
    negative); extra line [k] is the tail moved sideways by its own
    offset, with the glow intensity scaled by [1 - k / (2 lines)], and
    starts with lifecycle alpha 1. *)
Theorem comet_constructor_state `{Trig} (params : Params) (path : Curve) (n : nat)
    (tailWidth glowIntensity speedFactor scatterRadius : Q) (color : string) (g : Rng) :
  let p := fst (Comet.constructor params path n tailWidth glowIntensity speedFactor
                  scatterRadius color g) in
  let head := add (getPointAt path (Comet.currentT p)) (Comet.scatterOffset p) in
  let lines := Z.to_nat (Math_floor (tailWidth * 2)) in
  cometWf p /\
  Comet.tailLength p = n /\
  sample (Comet.headPosition p) 0 = head /\
  (forall i, (i < n)%nat -> sample (Comet.tailPositions p) i = head) /\
  (forall i, (i < n)%nat -> read (Comet.tailFades p) i = ramp n i) /\
  length (Comet.wideTailMeshes p) = lines /\
  (tailWidth < 1 # 2 -> Comet.wideTailMeshes p = []) /\
  (forall k mesh, Comet.wideTailMeshes p !! k = Some mesh ->
     (k < lines)%nat /\
     Comet.w_glowIntensity mesh = glowIntensity * (1 - num k / num lines * (1 # 2)) /\
     Comet.w_lifecycleAlpha mesh = 1 /\
     Comet.w_cometColor mesh = css color /\
     forall i, (i < n)%nat ->
       sample (Comet.w_positions mesh) i =
       mkVector3 (x head + x (Comet.offsetVector lines k))
                 (y head + y (Comet.offsetVector lines k)) (z head)).
Proof.
  unfold Comet.constructor, randomScatter, Math_random. cbn [draws cursor].
  set (currentT := draws g (cursor g)).
  set (scatter := mkVector3 _ _ _).
  set (head := add (getPointAt path currentT) scatter).
  set (lines := Z.to_nat (Math_floor (tailWidth * 2))).
  destruct (for_up_fill (fun _ => head) (ramp n) n (Float32Array (n * 3)) (Float32Array n)
              (length_Float32Array _) (length_Float32Array _))
    as (Hlp & Hlw & Hs & Hr).
  destruct (for_up n _ _) as [positions weights]. cbn [fst snd] in Hlp, Hlw, Hs, Hr.
  set (strand := fun k =>
         Comet.mkWideTail
           (for_up ((length positions + 2) / 3)%nat
              (fun positions0 k0 =>
                 let j := (k0 * 3)%nat in
                 let positions1 :=
                   write positions0 j (read positions0 j + x (Comet.offsetVector lines k)) in
                 write positions1 (j + 1)
                   (read positions1 (j + 1) + y (Comet.offsetVector lines k)))
              positions)
           (css color) (glowIntensity * (1 - num k / num lines * (1 # 2))) 1).
  assert (Hmeshes :
            (if (0 <? lines)%nat
             then for_up lines (fun wideTailMeshes i => wideTailMeshes ++ [strand i]) []
             else []) = strand <$> seq 0 lines).
  { rewrite for_up_push. destruct lines; reflexivity. }
  cbv zeta. cbn [fst]. unfold cometWf.
  cbn [Comet.headPosition Comet.tailPositions Comet.tailFades Comet.tailLength
       Comet.wideTailMeshes Comet.currentT Comet.scatterOffset].
  fold head. change (for_up lines _ []) with
    (for_up lines (fun wideTailMeshes i => wideTailMeshes ++ [strand i]) []).
  rewrite Hmeshes.
  assert (Hstrand : forall k mesh, (strand <$> seq 0 lines) !! k = Some mesh ->
                      (k < lines)%nat /\ mesh = strand k).
  { intros k mesh Hk. rewrite list_lookup_fmap in Hk.
    destruct (seq 0 lines !! k) as [k' |] eqn:Hseq; [| discriminate].
    apply lookup_seq in Hseq. destruct Hseq as [-> Hlt]. cbn in Hk.
    injection Hk as <-. split; [exact Hlt | reflexivity]. }
  split; [| split; [| split; [| split; [| split; [| split; [| split]]]]]].
  - split; [rewrite length_toArray; apply length_Float32Array |].
    split; [exact Hlp |]. split; [exact Hlw |].
    apply Forall_forall. intros mesh Hin.
    apply list_elem_of_lookup in Hin. destruct Hin as [k Hk].
    destruct (Hstrand k mesh Hk) as [_ ->]. unfold strand. cbn [Comet.w_positions].
    apply (for_up_offset _ _ n positions Hlp).
  - reflexivity.
  - apply (sample_toArray_eq head _ 0). rewrite length_Float32Array. lia.
  - exact Hs.
  - exact Hr.
  - rewrite length_fmap, length_seq. reflexivity.
  - intros Hw. unfold lines. rewrite small_width_no_strands by exact Hw. reflexivity.
  - intros k mesh Hk. destruct (Hstrand k mesh Hk) as [Hlt ->].
    split; [exact Hlt |]. unfold strand.
    cbn [Comet.w_positions Comet.w_glowIntensity Comet.w_lifecycleAlpha Comet.w_cometColor].
    split; [reflexivity |]. split; [reflexivity |]. split; [reflexivity |].
    intros i Hi.
    destruct (for_up_offset (x (Comet.offsetVector lines k)) (y (Comet.offsetVector lines k))
                n positions Hlp) as [_ Hoff].
    cbv zeta in Hoff. rewrite Hoff by exact Hi. rewrite Hs by exact Hi. reflexivity.
Qed.

Lemma updateTailGeometry_spec (path : Curve) (n : nat) (currentT : Q)
    (scatterOffset : Vector3) (positions : list Q) (segment : Q) (offset : Vector3) :
  length positions = (n * 3)%nat ->
  let positions' :=
    Comet.updateTailGeometry path n currentT scatterOffset positions segment offset in
  length positions' = (n * 3)%nat /\
  forall i, (i < n)%nat ->
    sample positions' i =
    add (add (getPointAt path (wrap (currentT - num i * segment))) scatterOffset) offset.
Proof.
  intros Hlen. unfold Comet.updateTailGeometry.
  destruct (for_up_samples
              (fun i => add (add (getPointAt path (wrap (currentT - num i * segment)))
                               scatterOffset) offset)
              n positions ltac:(lia)) as [Hl Hs].
  unfold wrap in Hl, Hs |- *. cbv zeta in *. split; [rewrite Hl; exact Hlen | exact Hs].
Qed.

Lemma comet_update_fields `{Trig} (params : Params) (p : Comet.t) (g : Rng) :
  let p' := fst (Comet.update params p g) in
  let segment := Comet.speed p' * (95 # 100) in
  Comet.path p' = Comet.path p /\
  Comet.tailLength p' = Comet.tailLength p /\
  Comet.tailFades p' = Comet.tailFades p /\
  Comet.headPosition p' =
    toArray (add (getPointAt (Comet.path p) (Comet.currentT p')) (Comet.scatterOffset p'))
      (Comet.headPosition p) 0 /\
  Comet.tailPositions p' =
    Comet.updateTailGeometry (Comet.path p) (Comet.tailLength p) (Comet.currentT p')
      (Comet.scatterOffset p') (Comet.tailPositions p) segment (mkVector3 0 0 0) /\
  Comet.wideTailMeshes p' =
    imap (fun i mesh =>
            Comet.mkWideTail
              (Comet.updateTailGeometry (Comet.path p) (Comet.tailLength p) (Comet.currentT p')
                 (Comet.scatterOffset p') (Comet.w_positions mesh) segment
                 (Comet.offsetVector (length (Comet.wideTailMeshes p)) i))
              (Comet.w_cometColor mesh) (Comet.w_glowIntensity mesh)
              (Comet.w_lifecycleAlpha mesh))
         (Comet.wideTailMeshes p).
Proof.
  unfold Comet.update.
  destruct (geb _ 1); [destruct (randomScatter _ g) as [fresh g1] |];
    cbn [fst Comet.path Comet.tailLength Comet.tailFades Comet.headPosition
         Comet.tailPositions Comet.wideTailMeshes Comet.currentT Comet.scatterOffset
         Comet.speed];
    (repeat (split; [reflexivity |]));
    (destruct (Comet.wideTailMeshes p); reflexivity).
Qed.

(** X13.  After a tick of a comet whose buffers have their constructed
    lengths: the buffers keep those lengths, the weights and the number of
    extra tail lines are unchanged; the head is at the path point of the
    new [currentT] plus the scatter offset; sample [i] of the tail, and of
    every extra line, is taken at the same wrapped parameter
    [currentT - i * 0.95 * speed], the lines differing from the tail only
    by their own sideways offset. *)
Theorem comet_update_strands `{Trig} (params : Params) (p : Comet.t) (g : Rng) :
  cometWf p ->
  let p' := fst (Comet.update params p g) in
  let n := Comet.tailLength p in
  let lines := length (Comet.wideTailMeshes p) in
  let at_ i :=
    add (getPointAt (Comet.path p)
           (wrap (Comet.currentT p' - num i * (Comet.speed p' * (95 # 100)))))
        (Comet.scatterOffset p') in
  cometWf p' /\
  Comet.tailLength p' = n /\
  Comet.tailFades p' = Comet.tailFades p /\
  length (Comet.wideTailMeshes p') = lines /\
  sample (Comet.headPosition p') 0 =
    add (getPointAt (Comet.path p) (Comet.currentT p')) (Comet.scatterOffset p') /\
  (forall i, (i < n)%nat ->
     sample (Comet.tailPositions p') i = add (at_ i) (mkVector3 0 0 0)) /\
  (forall k mesh, Comet.wideTailMeshes p' !! k = Some mesh ->
     forall i, (i < n)%nat ->
       sample (Comet.w_positions mesh) i = add (at_ i) (Comet.offsetVector lines k)).
Proof.
  intros (Hhead & Htail & Hfades & Hwide) p' n lines at_.
  destruct (comet_update_fields params p g) as (Hpath & Hn & Hf & Hh & Ht & Hw).
  fold p' in Hpath, Hn, Hf, Hh, Ht, Hw.
  destruct (updateTailGeometry_spec (Comet.path p) n (Comet.currentT p')
              (Comet.scatterOffset p') (Comet.tailPositions p)
              (Comet.speed p' * (95 # 100)) (mkVector3 0 0 0) Htail) as [Hlt Hst].
  assert (Hstrand : forall k mesh, Comet.wideTailMeshes p' !! k = Some mesh ->
            length (Comet.w_positions mesh) = (n * 3)%nat /\
            forall i, (i < n)%nat ->
              sample (Comet.w_positions mesh) i = add (at_ i) (Comet.offsetVector lines k)).
  { intros k mesh Hk. rewrite Hw, list_lookup_imap in Hk.
    destruct (Comet.wideTailMeshes p !! k) as [old |] eqn:Hold; [| discriminate].
    cbn in Hk. injection Hk as <-. cbn [Comet.w_positions].
    assert (Hlen : length (Comet.w_positions old) = (n * 3)%nat).
    { rewrite Forall_forall in Hwide. apply Hwide.
      apply list_elem_of_lookup. exists k. exact Hold. }
    apply (updateTailGeometry_spec (Comet.path p) n (Comet.currentT p')
             (Comet.scatterOffset p') (Comet.w_positions old)
             (Comet.speed p' * (95 # 100)) (Comet.offsetVector lines k) Hlen). }
  split; [| split; [exact Hn | split; [exact Hf | split; [| split; [| split]]]]].
  - unfold cometWf. rewrite Hn, Hf, Hh, Ht, length_toArray.
    split; [exact Hhead |]. split; [exact Hlt |]. split; [exact Hfades |].
    apply Forall_forall. intros mesh Hin.
    apply list_elem_of_lookup in Hin. destruct Hin as [k Hk].
    apply (Hstrand k mesh Hk).
  - rewrite Hw, length_imap. reflexivity.
  - rewrite Hh. apply (sample_toArray_eq _ _ 0). rewrite Hhead. lia.
  - intros i Hi. rewrite Ht. apply Hst. exact Hi.
  - intros k mesh Hk. apply (Hstrand k mesh Hk).
Qed.

Lemma comet_update_strands_witness :
  Comet.tailLength (fst (@Comet.update demoTrig demoParams demoComet demoRng)) = 2%nat.
Proof.
  refine (proj1 (proj2 (@comet_update_strands demoTrig demoParams demoComet demoRng _))).
  repeat split; evaluated.
Defined.

(** ** Recolouring *)

(** X14.  Recolouring never touches the motion state.  [setParticleColor]
    changes at most the colour uniform of a glow particle: putting the old
    colour back gives the old particle.  [setCometColor] sets the colour of
    the head and of the main tail to one and the same colour and changes
    nothing else; the extra tail lines keep the colour they were built
    with.  Under the light theme both setters use their one fixed colour,
    whatever the colour mode, and draw nothing. *)
Theorem recolour_changes_only_colour (params : Params) (g : Rng) :
  (forall p : GlowParticle.t,
     let q := fst (GlowParticleSystem.setParticleColor params p g) in
     GlowParticle.with_color q (GlowParticle.color p) = p /\
     (currentTheme params = light ->
      GlowParticle.color q = hex 2236962 /\
      snd (GlowParticleSystem.setParticleColor params p g) = g)) /\
  (forall p : Comet.t,
     let q := fst (CometParticleSystem.setCometColor params p g) in
     q = Comet.with_cometColor p (Comet.headMaterial_cometColor q) /\
     Comet.tailMaterial_cometColor q = Comet.headMaterial_cometColor q /\
     Comet.wideTailMeshes q = Comet.wideTailMeshes p /\
     (currentTheme params = light ->
      Comet.headMaterial_cometColor q = hex 26316 /\
      snd (CometParticleSystem.setCometColor params p g) = g)).
Proof.
  split.
  - intros p q. subst q. unfold GlowParticleSystem.setParticleColor. split.
    + destruct p. destruct (currentTheme params); [| reflexivity].
      destruct (colorMode params); try reflexivity.
      destruct (0 <? _)%nat; [| reflexivity]. cbn [Math_random].
      destruct (activePalette params !! _); reflexivity.
    + intros ->. split; reflexivity.
  - intros p q. subst q. unfold CometParticleSystem.setCometColor.
    split; [| split; [| split]].
    + destruct (currentTheme params); [| reflexivity].
      destruct (comet_colorMode params); try reflexivity.
      destruct (0 <? _)%nat; [| reflexivity]. cbn [Math_random].
      destruct (activePalette params !! _); reflexivity.
    + destruct (currentTheme params); [| reflexivity].
      destruct (comet_colorMode params); try reflexivity.
      destruct (0 <? _)%nat; [| reflexivity]. cbn [Math_random].
      destruct (activePalette params !! _); reflexivity.
    + destruct (currentTheme params); [| reflexivity].
      destruct (comet_colorMode params); try reflexivity.
      destruct (0 <? _)%nat; [| reflexivity]. cbn [Math_random].
      destruct (activePalette params !! _); reflexivity.
    + intros ->. split; reflexivity.
Qed.

(** ** The manager as a whole *)

(** A loop that pushes [n] particles built by [make], threading the
    stream. *)
Lemma for_up_create {P} (make : Rng -> P * Rng) (n : nat) (particles : list P) (g : Rng) :
  exists created,
    fst (for_up n (fun '(particles, g) (_ : nat) =>
                     let '(p, g) := make g in (particles ++ [p], g))
           (particles, g)) = particles ++ created /\
    length created = n /\
    Forall (fun p => exists g', p = fst (make g')) created.
Proof.
  induction n as [| n IH].
  - exists []. cbn. rewrite app_nil_r. repeat split. constructor.
  - rewrite for_up_S. destruct IH as (created & Hfst & Hlen & Hall).
    destruct (for_up n _ (particles, g)) as [done g1]. cbn [fst] in Hfst. subst done.
    destruct (make g1) as [p g2] eqn:Hp.
    exists (created ++ [p]). cbn [fst]. rewrite app_assoc. split; [reflexivity |].
    split; [rewrite length_app; cbn; lia |].
    apply Forall_app. split; [exact Hall |]. constructor; [| constructor].
    exists g1. rewrite Hp. reflexivity.
Qed.

(** X15.  [ParticleSystem.create] never fails: it returns an empty manager
    for every type string, the manager of that type for the three known
    ones, and for any other string the glow manager together with a
    warning. *)
Theorem create_falls_back_to_glow (type : string) :
  let s := fst (ParticleSystem.create type) in
  let warned := snd (ParticleSystem.create type) in
  ParticleSystem.count s = 0%nat /\
  (warned = false <->
   type = "glow"%string \/ type = "weldingSpark"%string \/ type = "comet"%string) /\
  (warned = false -> ParticleSystem.type s = type) /\
  (warned = true -> s = ParticleSystem.GlowParticleSystem []).
Proof.
  unfold ParticleSystem.create.
  destruct (String.eqb type "glow") eqn:E1.
  { apply String.eqb_eq in E1. subst type. cbn.
    repeat split; auto; discriminate. }
  destruct (String.eqb type "weldingSpark") eqn:E2.
  { apply String.eqb_eq in E2. subst type. cbn.
    repeat split; auto; discriminate. }
  destruct (String.eqb type "comet") eqn:E3.
  { apply String.eqb_eq in E3. subst type. cbn.
    repeat split; auto; discriminate. }
  apply String.eqb_neq in E1, E2, E3. cbn.
  split; [reflexivity |]. split; [| split; [discriminate | reflexivity]].
  split; [discriminate |]. intros [E | [E | E]]; contradiction.
Qed.

Lemma glow_constructor_wf (params : Params) (path : Curve) (n : nat)
    (speedFactor boldness scatterRadius : Q) (g : Rng) :
  let p := fst (GlowParticle.constructor params path n speedFactor boldness scatterRadius g) in
  GlowParticle.wf p /\ GlowParticle.trailLength p = n /\ GlowParticle.path p = path.
Proof.
  unfold GlowParticle.constructor, randomScatter, Math_random. cbn [draws cursor].
  match goal with
  | |- context [for_up n ?body ?init] =>
    assert (Hinv : length (fst (for_up n body init)) = (n * 3)%nat /\
                   length (snd (for_up n body init)) = n);
    [ apply (for_up_invariant
               (fun _ (r : list Q * list Q) =>
                  length (fst r) = (n * 3)%nat /\ length (snd r) = n));
      [ cbn [fst snd]; split; apply length_Float32Array
      | intros [positions weights] i _ [Hp Hw]; cbn [fst snd] in *;
        rewrite length_toArray, length_write; split; assumption ]
    | destruct (for_up n body init) as [positions weights] ]
  end.
  cbn [fst snd] in Hinv. destruct Hinv as [Hp Hw].
  cbv zeta. unfold GlowParticle.wf.
  cbn [fst GlowParticle.trailPositions GlowParticle.trailAlphas GlowParticle.trailLength
       GlowParticle.path].
  split; [| split; reflexivity]. split; [exact Hp |].
  destruct (0 <? n)%nat; [rewrite length_write |]; exact Hw.
Qed.

Lemma comet_constructor_wf `{Trig} (params : Params) (path : Curve) (n : nat)
    (tailWidth glowIntensity speedFactor scatterRadius : Q) (color : string) (g : Rng) :
  let p := fst (Comet.constructor params path n tailWidth glowIntensity speedFactor
                  scatterRadius color g) in
  cometWf p /\ Comet.tailLength p = n /\ Comet.path p = path /\
  length (Comet.wideTailMeshes p) = Z.to_nat (Math_floor (tailWidth * 2)).
Proof.
  unfold Comet.constructor, randomScatter, Math_random. cbn [draws cursor].
  set (lines := Z.to_nat (Math_floor (tailWidth * 2))).
  match goal with
  | |- context [for_up n ?body ?init] =>
    assert (Hinv : length (fst (for_up n body init)) = (n * 3)%nat /\
                   length (snd (for_up n body init)) = n);
    [ apply (for_up_invariant
               (fun _ (r : list Q * list Q) =>
                  length (fst r) = (n * 3)%nat /\ length (snd r) = n));
      [ cbn [fst snd]; split; apply length_Float32Array
      | intros [positions weights] i _ [Hp Hw]; cbn [fst snd] in *;
        rewrite length_toArray, length_write; split; assumption ]
    | destruct (for_up n body init) as [positions weights] ]
  end.
  cbn [fst snd] in Hinv. destruct Hinv as [Hp Hw].
  cbv zeta. unfold cometWf.
  cbn [fst Comet.headPosition Comet.tailPositions Comet.tailFades Comet.tailLength
       Comet.wideTailMeshes Comet.path].
  match goal with
  | |- context [for_up lines ?body []] =>
    assert (Hmeshes : length (for_up lines body []) = lines /\
                      Forall (fun mesh => length (Comet.w_positions mesh) = (n * 3)%nat)
                        (for_up lines body []));
    [ apply (for_up_invariant
               (fun k (meshes : list Comet.WideTail) =>
                  length meshes = k /\
                  Forall (fun mesh => length (Comet.w_positions mesh) = (n * 3)%nat) meshes));
      [ split; [reflexivity | constructor]
      | intros meshes k _ [Hl Hall]; split;
        [ rewrite length_app; cbn [length]; lia
        | apply Forall_app; split; [exact Hall |]; constructor; [| constructor];
          cbn [Comet.w_positions];
          apply (for_up_offset _ _ n positions Hp) ] ]
    | ]
  end.
  destruct Hmeshes as [Hl Hall].
  split; [| split; [reflexivity | split; [reflexivity |]]].
  - split; [rewrite length_toArray; apply length_Float32Array |].
    split; [exact Hp |]. split; [exact Hw |].
    destruct (0 <? lines)%nat; [exact Hall | constructor].
  - destruct (0 <? lines)%nat eqn:E; [exact Hl |].
    apply Nat.ltb_ge in E. cbn [length]. lia.
Qed.

(** X16.  [init] throws the old particles away and builds [numParticles]
    new ones of the manager's own kind from the current configuration:
    the result does not depend on what the manager held before.  Every new
    particle has buffers of the lengths its configured trail or tail
    length asks for; a new welding spark is within its pool capacity, and
    a new comet has [floor(2 tailWidth)] extra tail lines. *)
Theorem init_builds_numParticles `{Trig} (params : Params) (shader : ShaderParams)
    (curvePath : Curve) (s : ParticleSystem.t) (g : Rng) :
  let s' := fst (ParticleSystem.init params shader curvePath s g) in
  ParticleSystem.type s' = ParticleSystem.type s /\
  ParticleSystem.count s' = numParticles params /\
  (forall s2, ParticleSystem.type s2 = ParticleSystem.type s ->
     ParticleSystem.init params shader curvePath s2 g =
     ParticleSystem.init params shader curvePath s g) /\
  match s' with
  | ParticleSystem.GlowParticleSystem particles =>
    Forall (fun p => GlowParticle.wf p /\
                     GlowParticle.trailLength p = glow_trailLength params /\
                     GlowParticle.path p = curvePath) particles
  | ParticleSystem.WeldingSparkParticleSystem particles =>
    Forall (fun p => WeldingSpark.wf p /\
                     WeldingSpark.maxLife p = weldingSpark_trailLength params /\
                     (WeldingSpark.activeParticles p <= WeldingSpark.capacity p)%nat) particles
  | ParticleSystem.CometParticleSystem particles =>
    Forall (fun p => cometWf p /\
                     Comet.tailLength p = comet_tailLength params /\
                     Comet.path p = curvePath /\
                     length (Comet.wideTailMeshes p) =
                       Z.to_nat (Math_floor (comet_tailWidth params * 2))) particles
  end.
Proof.
  intros s'. split; [| split; [| split]].
  - subst s'. unfold ParticleSystem.init, ParticleSystem.createParticles.
    destruct s as [old | old | old]; cbn [ParticleSystem.clear]; destruct (for_up _ _ _); reflexivity.
  - subst s'. unfold ParticleSystem.init, ParticleSystem.createParticles.
    destruct s as [old | old | old]; cbn [ParticleSystem.clear];
      match goal with
      | |- context [for_up ?n (fun '(done, r1) (_ : nat) =>
                                 let '(p, r2) := @?make r1 in (done ++ [p], r2)) ([], g)] =>
        destruct (for_up_create make n [] g) as (created & Hfst & Hlen & _)
      end;
      destruct (for_up _ _ _) as [particles g1]; cbn [fst] in *; subst particles;
      cbn [ParticleSystem.count app]; exact Hlen.
  - intros s2 Hkind. unfold ParticleSystem.init.
    destruct s, s2; cbn in Hkind; try discriminate; reflexivity.
  - subst s'. unfold ParticleSystem.init, ParticleSystem.createParticles.
    destruct s as [old | old | old]; cbn [ParticleSystem.clear];
      match goal with
      | |- context [for_up ?n (fun '(done, r1) (_ : nat) =>
                                 let '(p, r2) := @?make r1 in (done ++ [p], r2)) ([], g)] =>
        destruct (for_up_create make n [] g) as (created & Hfst & _ & Hall)
      end;
      destruct (for_up _ _ _) as [particles g1]; cbn [fst] in *; subst particles;
      cbn [app]; (eapply Forall_impl; [exact Hall |]); intros p [g' ->].
    + apply glow_constructor_wf.
    + apply constructor_spec.
    + apply comet_constructor_wf.
Qed.

Lemma forEach_length {P} (body : P -> Rng -> P * Rng) (particles : list P) (g : Rng) :
  length (fst (fold_left (fun '(done, g) p => let '(p, g) := body p g in (done ++ [p], g))
                 particles ([], g))) = length particles.
Proof.
  destruct (forEach_each body particles [] g) as (updated & -> & Hall).
  cbn [app]. symmetry. eapply Forall2_length. exact Hall.
Qed.

(** X17.  A tick of the manager and a recolouring keep its kind and the
    number of its particles; recolouring a welding-spark manager changes
    nothing and draws nothing. *)
Theorem manager_keeps_population `{Trig} (params : Params) (s : ParticleSystem.t) (g : Rng) :
  ParticleSystem.type (fst (ParticleSystem.update params s g)) = ParticleSystem.type s /\
  ParticleSystem.count (fst (ParticleSystem.update params s g)) = ParticleSystem.count s /\
  ParticleSystem.type (fst (ParticleSystem.updateColors params s g)) = ParticleSystem.type s /\
  ParticleSystem.count (fst (ParticleSystem.updateColors params s g)) =
    ParticleSystem.count s /\
  (ParticleSystem.type s = "weldingSpark"%string ->
   ParticleSystem.updateColors params s g = (s, g)).
Proof.
  destruct s as [particles | particles | particles];
    unfold ParticleSystem.update, ParticleSystem.updateColors,
      GlowParticleSystem.update, WeldingSparkParticleSystem.update,
      CometParticleSystem.update.
  - pose proof (forEach_length (GlowParticleSystem.update_particle params) particles g) as H1.
    pose proof (forEach_length (GlowParticleSystem.setParticleColor params) particles g) as H2.
    destruct (fold_left _ particles ([], g)) as [ps1 g1].
    destruct (fold_left _ particles ([], g)) as [ps2 g2].
    cbn in *. repeat split; try assumption. discriminate.
  - pose proof (forEach_length (WeldingSparkParticleSystem.update_particle params) particles g)
      as H1.
    destruct (fold_left _ particles ([], g)) as [ps1 g1].
    cbn in *. repeat split; assumption.
  - pose proof (forEach_length (CometParticleSystem.update_particle params) particles g) as H1.
    pose proof (forEach_length (CometParticleSystem.setCometColor params) particles g) as H2.
    destruct (fold_left _ particles ([], g)) as [ps1 g1].
    destruct (fold_left _ particles ([], g)) as [ps2 g2].
    cbn in *. repeat split; try assumption. discriminate.
Qed.

(** ** The Lorenz path *)

Lemma createLorenzAttractorPoints_run (sigma rho beta scale timeStep : Q) (n : nat) :
  for_up n
    (fun '(s, points) (_ : nat) =>
       let s := lorenzStep sigma rho beta timeStep s in
       (s, points ++ [lorenzPoint scale s]))
    (mkVector3 1 1 1, []) =
  (Nat.iter n (lorenzStep sigma rho beta timeStep) (mkVector3 1 1 1),
   (fun i => lorenzPoint scale
               (Nat.iter (S i) (lorenzStep sigma rho beta timeStep) (mkVector3 1 1 1)))
     <$> seq 0 n).
Proof.
  induction n as [| n IH].
  - reflexivity.
  - rewrite for_up_S, IH. rewrite seq_S, fmap_app. reflexivity.
Qed.

(** X18.  [createLorenzAttractorPoints] returns exactly [numPoints]
    points (none for 0): point [i] is the state after [i + 1] Euler steps
    from (1, 1, 1), the start itself not being a point, with its second and
    third coordinates swapped and all three multiplied by the scale.  A
    longer run begins with the points of a shorter one. *)
Theorem lorenz_points (sigma rho beta scale timeStep : Q) (n : nat) :
  let points := createLorenzAttractorPoints sigma rho beta scale timeStep n in
  let state i := Nat.iter i (lorenzStep sigma rho beta timeStep) (mkVector3 1 1 1) in
  length points = n /\
  (forall i, (i < n)%nat ->
     points !! i = Some (mkVector3 (x (state (S i)) * scale) (z (state (S i)) * scale)
                           (y (state (S i)) * scale))) /\
  (forall m, take n (createLorenzAttractorPoints sigma rho beta scale timeStep (n + m)) =
             points).
Proof.
  intros points state. subst points. unfold createLorenzAttractorPoints.
  rewrite createLorenzAttractorPoints_run. cbn [snd]. split; [| split].
  - rewrite length_fmap, length_seq. reflexivity.
  - intros i Hi. rewrite list_lookup_fmap, lookup_seq_lt by exact Hi. reflexivity.
  - intros m. rewrite createLorenzAttractorPoints_run. cbn [snd].
    rewrite seq_app, fmap_app, take_app_length'; [reflexivity |].
    rewrite length_fmap, length_seq. reflexivity.
Qed.

(** X19.  The scale of the Lorenz path is a plain factor: the points for
    a scale are the points for scale 1 multiplied by it, coordinate by
    coordinate.  With a zero time step the state never moves, so every
    point is the scaled start (1, 1, 1). *)
Theorem lorenz_scale_is_a_factor (sigma rho beta scale timeStep : Q) (n : nat) :
  Forall2 (fun v u => x v == x u * scale /\ y v == y u * scale /\ z v == z u * scale)
    (createLorenzAttractorPoints sigma rho beta scale timeStep n)
    (createLorenzAttractorPoints sigma rho beta 1 timeStep n) /\
  Forall (fun v => x v == scale /\ y v == scale /\ z v == scale)
    (createLorenzAttractorPoints sigma rho beta scale 0 n).
Proof.
  unfold createLorenzAttractorPoints. rewrite !createLorenzAttractorPoints_run. cbn [snd].
  split.
  - induction (seq 0 n) as [| i l IH]; cbn [fmap list_fmap]; constructor; [| exact IH].
    unfold lorenzPoint. cbn [x y z]. repeat split; ring.
  - assert (Hrest : forall k,
              let s := Nat.iter k (lorenzStep sigma rho beta 0) (mkVector3 1 1 1) in
              x s == 1 /\ y s == 1 /\ z s == 1).
    { induction k as [| k IH]; [cbn; repeat split; reflexivity |].
      cbv zeta in IH |- *. rewrite Nat.iter_succ. destruct IH as (Hx & Hy & Hz).
      set (s := Nat.iter k _ _) in *. clearbody s. unfold lorenzStep. cbv zeta. cbn [x y z].
      split; [transitivity (x s); [ring | exact Hx] |].
      split; [transitivity (y s); [ring | exact Hy] | transitivity (z s); [ring | exact Hz]]. }
    induction (seq 0 n) as [| i l IH]; cbn [fmap list_fmap]; constructor; [| exact IH].
    destruct (Hrest (S i)) as (Hx & Hy & Hz). unfold lorenzPoint. cbn [x y z].
    rewrite Hx, Hy, Hz. repeat split; ring.
Qed.

(** ** The Viviani and juggling paths *)

Lemma pushed_points {A} (f : nat -> A) (n : nat) :
  fold_left (fun points i => points ++ [f i]) (seq 0 (n + 1)) [] = f <$> seq 0 (n + 1).
Proof. rewrite fold_left_push. reflexivity. Qed.

Lemma pushed_points_ends {A} (f : nat -> A) (n : nat) :
  let points := f <$> seq 0 (n + 1) in
  length points = (n + 1)%nat /\ points !! 0%nat = Some (f 0%nat) /\
  points !! n = Some (f n) /\ last points = Some (f n).
Proof.
  cbv zeta. split; [| split; [| split]].
  - rewrite length_fmap, length_seq. reflexivity.
  - rewrite list_lookup_fmap, lookup_seq_lt by lia. reflexivity.
  - rewrite list_lookup_fmap, lookup_seq_lt by lia. reflexivity.
  - rewrite seq_app, fmap_app. cbn [seq fmap list_fmap]. rewrite last_snoc. reflexivity.
Qed.

Lemma sample_fraction_last (n : nat) : (0 < n)%nat -> (INR n / INR n = 1)%R.
Proof.
  intros Hn. apply Rinv_r. apply not_0_INR. lia.
Qed.

Lemma trig_4PI : cos (4 * PI) = 1%R /\ sin (4 * PI) = 0%R.
Proof.
  replace (4 * PI)%R with (0 + 2 * INR 2 * PI)%R by (cbn [INR]; ring).
  rewrite cos_period, sin_period, cos_0, sin_0. split; reflexivity.
Qed.

Lemma viviani_pointAt_4PI (a : R) :
  Viviani.pointAt a (4 * PI) = Viviani.mkPoint (2 * a) 0 0.
Proof.
  unfold Viviani.pointAt. destruct trig_4PI as [Hc Hs]. rewrite Hc, Hs.
  replace (4 * PI / 2)%R with (2 * PI)%R by Lra.lra. rewrite sin_2PI. f_equal; ring.
Qed.

Lemma viviani_surfaces (a t : R) :
  let p := Viviani.pointAt a t in
  (Viviani.px p * Viviani.px p + Viviani.py p * Viviani.py p +
     Viviani.pz p * Viviani.pz p = 4 * a * a)%R /\
  ((Viviani.px p - a) * (Viviani.px p - a) + Viviani.py p * Viviani.py p = a * a)%R.
Proof.
  cbv zeta. unfold Viviani.pointAt. cbn [Viviani.px Viviani.py Viviani.pz].
  pose proof (sin2_cos2 t) as H1. unfold Rsqr in H1.
  pose proof (cos_2a_sin (t / 2)) as H2.
  replace (2 * (t / 2))%R with t in H2 by Lra.lra.
  set (h := sin (t / 2)) in *. set (c := cos t) in *. set (s := sin t) in *.
  clearbody h c s. subst c.
  split.
  - replace (a * s * (a * s))%R with (a * a * (1 - (1 - 2 * h * h) * (1 - 2 * h * h)))%R.
    + ring.
    + replace (a * s * (a * s))%R with (a * a * (s * s))%R by ring. f_equal. Lra.lra.
  - replace (a * s * (a * s))%R with (a * a * (1 - (1 - 2 * h * h) * (1 - 2 * h * h)))%R.
    + ring.
    + replace (a * s * (a * s))%R with (a * a * (s * s))%R by ring. f_equal. Lra.lra.
Qed.

Lemma viviani_ends (a : R) (numPoints : nat) :
  (0 < numPoints)%nat ->
  length (Viviani.createVivianiCurvePoints a numPoints) = (numPoints + 1)%nat /\
  Viviani.createVivianiCurvePoints a numPoints !! 0%nat
    = Some (Viviani.mkPoint (2 * a) 0 0) /\
  last (Viviani.createVivianiCurvePoints a numPoints)
    = Some (Viviani.mkPoint (2 * a) 0 0).
Proof.
  intros Hn. unfold Viviani.createVivianiCurvePoints. rewrite pushed_points.
  destruct (pushed_points_ends
              (fun i => Viviani.pointAt a (Viviani.parameter numPoints i)) numPoints)
    as (Hlen & Hfirst & _ & Hlast).
  split; [exact Hlen |]. split.
  - rewrite Hfirst, parameter_first, pointAt_zero. reflexivity.
  - rewrite Hlast. unfold Viviani.parameter. cbv zeta.
    rewrite (sample_fraction_last numPoints Hn), Rmult_1_l, viviani_pointAt_4PI.
    reflexivity.
Qed.

(** X20.  The Viviani path is a closed curve on a sphere.  For a positive
    number of samples the list has one point more than samples, it begins
    and ends at (2a, 0, 0), and every point lies on the sphere of radius
    2a about the origin and on the cylinder of radius a about the vertical
    through (a, 0, 0). *)
Theorem viviani_closed_on_sphere (a : R) (numPoints : nat) :
  (0 < numPoints)%nat ->
  let points := Viviani.createVivianiCurvePoints a numPoints in
  length points = (numPoints + 1)%nat /\
  points !! 0%nat = Some (Viviani.mkPoint (2 * a) 0 0) /\
  last points = Some (Viviani.mkPoint (2 * a) 0 0) /\
  Forall (fun p =>
            (Viviani.px p * Viviani.px p + Viviani.py p * Viviani.py p +
               Viviani.pz p * Viviani.pz p = 4 * a * a)%R /\
            ((Viviani.px p - a) * (Viviani.px p - a) + Viviani.py p * Viviani.py p
               = a * a)%R) points.
Proof.
  intros Hn points. subst points.
  destruct (viviani_ends a numPoints Hn) as (Hlen & Hfirst & Hlast).
  split; [exact Hlen |]. split; [exact Hfirst |]. split; [exact Hlast |].
  unfold Viviani.createVivianiCurvePoints. rewrite pushed_points.
  apply Forall_fmap, Forall_forall. intros i _. apply viviani_surfaces.
Qed.

Lemma viviani_closed_on_sphere_witness :
  length (Viviani.createVivianiCurvePoints 5 256) = 257%nat /\
  last (Viviani.createVivianiCurvePoints 5 256) = Some (Viviani.mkPoint (2 * 5) 0 0).
Proof.
  assert (Hn : (0 < 256)%nat) by lia.
  destruct (viviani_closed_on_sphere 5 256 Hn) as (Hlen & _ & Hlast & _).
  split; [exact Hlen | exact Hlast].
Defined.

Lemma juggling_denominator (t : R) : (1 <= 1 + cos t * cos t)%R.
Proof. pose proof (Rle_0_sqr (cos t)) as H. unfold Rsqr in H. Lra.lra. Qed.

Lemma quotient_bound (n d b : R) :
  (1 <= d)%R -> (Rabs n <= b)%R -> (Rabs (n / d) <= b)%R.
Proof.
  intros Hd Hn. unfold Rdiv. rewrite Rabs_mult, (Rabs_pos_eq (/ d)).
  - assert (Hinv : (0 < / d <= 1)%R).
    { split; [apply Rinv_0_lt_compat; Lra.lra |].
      rewrite <- Rinv_1. apply Rinv_le_contravar; Lra.lra. }
    pose proof (Rabs_pos n). Lra.nra.
  - left. apply Rinv_0_lt_compat. Lra.lra.
Qed.

Lemma juggling_bounds (width height centerY t : R) :
  let p := Juggling.pointAt width height centerY t in
  Viviani.pz p = 0%R /\
  (Rabs (Viviani.px p) <= Rabs width)%R /\
  (Rabs (Viviani.py p - centerY) <= Rabs height / 2)%R.
Proof.
  cbv zeta. unfold Juggling.pointAt. cbn [Viviani.px Viviani.py Viviani.pz].
  pose proof (juggling_denominator t) as Hd.
  pose proof (sin2_cos2 t) as H1. unfold Rsqr in H1.
  set (c := cos t) in *. set (s := sin t) in *. clearbody c s.
  split; [reflexivity |]. split.
  - apply quotient_bound; [exact Hd |].
    rewrite Rabs_mult. pose proof (Rabs_pos width).
    assert (Hs : (Rabs s <= 1)%R) by (apply Rabs_le; Lra.nra).
    Lra.nra.
  - replace (height * s * c / (1 + c * c) + centerY - centerY)%R
      with (height * s * c / (1 + c * c))%R by ring.
    apply quotient_bound; [exact Hd |].
    replace (height * s * c)%R with (height * (s * c))%R by ring.
    rewrite Rabs_mult. pose proof (Rabs_pos height).
    assert (Hsc : (Rabs (s * c) <= 1 / 2)%R).
    { pose proof (Rle_0_sqr (s - c)) as Hm. pose proof (Rle_0_sqr (s + c)) as Hp.
      unfold Rsqr in Hm, Hp. apply Rabs_le. Lra.lra. }
    Lra.nra.
Qed.

Lemma juggling_pointAt_crossover (width height centerY t : R) :
  sin t = 0%R -> Juggling.pointAt width height centerY t = Viviani.mkPoint 0 centerY 0.
Proof.
  intros Hs. unfold Juggling.pointAt. rewrite Hs.
  pose proof (juggling_denominator t) as Hd.
  f_equal; field; Lra.lra.
Qed.

Lemma juggling_parameter_ends (n : nat) :
  (0 < n)%nat -> Juggling.parameter n 0 = 0%R /\ Juggling.parameter n n = (4 * PI)%R.
Proof.
  intros Hn. unfold Juggling.parameter. split.
  - cbn [INR]. unfold Rdiv. ring.
  - rewrite (sample_fraction_last n Hn). ring.
Qed.

Lemma juggling_ends (balls throwHeight handSeparation throwAngle gravity scale : R)
    (numPoints : nat) (pattern : string) :
  (0 < numPoints)%nat ->
  Juggling.createJugglingPatternPoints balls throwHeight handSeparation throwAngle
    gravity scale numPoints pattern !! 0%nat
    = Some (Viviani.mkPoint 0 (throwHeight * scale * (4 / 10)) 0) /\
  last (Juggling.createJugglingPatternPoints balls throwHeight handSeparation throwAngle
          gravity scale numPoints pattern)
    = Some (Viviani.mkPoint 0 (throwHeight * scale * (4 / 10)) 0).
Proof.
  intros Hn. unfold Juggling.createJugglingPatternPoints. cbv zeta. rewrite pushed_points.
  destruct (pushed_points_ends
              (fun i => Juggling.pointAt (handSeparation * scale) (throwHeight * scale)
                          (throwHeight * scale * (4 / 10))
                          (Juggling.parameter numPoints i)) numPoints)
    as (_ & Hfirst & _ & Hlast).
  destruct (juggling_parameter_ends numPoints Hn) as [H0 H4].
  split.
  - rewrite Hfirst, H0. rewrite juggling_pointAt_crossover by apply sin_0. reflexivity.
  - rewrite Hlast, H4. rewrite juggling_pointAt_crossover by apply trig_4PI. reflexivity.
Qed.

(** X21.  The juggling path is a closed figure in a box.  For a positive
    number of samples the list has one point more than samples; it begins
    and ends at the crossover point (0, 0.4 * throwHeight * scale, 0);
    every point has a zero third coordinate, a first coordinate within the
    scaled hand separation of 0 and a second coordinate within half the
    scaled throw height of the crossover.  The ball count, the throw
    angle, the gravity and the pattern name do not enter the result. *)
Theorem juggling_closed_in_box (balls throwHeight handSeparation throwAngle gravity
    scale : R) (numPoints : nat) (pattern : string) :
  (0 < numPoints)%nat ->
  let points :=
    Juggling.createJugglingPatternPoints balls throwHeight handSeparation throwAngle
      gravity scale numPoints pattern in
  let crossover := Viviani.mkPoint 0 (throwHeight * scale * (4 / 10)) 0 in
  length points = (numPoints + 1)%nat /\
  points !! 0%nat = Some crossover /\
  last points = Some crossover /\
  Forall (fun p =>
            Viviani.pz p = 0%R /\
            (Rabs (Viviani.px p) <= Rabs (handSeparation * scale))%R /\
            (Rabs (Viviani.py p - Viviani.py crossover)
               <= Rabs (throwHeight * scale) / 2)%R) points /\
  (forall balls' throwAngle' gravity' pattern',
     Juggling.createJugglingPatternPoints balls' throwHeight handSeparation throwAngle'
       gravity' scale numPoints pattern' = points).
Proof.
  intros Hn points crossover. subst points crossover.
  destruct (juggling_ends balls throwHeight handSeparation throwAngle gravity scale
              numPoints pattern Hn) as (Hfirst & Hlast).
  split; [| split; [exact Hfirst | split; [exact Hlast |]]].
  - unfold Juggling.createJugglingPatternPoints. cbv zeta. rewrite pushed_points.
    rewrite length_fmap, length_seq. reflexivity.
  - split; [| intros; reflexivity].
    unfold Juggling.createJugglingPatternPoints. cbv zeta. rewrite pushed_points.
    apply Forall_fmap, Forall_forall. intros i _. cbn [Viviani.py]. apply juggling_bounds.
Qed.

Lemma juggling_closed_in_box_witness :
  length (Juggling.createJugglingPatternPoints 3 8 6 (3 / 10) (98 / 10) 1 1200 "3")
    = 1201%nat /\
  last (Juggling.createJugglingPatternPoints 3 8 6 (3 / 10) (98 / 10) 1 1200 "3")
    = Some (Viviani.mkPoint 0 (8 * 1 * (4 / 10)) 0).
Proof.
  assert (Hn : (0 < 1200)%nat) by lia.
  destruct (juggling_closed_in_box 3 8 6 (3 / 10) (98 / 10) 1 1200 "3" Hn)
    as (Hlen & _ & Hlast & _).
  split; [exact Hlen | exact Hlast].
Defined.

Lemma juggling_pointAt_period (width height centerY t : R) :
  Juggling.pointAt width height centerY (t + 2 * PI) =
  Juggling.pointAt width height centerY t.
Proof.
  unfold Juggling.pointAt.
  replace (t + 2 * PI)%R with (t + 2 * INR 1 * PI)%R by (cbn [INR]; ring).
  rewrite cos_period, sin_period. reflexivity.
Qed.

Lemma juggling_parameter_half (m i : nat) :
  (0 < m)%nat ->
  Juggling.parameter (2 * m) (i + m) = (Juggling.parameter (2 * m) i + 2 * PI)%R.
Proof.
  intros Hm. unfold Juggling.parameter. rewrite plus_INR, mult_INR. cbn [INR].
  assert (INR m <> 0%R) by (apply not_0_INR; lia). field. assumption.
Qed.

(** X22.  The juggling path runs its figure twice.  With an even number
    of samples, as the default 1200 is, sample [i] of the second half is
    the same point as sample [i] of the first half. *)
Theorem juggling_traced_twice (balls throwHeight handSeparation throwAngle gravity
    scale : R) (m i : nat) (pattern : string) :
  (0 < m)%nat -> (i <= m)%nat ->
  let points :=
    Juggling.createJugglingPatternPoints balls throwHeight handSeparation throwAngle
      gravity scale (2 * m) pattern in
  points !! (i + m)%nat = points !! i /\ is_Some (points !! i).
Proof.
  intros Hm Hi points. subst points.
  unfold Juggling.createJugglingPatternPoints. cbv zeta. rewrite pushed_points.
  rewrite !list_lookup_fmap, !lookup_seq_lt by lia. cbn [fmap option_fmap option_map].
  rewrite !Nat.add_0_l, (juggling_parameter_half m i Hm), juggling_pointAt_period.
  split; [reflexivity | eexists; reflexivity].
Qed.

Lemma juggling_traced_twice_witness :
  Juggling.createJugglingPatternPoints 3 8 6 (3 / 10) (98 / 10) 1 (2 * 600) "3"
    !! (150 + 600)%nat =
  Juggling.createJugglingPatternPoints 3 8 6 (3 / 10) (98 / 10) 1 (2 * 600) "3"
    !! 150%nat.
Proof.
  assert (Hm : (0 < 600)%nat) by lia.
  assert (Hi : (150 <= 600)%nat) by lia.
  exact (proj1 (juggling_traced_twice 3 8 6 (3 / 10) (98 / 10) 1 600 150 "3" Hm Hi)).
Defined.

Lemma first_is_last {A} (l : list A) (p : A) :
  l !! 0%nat = Some p -> last l = Some p ->
  exists q, l !! 0%nat = Some q /\ last l = Some q.
Proof. intros H1 H2. exists p. split; assumption. Qed.

(** X23.  What [recreateSystem] hands to the curve constructor.  The
    closed flag is false for the Lorenz path only; whenever it is true
    (the juggling path having a positive number of samples) the point list
    begins and ends at the same point.  For the Viviani path, which is the
    choice for every curve type but the two named ones, each of the 257
    points is at horizontal distance [vivianiA] from the camera target.
    For the juggling path the camera target is the crossover point of the
    figure exactly when scaling leaves the throw height as it is. *)
Theorem recreateSystem_closed_paths (params : PathParams) :
  (0 < juggling_numPoints params)%nat ->
  let path := recreateSystem_path params in
  (isCurveClosed path = false <-> curveType params = "lorenz"%string) /\
  (isCurveClosed path = true ->
   exists p, curvePoints path !! 0%nat = Some p /\ last (curvePoints path) = Some p) /\
  (curveType params <> "lorenz"%string -> curveType params <> "juggling"%string ->
   length (curvePoints path) = 257%nat /\
   Forall (fun p =>
             ((Viviani.px p - Viviani.px (curveCenter path)) *
                (Viviani.px p - Viviani.px (curveCenter path)) +
              (Viviani.py p - Viviani.py (curveCenter path)) *
                (Viviani.py p - Viviani.py (curveCenter path)) =
              vivianiA params * vivianiA params)%R)
          (curvePoints path)) /\
  (curveType params = "juggling"%string ->
   (curvePoints path !! 0%nat = Some (curveCenter path) <->
    (juggling_throwHeight params * juggling_scale params
       = juggling_throwHeight params)%R)).
Proof.
  intros Hn path. subst path. unfold recreateSystem_path.
  destruct (String.eqb_spec (curveType params) "lorenz") as [El | Nl];
    [| destruct (String.eqb_spec (curveType params) "juggling") as [Ej | Nj]];
    cbv zeta; cbn [isCurveClosed curvePoints curveCenter].
  - split; [split; [intros _; exact El | reflexivity] |].
    split; [discriminate |]. split; [intros H; contradiction |].
    intros Ej. rewrite El in Ej. discriminate.
  - destruct (juggling_ends (juggling_balls params)
                (juggling_throwHeight params) (juggling_handSeparation params)
                (juggling_throwAngle params) (juggling_gravity params)
                (juggling_scale params) (juggling_numPoints params)
                (juggling_pattern params) Hn) as (Hfirst & Hlast).
    split; [split; [discriminate | intros E; contradiction] |].
    split; [intros _; exact (first_is_last _ _ Hfirst Hlast) |].
    split; [intros _ H; contradiction |].
    intros _. rewrite Hfirst. split.
    + intros E. injection E as E. Lra.lra.
    + intros E. do 2 f_equal. Lra.lra.
  - destruct (viviani_ends (vivianiA params) 256 ltac:(lia)) as (Hlen & Hfirst & Hlast).
    split; [split; [discriminate | intros E; contradiction] |].
    split; [intros _; exact (first_is_last _ _ Hfirst Hlast) |].
    split; [| intros E; contradiction].
    intros _ _. split; [exact Hlen |].
    unfold Viviani.createVivianiCurvePoints. rewrite pushed_points.
    apply Forall_fmap, Forall_forall. intros i _. cbn [Viviani.px Viviani.py].
    destruct (viviani_surfaces (vivianiA params) (Viviani.parameter 256 i)) as [_ H].
    cbv zeta in H. unfold compose. rewrite !Rminus_0_r. exact H.
Qed.

Lemma recreateSystem_closed_paths_witness :
  exists p,
    curvePoints (recreateSystem_path (demoPathParams "juggling")) !! 0%nat = Some p /\
    last (curvePoints (recreateSystem_path (demoPathParams "juggling"))) = Some p.
Proof.
  assert (Hn : (0 < juggling_numPoints (demoPathParams "juggling"))%nat) by (cbn; lia).
  destruct (recreateSystem_closed_paths (demoPathParams "juggling") Hn) as (_ & Hclosed & _).
  apply Hclosed. reflexivity.
Defined.

(** ** [updateCometParams] *)

Lemma floor_of_nonneg (q : Q) : 0 <= q -> (0 <= Math_floor q)%Z.
Proof.
  intros Hq. unfold Math_floor. change 0%Z with (Qfloor 0). apply Qfloor_resp_le. exact Hq.
Qed.

Lemma comet_constructor_fixed `{Trig} (params : Params) (shader : ShaderParams)
    (path : Curve) (n : nat) (speedFactor scatterRadius : Q) (color : string) (g : Rng) :
  0 <= comet_tailWidth params ->
  let p := fst (Comet.constructor params path n (comet_tailWidth params)
                  (comet_glowIntensity shader) speedFactor scatterRadius color g) in
  updateCometParams_each params shader p = Some p.
Proof.
  intros Hw. unfold Comet.constructor, randomScatter, Math_random. cbn [draws cursor].
  set (lines := Z.to_nat (Math_floor (comet_tailWidth params * 2))).
  destruct (for_up n _ _) as [positions weights].
  set (strand := fun k =>
         Comet.mkWideTail
           (for_up ((length positions + 2) / 3)%nat
              (fun positions0 k0 =>
                 let j := (k0 * 3)%nat in
                 let positions1 :=
                   write positions0 j (read positions0 j + x (Comet.offsetVector lines k)) in
                 write positions1 (j + 1)
                   (read positions1 (j + 1) + y (Comet.offsetVector lines k)))
              positions)
           (css color)
           (comet_glowIntensity shader * (1 - num k / num lines * (1 # 2))) 1).
  assert (Hmeshes :
            (if (0 <? lines)%nat
             then for_up lines (fun wideTailMeshes i => wideTailMeshes ++ [strand i]) []
             else []) = strand <$> seq 0 lines).
  { rewrite for_up_push. destruct lines; reflexivity. }
  cbv zeta. cbn [fst].
  change (for_up lines _ []) with
    (for_up lines (fun wideTailMeshes i => wideTailMeshes ++ [strand i]) []).
  rewrite Hmeshes. unfold updateCometParams_each. cbv zeta.
  cbn [Comet.path Comet.tailLength Comet.currentT Comet.baseSpeedRandomness Comet.speed
       Comet.lifecycleOffset Comet.scatterOffset Comet.headPosition Comet.tailPositions
       Comet.tailFades Comet.headMaterial_cometColor Comet.headMaterial_lifecycleAlpha
       Comet.tailMaterial_cometColor Comet.tailMaterial_lifecycleAlpha
       Comet.wideTailMeshes].
  rewrite length_fmap, length_seq.
  assert (Htest : (2 <? Z.abs (Math_floor (comet_tailWidth params * 2) - Z.of_nat lines))%Z
                  = false).
  { pose proof (floor_of_nonneg (comet_tailWidth params * 2) ltac:(lra)) as Hf.
    apply Z.ltb_ge. subst lines. lia. }
  rewrite Htest. do 2 f_equal.
  apply list_eq. intros i. rewrite list_lookup_imap, list_lookup_fmap.
  destruct (seq 0 lines !! i) as [k |] eqn:Hk; [| reflexivity].
  apply lookup_seq in Hk. destruct Hk as [-> _]. reflexivity.
Qed.

Lemma updateCometParams_fixed (params : Params) (shader : ShaderParams)
    (particles : list Comet.t) :
  Forall (fun p => updateCometParams_each params shader p = Some p) particles ->
  updateCometParams params shader particles = Some particles.
Proof.
  induction 1 as [| p rest Hp _ IH]; [reflexivity |].
  cbn [updateCometParams]. rewrite Hp, IH. reflexivity.
Qed.

(** X24.  Straight after [init], [updateCometParams] is a no-op: with a
    tail width that is not negative it does not recreate the system and
    leaves every comet exactly as the constructor built it, the glow
    intensity of each extra tail line included. *)
Theorem updateCometParams_after_init `{Trig} (params : Params) (shader : ShaderParams)
    (curvePath : Curve) (old : list Comet.t) (g : Rng) :
  0 <= comet_tailWidth params ->
  exists particles,
    fst (ParticleSystem.init params shader curvePath
           (ParticleSystem.CometParticleSystem old) g)
      = ParticleSystem.CometParticleSystem particles /\
    length particles = numParticles params /\
    updateCometParams params shader particles = Some particles.
Proof.
  intros Hw. unfold ParticleSystem.init, ParticleSystem.createParticles.
  cbn [ParticleSystem.clear].
  match goal with
  | |- context [for_up ?n (fun '(done, r1) (_ : nat) =>
                             let '(p, r2) := @?make r1 in (done ++ [p], r2)) ([], g)] =>
    destruct (for_up_create make n [] g) as (created & Hfst & Hlen & Hall)
  end.
  destruct (for_up _ _ _) as [particles g1]. cbn [fst app] in *. subst particles.
  exists created. split; [reflexivity |]. split; [exact Hlen |].
  apply updateCometParams_fixed. eapply Forall_impl; [exact Hall |].
  intros p [g' ->]. apply comet_constructor_fixed. exact Hw.
Qed.

Lemma updateCometParams_after_init_witness :
  exists particles,
    fst (@ParticleSystem.init demoTrig demoParams (mkShaderParams (8 # 10) (8 # 10))
           demoCurve (ParticleSystem.CometParticleSystem []) demoRng)
      = ParticleSystem.CometParticleSystem particles /\
    length particles = numParticles demoParams /\
    updateCometParams demoParams (mkShaderParams (8 # 10) (8 # 10)) particles
      = Some particles.
Proof.
  assert (Hw : 0 <= comet_tailWidth demoParams) by evaluated.
  exact (@updateCometParams_after_init demoTrig demoParams (mkShaderParams (8 # 10) (8 # 10))
           demoCurve [] demoRng Hw).
Defined.

Lemma floor_gap (u v : Q) (k : Z) :
  u <= v + inject_Z k -> (Qfloor u <= Qfloor v + k)%Z.
Proof.
  intros Huv. pose proof (Qfloor_le u) as Hu. pose proof (Qlt_floor v) as Hv.
  assert (Hlt : inject_Z (Qfloor u) < inject_Z (Qfloor v + 1 + k)).
  { rewrite !inject_Z_plus in *. change (inject_Z 1) with 1 in *. lra. }
  rewrite <- Zlt_Qlt in Hlt. lia.
Qed.

Lemma intensityFactor_range (glowIntensity : Q) (i lines : nat) :
  0 <= glowIntensity -> (i < lines)%nat ->
  let intensityFactor := 1 - num i / num lines * (1 # 2) in
  glowIntensity * (1 # 2) <= glowIntensity * intensityFactor /\
  glowIntensity * intensityFactor <= glowIntensity.
Proof.
  intros Hg Hi. cbv zeta.
  assert (Hpos : 0 < num lines).
  { apply Qle_lt_trans with (num i); [apply num_nonneg | apply num_lt; exact Hi]. }
  assert (H0 : 0 <= num i / num lines).
  { apply Qle_shift_div_l; [exact Hpos |]. pose proof (num_nonneg i). lra. }
  assert (H1 : num i / num lines <= 1).
  { apply Qle_shift_div_r; [exact Hpos |].
    pose proof (num_le i lines ltac:(lia)). lra. }
  set (r := num i / num lines) in *. clearbody r. nra.
Qed.

Lemma updateCometParams_each_kept (params : Params) (shader : ShaderParams) (p : Comet.t) :
  0 <= comet_glowIntensity shader ->
  (Z.abs (Math_floor (comet_tailWidth params * 2)
          - Z.of_nat (length (Comet.wideTailMeshes p))) <= 2)%Z ->
  exists p',
    updateCometParams_each params shader p = Some p' /\
    length (Comet.wideTailMeshes p') = length (Comet.wideTailMeshes p) /\
    Comet.tailMaterial_glowIntensity p' = comet_glowIntensity shader /\
    forall k mesh, Comet.wideTailMeshes p' !! k = Some mesh ->
      comet_glowIntensity shader * (1 # 2) <= Comet.w_glowIntensity mesh /\
      Comet.w_glowIntensity mesh <= comet_glowIntensity shader.
Proof.
  intros Hg Habs. unfold updateCometParams_each. cbv zeta.
  apply Z.ltb_ge in Habs. rewrite Habs. eexists. split; [reflexivity |].
  cbn [Comet.wideTailMeshes Comet.tailMaterial_glowIntensity].
  split; [apply length_imap |]. split; [reflexivity |].
  intros k mesh Hk. rewrite list_lookup_imap in Hk.
  destruct (Comet.wideTailMeshes p !! k) as [m |] eqn:Hm; [| discriminate].
  apply lookup_lt_Some in Hm. cbn in Hk. injection Hk as <-.
  cbn [Comet.w_glowIntensity]. apply intensityFactor_range; assumption.
Qed.

(** X25.  When [updateCometParams] rebuilds.  For comets built for a tail
    width [w0] (each has [floor(2 w0)] extra tail lines), with widths and
    glow intensity not negative: a new width within 1 of [w0] never
    recreates the system, so the comets keep their number of extra lines
    even where [floor(2 tailWidth)] has changed, and each extra line gets
    a glow intensity between half the configured one and the configured
    one; a new width at least 1.5 away from [w0] always recreates it,
    unless there is no comet at all. *)
Theorem updateCometParams_threshold (params : Params) (shader : ShaderParams)
    (particles : list Comet.t) (w0 : Q) :
  0 <= w0 -> 0 <= comet_tailWidth params -> 0 <= comet_glowIntensity shader ->
  Forall (fun p => length (Comet.wideTailMeshes p) = Z.to_nat (Math_floor (w0 * 2)))
         particles ->
  (w0 - 1 <= comet_tailWidth params /\ comet_tailWidth params <= w0 + 1 ->
   exists particles',
     updateCometParams params shader particles = Some particles' /\
     Forall2 (fun p p' =>
                length (Comet.wideTailMeshes p') = length (Comet.wideTailMeshes p) /\
                Comet.tailMaterial_glowIntensity p' = comet_glowIntensity shader /\
                forall k mesh, Comet.wideTailMeshes p' !! k = Some mesh ->
                  comet_glowIntensity shader * (1 # 2) <= Comet.w_glowIntensity mesh /\
                  Comet.w_glowIntensity mesh <= comet_glowIntensity shader)
             particles particles') /\
  (particles <> [] ->
   w0 + (3 # 2) <= comet_tailWidth params \/ comet_tailWidth params + (3 # 2) <= w0 ->
   updateCometParams params shader particles = None).
Proof.
  intros Hw0 Hw Hg Hall.
  pose proof (floor_of_nonneg (w0 * 2) ltac:(lra)) as Hf0.
  pose proof (floor_of_nonneg (comet_tailWidth params * 2) ltac:(lra)) as Hf.
  unfold Math_floor in *. split.
  - intros [Hlo Hhi].
    assert (Hnear : (Z.abs (Qfloor (comet_tailWidth params * 2) - Qfloor (w0 * 2)) <= 2)%Z).
    { pose proof (floor_gap (comet_tailWidth params * 2) (w0 * 2) 2) as H1.
      pose proof (floor_gap (w0 * 2) (comet_tailWidth params * 2) 2) as H2.
      change (inject_Z 2) with 2 in H1, H2.
      specialize (H1 ltac:(lra)). specialize (H2 ltac:(lra)). lia. }
    induction Hall as [| p rest Hp _ IH].
    + exists []. split; [reflexivity | constructor].
    + destruct IH as (rest' & Hrest & Hall').
      destruct (updateCometParams_each_kept params shader p Hg) as (p' & Hp' & Hprops).
      { unfold Math_floor. rewrite Hp. rewrite Z2Nat.id by exact Hf0. exact Hnear. }
      exists (p' :: rest'). cbn [updateCometParams]. rewrite Hp', Hrest.
      split; [reflexivity |]. constructor; [exact Hprops | exact Hall'].
  - intros Hne Hfar.
    assert (Hgap : (2 < Z.abs (Qfloor (comet_tailWidth params * 2) - Qfloor (w0 * 2)))%Z).
    { destruct Hfar as [Hfar | Hfar].
      - pose proof (floor_gap (w0 * 2) (comet_tailWidth params * 2) (-3)) as H1.
        change (inject_Z (-3)) with (-3 # 1) in H1. specialize (H1 ltac:(lra)). lia.
      - pose proof (floor_gap (comet_tailWidth params * 2) (w0 * 2) (-3)) as H1.
        change (inject_Z (-3)) with (-3 # 1) in H1. specialize (H1 ltac:(lra)). lia. }
    destruct Hall as [| p rest Hp _]; [contradiction |].
    cbn [updateCometParams]. unfold updateCometParams_each. cbv zeta.
    unfold Math_floor. rewrite Hp, Z2Nat.id by exact Hf0.
    apply Z.ltb_lt in Hgap. rewrite Hgap. reflexivity.
Qed.

Lemma updateCometParams_threshold_witness :
  exists particles',
    updateCometParams demoParams (mkShaderParams (8 # 10) (8 # 10)) [demoComet]
      = Some particles' /\
    length particles' = 1%nat.
Proof.
  assert (Hw0 : 0 <= 8 # 10) by evaluated.
  assert (Hw : 0 <= comet_tailWidth demoParams) by evaluated.
  assert (Hg : 0 <= comet_glowIntensity (mkShaderParams (8 # 10) (8 # 10))) by evaluated.
  assert (Hall : Forall (fun p => length (Comet.wideTailMeshes p)
                                  = Z.to_nat (Math_floor ((8 # 10) * 2))) [demoComet]).
  { constructor; [evaluated | constructor]. }
  assert (Hnear : (8 # 10) - 1 <= comet_tailWidth demoParams /\
                  comet_tailWidth demoParams <= (8 # 10) + 1) by (split; evaluated).
  destruct (proj1 (updateCometParams_threshold demoParams (mkShaderParams (8 # 10) (8 # 10))
                     [demoComet] (8 # 10) Hw0 Hw Hg Hall) Hnear) as (particles' & Hsome & Hsame).
  exists particles'. split; [exact Hsome |].
  symmetry. exact (Forall2_length _ _ _ Hsame).
Defined.

(** ** The earlier engine *)

Lemma legacy_setParticleColor_fields (params : Params) (p : Legacy.t) (g : Rng) :
  let p' := fst (Legacy.setParticleColor params p g) in
  Legacy.path p' = Legacy.path p /\
  Legacy.trailLength p' = Legacy.trailLength p /\
  Legacy.currentT p' = Legacy.currentT p /\
  Legacy.baseSpeedRandomness p' = Legacy.baseSpeedRandomness p /\
  Legacy.speed p' = Legacy.speed p /\
  Legacy.scatterOffset p' = Legacy.scatterOffset p /\
  Legacy.trailPositions p' = Legacy.trailPositions p /\
  Legacy.trailAlphas p' = Legacy.trailAlphas p.
Proof.
  unfold Legacy.setParticleColor, Math_random.
  destruct (colorMode params).
  - cbn. repeat split.
  - cbn. repeat split.
  - destruct (0 <? length (activePalette params))%nat; [| cbn; repeat split].
    destruct (activePalette params !! _); cbn; repeat split.
  - cbn. repeat split.
Qed.

Lemma wrap_behind_start (t : Q) : - (1) < t -> t < 0 -> wrap t == t + 1.
Proof.
  intros Hlo Hhi.
  assert (Hrange : 0 <= wrap t /\ wrap t < 1).
  { unfold wrap. destruct (rem1_range t) as [H1 H2].
    rewrite rem1_mod1 by lra. apply mod1_range. }
  assert (Hint : exists k : Z, wrap t == t + inject_Z k).
  { exists (1 + - Qtrunc t + - Qtrunc (rem1 t + 1))%Z. unfold wrap, rem1.
    rewrite !inject_Z_plus, !inject_Z_opp. change (inject_Z 1) with 1. ring. }
  destruct Hint as [k Hk]. destruct Hrange as [Hw0 Hw1].
  assert (Hk1 : k = 1%Z).
  { assert (H0 : (0 < k)%Z).
    { rewrite Zlt_Qlt. change (inject_Z 0) with 0. lra. }
    assert (H2 : (k < 2)%Z).
    { rewrite Zlt_Qlt. change (inject_Z 2) with 2. lra. }
    lia. }
  rewrite Hk, Hk1. reflexivity.
Qed.

(** X26.  The glow particle kept the ordinary tick of the earlier
    [Particle].  From the same place with the same trail, at the same speed
    factor, a tick that does not reach the end of the path leaves the two
    again at the same place with the same trail; neither draws a random
    number, and the earlier particle keeps its colour. *)
Theorem legacy_tick_is_glow_tick (params : Params) (p : Legacy.t) (q : GlowParticle.t)
    (g : Rng) :
  sameTrail p q ->
  GlowParticle.currentT q + glow_speedFactor params * GlowParticle.baseSpeedRandomness q < 1 ->
  let p' := Legacy.update params (glow_speedFactor params) p g in
  let q' := GlowParticle.update params q g in
  sameTrail (fst p') (fst q') /\ snd p' = g /\ snd q' = g /\
  Legacy.color (fst p') = Legacy.color p.
Proof.
  intros (Hpath & Hn & Ht & Hb & Hs & Hoff & Hpos & Hal) Hadv.
  apply geb_false in Hadv. unfold Legacy.update, GlowParticle.update, sameTrail.
  rewrite Hpath, Hn, Ht, Hb, Hoff, Hpos, Hal, Hadv. cbn. repeat split.
Qed.

Lemma legacy_tick_is_glow_tick_witness :
  snd (Legacy.update demoParams (glow_speedFactor demoParams)
         (Legacy.mk (GlowParticle.path demoGlow) (GlowParticle.trailLength demoGlow)
            (GlowParticle.currentT demoGlow) (GlowParticle.baseSpeedRandomness demoGlow)
            (GlowParticle.speed demoGlow) (GlowParticle.scatterOffset demoGlow)
            (GlowParticle.trailPositions demoGlow) (GlowParticle.trailAlphas demoGlow)
            (hex 16777215)) demoRng) = demoRng.
Proof.
  assert (Hadv : GlowParticle.currentT demoGlow
                 + glow_speedFactor demoParams * GlowParticle.baseSpeedRandomness demoGlow < 1)
    by evaluated.
  refine (proj1 (proj2 (legacy_tick_is_glow_tick demoParams _ demoGlow demoRng _ Hadv))).
  repeat split.
Defined.

(** X27.  Where the earlier [Particle] wraps.  On the tick where
    [currentT] reaches 1 it returns to 0, takes a new colour from
    [setParticleColor] and then a new scatter offset from the draws that
    follow, and lays its trail along the path again: sample [i] is at the
    wrapped parameter [0 - i / 1000], which is 0 for the head and
    [1 - i / 1000], just before the end of the path, for the samples
    behind it.  (The glow particle gathers the whole trail at the start of
    the path instead.) *)
Theorem legacy_wrap_relays_trail (params : Params) (particleSpeedFactor : Q)
    (p : Legacy.t) (g : Rng) :
  length (Legacy.trailPositions p) = (Legacy.trailLength p * 3)%nat ->
  1 <= Legacy.currentT p + particleSpeedFactor * Legacy.baseSpeedRandomness p ->
  let p' := fst (Legacy.update params particleSpeedFactor p g) in
  let recoloured := Legacy.setParticleColor params p g in
  let fresh := fst (randomScatter (particleScatterRadius params) (snd recoloured)) in
  Legacy.currentT p' = 0 /\
  Legacy.color p' = Legacy.color (fst recoloured) /\
  Legacy.scatterOffset p' = fresh /\
  length (Legacy.trailPositions p') = (Legacy.trailLength p * 3)%nat /\
  (forall i, (i < Legacy.trailLength p)%nat ->
     sample (Legacy.trailPositions p') i =
     add (getPointAt (Legacy.path p) (wrap (0 - num i * (1 # 1000)))) fresh) /\
  wrap (0 - num 0 * (1 # 1000)) == 0 /\
  (forall i, (1 <= i < 1000)%nat ->
     wrap (0 - num i * (1 # 1000)) == 1 - num i * (1 # 1000)).
Proof.
  intros Hlen Hwrap p' recoloured fresh. subst p' recoloured fresh.
  apply geb_true in Hwrap. unfold Legacy.update. rewrite Hwrap.
  destruct (Legacy.setParticleColor params p g) as [recoloured g1]. cbn [fst snd].
  destruct (randomScatter (particleScatterRadius params) g1) as [fresh g2].
  cbn [fst snd Legacy.currentT Legacy.color Legacy.scatterOffset Legacy.trailPositions].
  destruct (for_up_samples
              (fun i => add (getPointAt (Legacy.path p) (wrap (0 - num i * (1 # 1000))))
                          fresh)
              (Legacy.trailLength p) (Legacy.trailPositions p) ltac:(lia)) as [Hl Hs].
  unfold wrap in Hl, Hs |- *. cbv zeta in *.
  split; [reflexivity |]. split; [reflexivity |]. split; [reflexivity |].
  split; [rewrite Hl; exact Hlen |]. split; [exact Hs |]. fold (wrap (0 - num 0 * (1 # 1000))).
  split.
  - reflexivity.
  - intros i Hi.
    assert (H1 : num 1 <= num i) by (apply num_le; lia).
    assert (H2 : num i < num 1000) by (apply num_lt; lia).
    change (num 1) with 1 in H1. change (num 1000) with 1000 in H2.
    fold (wrap (0 - num i * (1 # 1000))). rewrite wrap_behind_start by lra. ring.
Qed.

Lemma legacy_wrap_relays_trail_witness :
  Legacy.currentT (fst (Legacy.update demoParams (4 # 1000) demoLegacy demoRng)) = 0.
Proof.
  assert (Hlen : length (Legacy.trailPositions demoLegacy)
                 = (Legacy.trailLength demoLegacy * 3)%nat) by evaluated.
  assert (Hwrap : 1 <= Legacy.currentT demoLegacy
                       + (4 # 1000) * Legacy.baseSpeedRandomness demoLegacy) by evaluated.
  exact (proj1 (legacy_wrap_relays_trail demoParams (4 # 1000) demoLegacy demoRng Hlen Hwrap)).
Defined.

Lemma legacy_constructor_state (params : Params) (n : nat) (speedFactor : Q)
    (path : Curve) (g : Rng) :
  let p := fst (Legacy.constructor params n speedFactor path g) in
  Legacy.path p = path /\
  Legacy.trailLength p = n /\
  Legacy.speed p = speedFactor * Legacy.baseSpeedRandomness p /\
  length (Legacy.trailPositions p) = (n * 3)%nat /\
  length (Legacy.trailAlphas p) = n /\
  (forall i, (i < n)%nat ->
     sample (Legacy.trailPositions p) i =
     add (getPointAt path (wrap (Legacy.currentT p - num i * (1 # 1000))))
         (Legacy.scatterOffset p)) /\
  ((0 < n)%nat -> read (Legacy.trailAlphas p) 0 = 1) /\
  (forall i, (i < n)%nat -> read (Legacy.trailAlphas p) i == ramp n i).
Proof.
  unfold Legacy.constructor, randomScatter, Math_random. cbn [draws cursor].
  set (currentT := draws g (cursor g)).
  set (scatter := mkVector3 _ _ _).
  destruct (for_up_fill
              (fun i => add (getPointAt path (wrap (currentT - num i * (1 # 1000)))) scatter)
              (ramp n) n (Float32Array (n * 3)) (Float32Array n)
              (length_Float32Array _) (length_Float32Array _))
    as (Hlp & Hlw & Hsample & Hr).
  unfold wrap in Hlp, Hlw, Hsample, Hr.
  destruct (for_up n _ _) as [positions weights]. cbn [fst snd] in Hlp, Hlw, Hsample, Hr.
  match goal with
  | |- context [Legacy.setParticleColor params ?built ?g'] =>
    destruct (legacy_setParticleColor_fields params built g')
      as (Hpath & Hn & Ht & Hb & Hs & Hoff & Hpos & Hal);
    destruct (Legacy.setParticleColor params built g') as [p g1]
  end.
  cbv zeta in *. cbn [fst] in *.
  cbn [Legacy.path Legacy.trailLength Legacy.currentT Legacy.baseSpeedRandomness
       Legacy.speed Legacy.scatterOffset Legacy.trailPositions Legacy.trailAlphas]
    in Hpath, Hn, Ht, Hb, Hs, Hoff, Hpos, Hal.
  rewrite Hpath, Hn, Ht, Hb, Hs, Hoff, Hpos, Hal.
  assert (Hlw' : length (if (0 <? n)%nat then write weights 0 1 else weights) = n).
  { destruct (0 <? n)%nat; [rewrite length_write |]; exact Hlw. }
  split; [reflexivity |]. split; [reflexivity |]. split; [reflexivity |].
  split; [exact Hlp |]. split; [exact Hlw' |]. split; [exact Hsample |]. split.
  - intros Hpos'. apply Nat.ltb_lt in Hpos' as Hn'. rewrite Hn'. apply read_write_eq. lia.
  - intros i Hi. assert (Hn' : (0 <? n)%nat = true) by (apply Nat.ltb_lt; lia). rewrite Hn'.
    destruct (Nat.eq_dec i 0%nat) as [-> | Hne].
    + rewrite read_write_eq by lia. rewrite ramp_head. reflexivity.
    + rewrite read_write_ne by lia. rewrite Hr by exact Hi. reflexivity.
Qed.

(** X28.  [initParticles] of the earlier engine builds [numParticles]
    particles on the given path.  Each has buffers for the configured
    trail length, a speed that is its own randomness times the speed
    factor, its trail laid behind [currentT] at steps of 1/1000 of the
    path (wrapped, so a trail may straddle the ends of the path), and the
    linear ramp of weights with the head at exactly 1. *)
Theorem legacy_initParticles_state (params : Params) (particleTrailLength : nat)
    (particleSpeedFactor : Q) (curvePath : Curve) (g : Rng) :
  let particles :=
    fst (Legacy.initParticles params particleTrailLength particleSpeedFactor curvePath g) in
  length particles = numParticles params /\
  Forall (fun p =>
            Legacy.path p = curvePath /\
            Legacy.trailLength p = particleTrailLength /\
            Legacy.speed p = particleSpeedFactor * Legacy.baseSpeedRandomness p /\
            length (Legacy.trailPositions p) = (particleTrailLength * 3)%nat /\
            length (Legacy.trailAlphas p) = particleTrailLength /\
            (forall i, (i < particleTrailLength)%nat ->
               sample (Legacy.trailPositions p) i =
               add (getPointAt curvePath (wrap (Legacy.currentT p - num i * (1 # 1000))))
                   (Legacy.scatterOffset p)) /\
            ((0 < particleTrailLength)%nat -> read (Legacy.trailAlphas p) 0 = 1) /\
            (forall i, (i < particleTrailLength)%nat ->
               read (Legacy.trailAlphas p) i == ramp particleTrailLength i))
         particles.
Proof.
  intros particles. subst particles. unfold Legacy.initParticles.
  destruct (for_up_create
              (Legacy.constructor params particleTrailLength particleSpeedFactor curvePath)
              (numParticles params) [] g) as (created & Hfst & Hlen & Hall).
  rewrite Hfst. cbn [app]. split; [exact Hlen |].
  eapply Forall_impl; [exact Hall |].
  intros p [g' ->]. apply legacy_constructor_state.
Qed.
